(** * brewblox_service.events: event-bus connectivity layer

    A shallow embedding of [brewblox_service/events.py] (Python 3.6, asyncio,
    aioamqp) and the properties of its listener, publisher and log handler.

    Conventions of the embedding:
    - a coroutine is a control state (the [await] it is suspended at) and a
      step function that resumes it with the outcome of that [await];
    - the outcome of every [await] on the broker, on a queue or on a timer is
      chosen by the environment: it returns, or it raises an exception;
    - a Python object that is mutated in place ([self], an [asyncio.Queue],
      a list) is threaded through the functions that mutate it. *)

From Stdlib Require Import List String Ascii ZArith NArith Bool Arith Lia.
From Stdlib.Strings Require Import Byte.
From Stdlib Require Import Permutation.
From Stdlib Require Decimal DecimalFacts DecimalPos DecimalN.
Import ListNotations.
Open Scope string_scope.
Open Scope nat_scope.
Open Scope list_scope.

(* ====================================================================== *)
(** * Python runtime *)
(* ====================================================================== *)

Module Py.

(** Exception classes that derive from [Exception].  events.py targets
    Python 3.6, where [concurrent.futures.CancelledError] and
    [concurrent.futures.TimeoutError] (the classes the module imports, and
    the ones asyncio raises) are subclasses of [Exception].  The exits of
    the interpreter ([KeyboardInterrupt], [SystemExit], [GeneratorExit])
    are not errors and are outside the model. *)
Inductive exn : Type :=
| CancelledError
| TimeoutError
| AioamqpException (msg : string)
| AttributeError
| QueueFull
| JSONDecodeError
| TypeError
| UnboundLocalError
| OtherException (msg : string).

Definition exn_eq_dec : forall a b : exn, {a = b} + {a <> b}.
Proof. decide equality; apply string_dec. Defined.

Definition is_CancelledError (e : exn) : bool :=
  match e with CancelledError => true | _ => false end.

Definition is_TimeoutError (e : exn) : bool :=
  match e with TimeoutError => true | _ => false end.

(** [isinstance(e, aioamqp.exceptions.AioamqpException)] *)
Definition is_AioamqpException (e : exn) : bool :=
  match e with AioamqpException _ => true | _ => false end.

(** What an [await] on the outside world resumes with. *)
Inductive outcome : Type :=
| Returns
| Raises (e : exn).

(** Result of a call: a value, or a propagating exception. *)
Inductive result (A : Type) : Type :=
| Ret (a : A)
| Exc (e : exn).
Arguments Ret {A} a.
Arguments Exc {A} e.

Definition returned {A} (r : result A) : bool :=
  match r with Ret _ => true | Exc _ => false end.

End Py.
Import Py.

(* ====================================================================== *)
(** * asyncio.Queue *)
(* ====================================================================== *)

Module Queue.

(** [asyncio.Queue(maxsize=0)]: a FIFO of items; [maxsize <= 0] means
    unbounded. *)
Record t (A : Type) : Type := mk { maxsize : nat; items : list A }.
Arguments mk {A} maxsize items.
Arguments maxsize {A} _.
Arguments items {A} _.

(** [asyncio.Queue(loop=...)] *)
Definition create {A} : t A := mk 0 [].

Definition qsize {A} (q : t A) : nat := List.length (items q).

Definition empty {A} (q : t A) : bool :=
  match items q with [] => true | _ => false end.

(** [Queue.full]: never full when [maxsize] is 0. *)
Definition full {A} (q : t A) : bool :=
  (0 <? maxsize q) && (maxsize q <=? qsize q).

(** [Queue.put_nowait]: raises [QueueFull] on a full queue, appends at the
    tail otherwise. *)
Definition put_nowait {A} (q : t A) (x : A) : result (t A) :=
  if full q then Exc QueueFull
  else Ret (mk (maxsize q) (items q ++ [x])).

(** A completed [Queue.get]: the head, and the queue without it. *)
Definition pop {A} (q : t A) : option (A * t A) :=
  match items q with
  | [] => None
  | x :: rest => Some (x, mk (maxsize q) rest)
  end.

End Queue.

(* ====================================================================== *)
(** * json.dumps, str.encode, json.loads *)
(* ====================================================================== *)

(** The payload values and the text codec of the Python standard library, as
    far as [publish] and [_relay] use them: [json.dumps] with its defaults
    ([ensure_ascii=True], separators [", "] and [": "]), [str.encode] (UTF-8)
    and [json.loads] on [bytes].  Floats are outside the embedding: a payload
    holds none, and [loads] answers an error on a float literal. *)
Module Json.

Local Open Scope N_scope.

(** A Python [str]: its code points. *)
Definition str : Type := list N.

Definition text (s : string) : str :=
  List.map N_of_ascii (list_ascii_of_string s).

(** Keys of a Python [dict] that [json.dumps] accepts: [str] and [int]. *)
Inductive key : Type :=
| KStr (s : str)
| KInt (z : Z).

(** A [dict] is kept as its items in insertion order. *)
#[local] Set Warnings "-register-all".
Inductive value : Type :=
| VNone
| VBool (b : bool)
| VInt (z : Z)
| VStr (s : str)
| VList (l : list value)
| VDict (d : list (key * value)).

Definition str_eqb (a b : str) : bool :=
  if list_eq_dec N.eq_dec a b then true else false.

Definition key_eqb (a b : key) : bool :=
  match a, b with
  | KStr x, KStr y => str_eqb x y
  | KInt x, KInt y => Z.eqb x y
  | _, _ => false
  end.

(** ** Encoder *)

Definition hex_digit (n : N) : N := if n <? 10 then 48 + n else 87 + n.

(** ['\\u{0:04x}'.format(n)] *)
Definition u_escape (n : N) : str :=
  [92; 117; hex_digit (n / 4096 mod 16); hex_digit (n / 256 mod 16);
   hex_digit (n / 16 mod 16); hex_digit (n mod 16)].

(** [replace] of [py_encode_basestring_ascii]: the short escapes of
    [ESCAPE_DCT], printable ASCII as it is, anything else as [\uXXXX], above
    the basic plane as a surrogate pair. *)
Definition escape_char (c : N) : str :=
  if c =? 34 then [92; 34]
  else if c =? 92 then [92; 92]
  else if c =? 10 then [92; 110]
  else if c =? 13 then [92; 114]
  else if c =? 9 then [92; 116]
  else if c =? 8 then [92; 98]
  else if c =? 12 then [92; 102]
  else if (32 <=? c) && (c <=? 126) then [c]
  else if c <? 65536 then u_escape c
  else
    let n := c - 65536 in
    u_escape (55296 + (n / 1024) mod 1024) ++ u_escape (56320 + n mod 1024).

Definition encode_basestring_ascii (s : str) : str :=
  [34] ++ List.flat_map escape_char s ++ [34].

Fixpoint uint_chars (d : Decimal.uint) : str :=
  match d with
  | Decimal.Nil => []
  | Decimal.D0 d => 48 :: uint_chars d
  | Decimal.D1 d => 49 :: uint_chars d
  | Decimal.D2 d => 50 :: uint_chars d
  | Decimal.D3 d => 51 :: uint_chars d
  | Decimal.D4 d => 52 :: uint_chars d
  | Decimal.D5 d => 53 :: uint_chars d
  | Decimal.D6 d => 54 :: uint_chars d
  | Decimal.D7 d => 55 :: uint_chars d
  | Decimal.D8 d => 56 :: uint_chars d
  | Decimal.D9 d => 57 :: uint_chars d
  end.

(** [int.__repr__] *)
Definition int_repr (z : Z) : str :=
  match z with
  | Z0 => [48]
  | Zpos p => uint_chars (Pos.to_uint p)
  | Zneg p => 45 :: uint_chars (Pos.to_uint p)
  end.

(** A [dict] key as the encoder writes it: an [int] key becomes its
    decimal text. *)
Definition key_str (k : key) : str :=
  match k with
  | KStr s => s
  | KInt z => int_repr z
  end.

(** [json.dumps(obj)] *)
Fixpoint dumps (v : value) : str :=
  match v with
  | VNone => text "null"
  | VBool true => text "true"
  | VBool false => text "false"
  | VInt z => int_repr z
  | VStr s => encode_basestring_ascii s
  | VList l =>
      [91] ++
      (fix items (l : list value) : str :=
         match l with
         | [] => []
         | x :: rest =>
             dumps x ++
             match rest with [] => [] | _ => [44; 32] ++ items rest end
         end) l
      ++ [93]
  | VDict d =>
      [123] ++
      (fix items (d : list (key * value)) : str :=
         match d with
         | [] => []
         | (k, x) :: rest =>
             encode_basestring_ascii (key_str k) ++ [58; 32] ++ dumps x ++
             match rest with [] => [] | _ => [44; 32] ++ items rest end
         end) d
      ++ [125]
  end.

(** ** UTF-8 *)

Definition byte_of (n : N) : Byte.byte :=
  match Byte.of_N n with Some b => b | None => Byte.x00 end.

(** One code point in UTF-8; [None] is [UnicodeEncodeError] (a surrogate,
    which the strict codec refuses). *)
Definition utf8_encode_char (c : N) : option (list Byte.byte) :=
  if c <? 128 then Some [byte_of c]
  else if c <? 2048 then
    Some [byte_of (192 + c / 64); byte_of (128 + c mod 64)]
  else if c <? 65536 then
    if (55296 <=? c) && (c <=? 57343) then None
    else Some [byte_of (224 + c / 4096); byte_of (128 + (c / 64) mod 64);
               byte_of (128 + c mod 64)]
  else if c <? 1114112 then
    Some [byte_of (240 + c / 262144); byte_of (128 + (c / 4096) mod 64);
          byte_of (128 + (c / 64) mod 64); byte_of (128 + c mod 64)]
  else None.

(** [str.encode()] *)
Fixpoint encode (s : str) : result (list Byte.byte) :=
  match s with
  | [] => Ret []
  | c :: rest =>
      match utf8_encode_char c, encode rest with
      | Some bs, Ret bs' => Ret (bs ++ bs')
      | None, _ => Exc (OtherException "UnicodeEncodeError")
      | _, Exc e => Exc e
      end
  end.

Definition is_cont (b : N) : bool := (128 <=? b) && (b <=? 191).

(** [bytes.decode('utf-8', 'surrogatepass')], the form [json.loads] uses:
    shortest-form sequences only, surrogates let through. *)
Fixpoint utf8_decode (bs : list N) : option str :=
  match bs with
  | [] => Some []
  | b0 :: r0 =>
      if b0 <? 128 then option_map (cons b0) (utf8_decode r0)
      else if (194 <=? b0) && (b0 <=? 223) then
        match r0 with
        | b1 :: r1 =>
            if is_cont b1
            then option_map (cons ((b0 - 192) * 64 + (b1 - 128)))
                            (utf8_decode r1)
            else None
        | _ => None
        end
      else if (224 <=? b0) && (b0 <=? 239) then
        match r0 with
        | b1 :: b2 :: r2 =>
            let c := (b0 - 224) * 4096 + (b1 - 128) * 64 + (b2 - 128) in
            if is_cont b1 && is_cont b2 && (2048 <=? c)
            then option_map (cons c) (utf8_decode r2)
            else None
        | _ => None
        end
      else if (240 <=? b0) && (b0 <=? 244) then
        match r0 with
        | b1 :: b2 :: b3 :: r3 =>
            let c := (b0 - 240) * 262144 + (b1 - 128) * 4096
                     + (b2 - 128) * 64 + (b3 - 128) in
            if is_cont b1 && is_cont b2 && is_cont b3
               && (65536 <=? c) && (c <? 1114112)
            then option_map (cons c) (utf8_decode r3)
            else None
        | _ => None
        end
      else None
  end.

(** ** Decoder *)

Definition is_ws (c : N) : bool :=
  (c =? 32) || (c =? 9) || (c =? 10) || (c =? 13).

Fixpoint skip_ws (s : str) : str :=
  match s with
  | c :: rest => if is_ws c then skip_ws rest else s
  | [] => []
  end.

Definition hex_value (c : N) : option N :=
  if (48 <=? c) && (c <=? 57) then Some (c - 48)
  else if (97 <=? c) && (c <=? 102) then Some (c - 87)
  else if (65 <=? c) && (c <=? 70) then Some (c - 55)
  else None.

(** [_decode_uXXXX] *)
Definition decode_uXXXX (a b c d : N) : option N :=
  match hex_value a, hex_value b, hex_value c, hex_value d with
  | Some x3, Some x2, Some x1, Some x0 =>
      Some (x3 * 4096 + x2 * 256 + x1 * 16 + x0)
  | _, _, _, _ => None
  end.

(** [BACKSLASH] *)
Definition unescape (e : N) : option N :=
  if e =? 34 then Some 34
  else if e =? 92 then Some 92
  else if e =? 47 then Some 47
  else if e =? 98 then Some 8
  else if e =? 102 then Some 12
  else if e =? 110 then Some 10
  else if e =? 114 then Some 13
  else if e =? 116 then Some 9
  else None.

Definition is_high (u : N) : bool := (55296 <=? u) && (u <=? 56319).
Definition is_low (u : N) : bool := (56320 <=? u) && (u <=? 57343).

(** [scanstring(s, end, strict=True)], entered after the opening quote:
    the string and what follows its closing quote. *)
Fixpoint scanstring (s : str) : option (str * str) :=
  match s with
  | [] => None
  | c :: rest =>
      if c =? 34 then Some ([], rest)
      else if c =? 92 then
        match rest with
        | [] => None
        | e :: rest1 =>
            if e =? 117 then
              match rest1 with
              | h3 :: h2 :: h1 :: h0 :: rest2 =>
                  match decode_uXXXX h3 h2 h1 h0 with
                  | None => None
                  | Some uni =>
                      let single :=
                        match scanstring rest2 with
                        | Some (t, r) => Some (uni :: t, r)
                        | None => None
                        end in
                      if is_high uni then
                        match rest2 with
                        | b :: u :: l3 :: l2 :: l1 :: l0 :: rest3 =>
                            if (b =? 92) && (u =? 117) then
                              match decode_uXXXX l3 l2 l1 l0 with
                              | None => None
                              | Some uni2 =>
                                  if is_low uni2 then
                                    match scanstring rest3 with
                                    | Some (t, r) =>
                                        Some (65536 + ((uni - 55296) * 1024
                                                       + (uni2 - 56320)) :: t,
                                              r)
                                    | None => None
                                    end
                                  else single
                              end
                            else single
                        | _ => single
                        end
                      else single
                  end
              | _ => None
              end
            else
              match unescape e, scanstring rest1 with
              | Some ch, Some (t, r) => Some (ch :: t, r)
              | _, _ => None
              end
        end
      else if c <? 32 then None
      else
        match scanstring rest with
        | Some (t, r) => Some (c :: t, r)
        | None => None
        end
  end.

Definition digit_of (c : N) : option (Decimal.uint -> Decimal.uint) :=
  if c =? 48 then Some Decimal.D0
  else if c =? 49 then Some Decimal.D1
  else if c =? 50 then Some Decimal.D2
  else if c =? 51 then Some Decimal.D3
  else if c =? 52 then Some Decimal.D4
  else if c =? 53 then Some Decimal.D5
  else if c =? 54 then Some Decimal.D6
  else if c =? 55 then Some Decimal.D7
  else if c =? 56 then Some Decimal.D8
  else if c =? 57 then Some Decimal.D9
  else None.

(** The longest run of decimal digits at the head of [s]. *)
Fixpoint span_digits (s : str) : Decimal.uint * str :=
  match s with
  | [] => (Decimal.Nil, [])
  | c :: rest =>
      match digit_of c with
      | Some d => let '(u, r) := span_digits rest in (d u, r)
      | None => (Decimal.Nil, s)
      end
  end.

(** A fraction or an exponent may follow: the literal is a float, or is
    malformed. *)
Definition float_follows (s : str) : bool :=
  match s with
  | c :: _ => (c =? 46) || (c =? 101) || (c =? 69)
  | [] => false
  end.

(** [NUMBER_RE] and [int()], for integer literals: an optional minus sign,
    then a single 0 or a run of digits that does not start with 0. *)
Definition scan_number (s : str) : option (value * str) :=
  let '(neg, s1) :=
    match s with
    | c :: r => if c =? 45 then (true, r) else (false, s)
    | [] => (false, s)
    end in
  match s1 with
  | [] => None
  | c :: r =>
      match digit_of c with
      | None => None
      | Some d =>
          let '(u, r') :=
            if c =? 48 then (Decimal.D0 Decimal.Nil, r)
            else let '(u, r') := span_digits r in (d u, r') in
          if float_follows r' then None
          else
            let n := Z.of_N (N.of_uint u) in
            Some (VInt (if neg then Z.opp n else n), r')
      end
  end.

(** [dict.__setitem__] on a [dict] with [str] keys. *)
Fixpoint dict_set (d : list (key * value)) (k : str) (v : value)
  : list (key * value) :=
  match d with
  | [] => [(KStr k, v)]
  | (k', v') :: rest =>
      if key_eqb (KStr k) k' then (k', v) :: rest
      else (k', v') :: dict_set rest k v
  end.

(** [dict(pairs)] *)
Definition dict_of_pairs (pairs : list (str * value)) : list (key * value) :=
  List.fold_left (fun d kv => dict_set d (fst kv) (snd kv)) pairs [].

Definition starts_with (p s : str) : option str :=
  if str_eqb (List.firstn (List.length p) s) p
  then Some (List.skipn (List.length p) s) else None.

(** [scan_once], [JSONArray] and [JSONObject]; [fuel] bounds the depth of
    the calls. *)
Fixpoint scan_once (fuel : nat) (s : str) {struct fuel}
  : option (value * str) :=
  match fuel with
  | O => None
  | S f =>
      match s with
      | [] => None
      | c :: rest =>
          if c =? 34 then
            match scanstring rest with
            | Some (t, r) => Some (VStr t, r)
            | None => None
            end
          else if c =? 123 then
            match skip_ws rest with
            | c1 :: r1 =>
                if c1 =? 125 then Some (VDict [], r1)
                else
                  match scan_pairs f (c1 :: r1) with
                  | Some (pairs, r) => Some (VDict (dict_of_pairs pairs), r)
                  | None => None
                  end
            | [] => None
            end
          else if c =? 91 then
            match skip_ws rest with
            | c1 :: r1 =>
                if c1 =? 93 then Some (VList [], r1)
                else
                  match scan_items f (c1 :: r1) with
                  | Some (vs, r) => Some (VList vs, r)
                  | None => None
                  end
            | [] => None
            end
          else
            match starts_with (text "null") s with
            | Some r => Some (VNone, r)
            | None =>
            match starts_with (text "true") s with
            | Some r => Some (VBool true, r)
            | None =>
            match starts_with (text "false") s with
            | Some r => Some (VBool false, r)
            | None => scan_number s
            end end end
      end
  end

with scan_items (fuel : nat) (s : str) {struct fuel}
  : option (list value * str) :=
  match fuel with
  | O => None
  | S f =>
      match scan_once f s with
      | None => None
      | Some (v, r) =>
          match skip_ws r with
          | c :: r1 =>
              if c =? 93 then Some ([v], r1)
              else if c =? 44 then
                match scan_items f (skip_ws r1) with
                | Some (vs, r2) => Some (v :: vs, r2)
                | None => None
                end
              else None
          | [] => None
          end
      end
  end

with scan_pairs (fuel : nat) (s : str) {struct fuel}
  : option (list (str * value) * str) :=
  match fuel with
  | O => None
  | S f =>
      match s with
      | c :: r =>
          if c =? 34 then
            match scanstring r with
            | None => None
            | Some (k, r1) =>
                match skip_ws r1 with
                | c1 :: r2 =>
                    if c1 =? 58 then
                      match scan_once f (skip_ws r2) with
                      | None => None
                      | Some (v, r3) =>
                          match skip_ws r3 with
                          | c3 :: r4 =>
                              if c3 =? 125 then Some ([(k, v)], r4)
                              else if c3 =? 44 then
                                match scan_pairs f (skip_ws r4) with
                                | Some (ps, r5) => Some ((k, v) :: ps, r5)
                                | None => None
                                end
                              else None
                          | [] => None
                          end
                      end
                    else None
                | [] => None
                end
            end
          else None
      | [] => None
      end
  end.

(** [JSONDecoder.decode]: one value between optional whitespace, and
    nothing after it. *)
Definition decode (s : str) : result value :=
  match scan_once (2 * List.length s + 2) (skip_ws s) with
  | Some (v, r) =>
      match skip_ws r with
      | [] => Ret v
      | _ => Exc JSONDecodeError
      end
  | None => Exc JSONDecodeError
  end.

(** [json.loads(body)] on [bytes]: UTF-8 text (the encoding [loads] detects
    for any body without NUL bytes), then [decode]. *)
Definition loads (body : list Byte.byte) : result value :=
  match utf8_decode (List.map Byte.to_N body) with
  | Some s => decode s
  | None => Exc JSONDecodeError
  end.

(** ** Python equality on payloads *)

Fixpoint dict_get (d : list (key * value)) (k : key) : option value :=
  match d with
  | [] => None
  | (k', v) :: rest => if key_eqb k k' then Some v else dict_get rest k
  end.

(** [a == b]: [bool] is an [int]; lists compare item by item; dicts compare
    as maps. *)
Fixpoint py_eq (a b : value) {struct a} : bool :=
  match a, b with
  | VNone, VNone => true
  | VBool x, VBool y => Bool.eqb x y
  | VBool x, VInt y => Z.eqb (if x then 1 else 0) y
  | VInt x, VBool y => Z.eqb x (if y then 1 else 0)
  | VInt x, VInt y => Z.eqb x y
  | VStr x, VStr y => str_eqb x y
  | VList la, VList lb =>
      (fix all (la lb : list value) : bool :=
         match la, lb with
         | [], [] => true
         | x :: la', y :: lb' => py_eq x y && all la' lb'
         | _, _ => false
         end) la lb
  | VDict da, VDict db =>
      (List.length da =? List.length db)%nat &&
      (fix all (da : list (key * value)) : bool :=
         match da with
         | [] => true
         | (k, x) :: da' =>
             match dict_get db k with
             | Some y => py_eq x y
             | None => false
             end && all da'
         end) da
  | _, _ => false
  end.

(** ** Payloads that JSON can carry as they are *)

(** A Unicode scalar value: a code point that is not a surrogate. *)
Definition scalar (c : N) : bool :=
  (c <? 55296) || ((57343 <? c) && (c <? 1114112)).

Definition text_ok (s : str) : bool := List.forallb scalar s.

Definition str_key (k : key) : bool :=
  match k with
  | KStr s => text_ok s
  | KInt _ => false
  end.

(** The keys of a [dict] are pairwise different. *)
Fixpoint distinct (ks : list key) : bool :=
  match ks with
  | [] => true
  | k :: rest => negb (List.existsb (key_eqb k) rest) && distinct rest
  end.

(** [None], booleans, integers, text without surrogates, lists of such
    values, and dicts whose keys are such text. *)
Fixpoint payload_ok (v : value) : bool :=
  match v with
  | VStr s => text_ok s
  | VList l =>
      (fix all (l : list value) : bool :=
         match l with
         | [] => true
         | x :: rest => payload_ok x && all rest
         end) l
  | VDict d =>
      List.forallb str_key (List.map fst d) && distinct (List.map fst d) &&
      (fix all (d : list (key * value)) : bool :=
         match d with
         | [] => true
         | (_, x) :: rest => payload_ok x && all rest
         end) d
  | _ => true
  end.

End Json.

(* ====================================================================== *)
(** * EventSubscription *)
(* ====================================================================== *)

Module EventSubscription.

(** An [on_message] callback is user code: awaiting it returns or raises.
    It is given the subscription (by identity), the routing key and the
    decoded message. *)
Definition callback : Type := nat -> string -> Json.value -> outcome.

(** [id] is the identity of the Python object: the class defines no
    [__eq__], so two subscriptions are the same only if they are the same
    object. *)
Record t : Type := mk {
  id : nat;
  _routing : string;
  _exchange_name : string;
  _exchange_type : string;
  _on_message : callback;
}.

Definition _default_on_message : callback := fun _ _ _ => Returns.

(** The [on_message] setter: [f if f else _default_on_message]. *)
Definition set_on_message (self : t) (f : option callback) : t :=
  mk (id self) (_routing self) (_exchange_name self) (_exchange_type self)
     (match f with Some g => g | None => _default_on_message end).

(** [__init__] *)
Definition create (ident : nat) (exchange_name routing exchange_type : string)
           (on_message : option callback) : t :=
  set_on_message
    (mk ident routing exchange_name exchange_type _default_on_message)
    on_message.

(** The four awaits of [declare_on_remote], in order. *)
Inductive stage : Type :=
| ExchangeDeclare
| QueueDeclare
| QueueBind
| BasicConsume.

Definition next_stage (st : stage) : option stage :=
  match st with
  | ExchangeDeclare => Some QueueDeclare
  | QueueDeclare => Some QueueBind
  | QueueBind => Some BasicConsume
  | BasicConsume => None
  end.

Inductive event : Type :=
| EvCalled (sub : nat) (routing_key : string) (message : Json.value)
| EvLoggedError (sub : nat) (e : exn).

(** The [try] block of [_relay]:
    [await self.on_message(self, envelope.routing_key, json.loads(body))]. *)
Definition relay_body (self : t) (body : list Byte.byte)
           (routing_key : string) : result unit * list event :=
  match Json.loads body with
  | Exc e => (Exc e, [])
  | Ret message =>
      match _on_message self (id self) routing_key message with
      | Returns => (Ret tt, [EvCalled (id self) routing_key message])
      | Raises e => (Exc e, [EvCalled (id self) routing_key message])
      end
  end.

(** [_relay]: [except Exception as ex: LOGGER.error(...)]. *)
Definition _relay (self : t) (body : list Byte.byte) (routing_key : string)
  : result unit * list event :=
  match relay_body self body routing_key with
  | (Ret tt, evs) => (Ret tt, evs)
  | (Exc e, evs) => (Ret tt, evs ++ [EvLoggedError (id self) e])
  end.

(** A consumer that hands deliveries to [_relay] one after the other and
    stops at the first exception that comes out of it. *)
Fixpoint consume (deliveries : list (t * list Byte.byte * string))
  : result unit * list event :=
  match deliveries with
  | [] => (Ret tt, [])
  | (sub, body, key) :: rest =>
      match _relay sub body key with
      | (Ret tt, evs) =>
          let '(r, evs') := consume rest in (r, evs ++ evs')
      | (Exc e, evs) => (Exc e, evs)
      end
  end.

(** Number of deliveries for which [_relay] ran to its end. *)
Fixpoint relayed (deliveries : list (t * list Byte.byte * string)) : nat :=
  match deliveries with
  | [] => 0
  | (sub, body, key) :: rest =>
      match _relay sub body key with
      | (Ret tt, _) => S (relayed rest)
      | (Exc _, _) => 0
      end
  end.

End EventSubscription.

(* ====================================================================== *)
(** * EventListener *)
(* ====================================================================== *)

Module EventListener.

Import EventSubscription.

Definition Sub : Type := EventSubscription.t.

(** Where control goes once the [finally] clause is done. *)
Inductive after : Type :=
| Reconnect       (* continue: next iteration of the outer loop *)
| Leave.          (* break, or an exception leaving [_listen] *)

(** The two places [declare_on_remote] is called from. *)
Inductive site : Type :=
| Replay          (* the comprehension over self._subscriptions *)
| Drain.          (* the subscription taken from self._pending *)

(** Where [_listen] is suspended. *)
Inductive pc : Type :=
| AwaitConnect                        (* await aioamqp.connect(...) *)
| AwaitChannel                        (* await protocol.channel() *)
| AwaitReplay (i : nat) (st : stage)  (* self._subscriptions[i].declare_on_remote *)
| AwaitEnsureOpen                     (* first try: await protocol.ensure_open() *)
| AwaitPending                        (* await wait_for(self._pending.get(), ...) *)
| AwaitEnsureOpen2 (s : Sub)          (* second try: await protocol.ensure_open() *)
| AwaitDeclare (s : Sub) (st : stage) (* await subscription.declare_on_remote *)
| AwaitSleep                          (* await asyncio.sleep(...) *)
| AwaitClose (k : after)              (* finally: await protocol.close() *)
| Finished.

(** The coroutine [_listen]: its locals and its suspension point.
    [conn] is the connection [transport] and [protocol] are bound to
    ([None]: not bound yet), [channel] the one the channel was opened on. *)
Record task : Type := mkTask {
  retrying : bool;
  conn : option nat;
  channel : option nat;
  at_ : pc;
}.

Record t : Type := mkListener {
  app_loop : bool;                          (* self.app.loop is set *)
  _pending_pre_async : option (list Sub);
  _pending : option (Queue.t Sub);
  _subscriptions : list Sub;
  _task : option task;
}.

(** The listener, and the two allocators of its environment: object
    identities and connections. *)
Record system : Type := mkSystem {
  listener : t;
  next_sub : nat;
  next_conn : nat;
}.

Inductive event : Type :=
| EvSubscribed (s : Sub)                   (* subscribe returned s *)
| EvEnqueued (s : Sub)                     (* s put at the tail of self._pending *)
| EvDequeued (s : Sub)                     (* self._pending.get() returned s *)
| EvConnected (c : option nat)             (* channel open: 'Connected' logged *)
| EvDeclared (w : site) (c : option nat) (s : Sub)
| EvDeclareFailed (w : site) (c : option nat) (s : Sub) (e : exn)
| EvWarn (e : exn)
| EvCancelled.

(** [__init__] *)
Definition init : t := mkListener false (Some []) None [] None.

Definition init_system : system := mkSystem init 0 0.

Definition set_pending (self : t) (q : option (Queue.t Sub)) : t :=
  mkListener (app_loop self) (_pending_pre_async self) q
             (_subscriptions self) (_task self).

Definition set_task (self : t) (tk : option task) : t :=
  mkListener (app_loop self) (_pending_pre_async self) (_pending self)
             (_subscriptions self) tk.

Definition set_at (tk : task) (p : pc) : task :=
  mkTask (retrying tk) (conn tk) (channel tk) p.

Definition done (tk : task) : bool :=
  match at_ tk with Finished => true | _ => false end.

(** A coroutine object fresh from [self._listen()]. *)
Definition new_task : task := mkTask false None None AwaitConnect.

(** [_lazy_listen] *)
Definition _lazy_listen (self : t) : t :=
  if app_loop self
     && match _task self with None => true | Some tk => done tk end
     && (match _subscriptions self with [] => false | _ => true end
         || match _pending self with
            | Some q => negb (Queue.empty q)
            | None => false
            end)
  then set_task self (Some new_task)
  else self.

(** [[self._pending.put_nowait(s) for s in l]] *)
Fixpoint put_all (q : Queue.t Sub) (l : list Sub) : result (Queue.t Sub) :=
  match l with
  | [] => Ret q
  | s :: rest =>
      match Queue.put_nowait q s with
      | Ret q' => put_all q' rest
      | Exc e => Exc e
      end
  end.

(** [startup] *)
Definition startup (self : t) : result unit * t * list event :=
  let self1 := set_pending self (Some Queue.create) in
  match _pending_pre_async self1 with
  | None => (Exc TypeError, self1, [])
  | Some l =>
      match put_all Queue.create l with
      | Exc e => (Exc e, self1, [])
      | Ret q =>
          let self2 :=
            mkListener (app_loop self) None (Some q)
                       (_subscriptions self) (_task self) in
          (Ret tt, _lazy_listen self2, List.map EvEnqueued l)
      end
  end.

(** [subscribe]; [ident] is the identity of the new object. *)
Definition subscribe (self : t) (ident : nat)
           (exchange_name routing exchange_type : string)
           (on_message : option callback)
  : result Sub * t * list event :=
  let sub := create ident exchange_name routing exchange_type on_message in
  match _pending self with
  | Some q =>
      match Queue.put_nowait q sub with
      | Ret q' =>
          (Ret sub, _lazy_listen (set_pending self (Some q')),
           [EvSubscribed sub; EvEnqueued sub])
      | Exc e => (Exc e, self, [])
      end
  | None =>
      match _pending_pre_async self with
      | Some l =>
          (Ret sub,
           _lazy_listen
             (mkListener (app_loop self) (Some (l ++ [sub])) None
                         (_subscriptions self) (_task self)),
           [EvSubscribed sub])
      | None => (Exc AttributeError, self, [])
      end
  end.

(** ** The connection loop *)

Definition after_finally (k : after) (tk : task) : task :=
  match k with
  | Reconnect => set_at tk AwaitConnect
  | Leave => set_at tk Finished
  end.

(** The [finally] clause.  With [protocol] not bound yet the name lookup
    raises at once and is swallowed; otherwise [protocol.close()] is
    awaited. *)
Definition finally_ (k : after) (tk : task) : task :=
  match conn tk with
  | None => after_finally k tk
  | Some _ => set_at tk (AwaitClose k)
  end.

(** The [except] clauses of the outer [try]: [CancelledError] first, then
    [Exception]. *)
Definition on_exception (e : exn) (tk : task) : task * list event :=
  if is_CancelledError e then (finally_ Leave tk, [EvCancelled])
  else (mkTask true (conn tk) (channel tk) AwaitSleep,
        if retrying tk then [] else [EvWarn e]).

(** The comprehension [[await sub.declare_on_remote(channel) for sub in
    self._subscriptions]] at index [i]; past the end of the list the inner
    loop starts. *)
Definition replay_from (self : t) (i : nat) (tk : task) : task :=
  match List.nth_error (_subscriptions self) i with
  | Some _ => set_at tk (AwaitReplay i ExchangeDeclare)
  | None => set_at tk AwaitEnsureOpen
  end.

(** [self._pending.put_nowait(subscription); raise] *)
Definition put_back (self : t) (s : Sub) (e : exn)
  : t * exn * list event :=
  match _pending self with
  | None => (self, AttributeError, [])
  | Some q =>
      match Queue.put_nowait q s with
      | Ret q' => (set_pending self (Some q'), e, [EvEnqueued s])
      | Exc e' => (self, e', [])
      end
  end.

(** Resume [_listen] with the outcome of the [await] it is suspended at.
    [nc] is the next connection the broker hands out. *)
Definition _listen_step (o : outcome) (self : t) (nc : nat) (tk : task)
  : t * nat * task * list event :=
  match at_ tk with
  | AwaitConnect =>
      match o with
      | Returns =>
          (self, S nc, mkTask (retrying tk) (Some nc) (channel tk) AwaitChannel,
           [])
      | Raises e => let '(tk', evs) := on_exception e tk in (self, nc, tk', evs)
      end
  | AwaitChannel =>
      match o with
      | Returns =>
          let tk1 := mkTask (retrying tk) (conn tk) (conn tk) AwaitChannel in
          (self, nc, replay_from self 0 tk1, [EvConnected (conn tk)])
      | Raises e => let '(tk', evs) := on_exception e tk in (self, nc, tk', evs)
      end
  | AwaitReplay i st =>
      match List.nth_error (_subscriptions self) i with
      | None => (self, nc, tk, [])            (* not reachable *)
      | Some sub =>
          match o with
          | Returns =>
              match next_stage st with
              | Some st' => (self, nc, set_at tk (AwaitReplay i st'), [])
              | None =>
                  (self, nc, replay_from self (S i) tk,
                   [EvDeclared Replay (channel tk) sub])
              end
          | Raises e =>
              let '(tk', evs) := on_exception e tk in
              (self, nc, tk',
               EvDeclareFailed Replay (channel tk) sub e :: evs)
          end
      end
  | AwaitEnsureOpen =>
      match o with
      | Returns =>
          let tk1 := mkTask false (conn tk) (channel tk) AwaitPending in
          match _pending self with
          | Some _ => (self, nc, tk1, [])
          | None =>
              let '(tk', evs) := on_exception AttributeError tk1 in
              (self, nc, tk', evs)
          end
      | Raises e =>
          if is_TimeoutError e then (self, nc, tk, [])      (* continue *)
          else let '(tk', evs) := on_exception e tk in (self, nc, tk', evs)
      end
  | AwaitPending =>
      match o with
      | Returns =>
          match _pending self with
          | Some q =>
              match Queue.pop q with
              | Some (s, q') =>
                  (set_pending self (Some q'), nc,
                   set_at tk (AwaitEnsureOpen2 s), [EvDequeued s])
              | None => (self, nc, tk, [])    (* still waiting for an item *)
              end
          | None => (self, nc, tk, [])
          end
      | Raises e =>
          if is_TimeoutError e
          then (self, nc, set_at tk AwaitEnsureOpen, [])    (* continue *)
          else let '(tk', evs) := on_exception e tk in (self, nc, tk', evs)
      end
  | AwaitEnsureOpen2 s =>
      match o with
      | Returns => (self, nc, set_at tk (AwaitDeclare s ExchangeDeclare), [])
      | Raises e =>
          let '(self', e', evs) := put_back self s e in
          let '(tk', evs') := on_exception e' tk in
          (self', nc, tk', evs ++ evs')
      end
  | AwaitDeclare s st =>
      match o with
      | Returns =>
          match next_stage st with
          | Some st' => (self, nc, set_at tk (AwaitDeclare s st'), [])
          | None =>
              (mkListener (app_loop self) (_pending_pre_async self)
                          (_pending self) (_subscriptions self ++ [s])
                          (_task self),
               nc, set_at tk AwaitEnsureOpen,
               [EvDeclared Drain (channel tk) s])
          end
      | Raises e =>
          let '(self', e', evs) := put_back self s e in
          let '(tk', evs') := on_exception e' tk in
          (self', nc, tk',
           EvDeclareFailed Drain (channel tk) s e :: evs ++ evs')
      end
  | AwaitSleep =>
      match o with
      | Returns => (self, nc, finally_ Reconnect tk, [])
      | Raises _ => (self, nc, finally_ Leave tk, [])
      end
  | AwaitClose k => (self, nc, after_finally k tk, [])
  | Finished => (self, nc, tk, [])
  end.

(** ** The listener as the application drives it *)

Inductive action : Type :=
| SetLoop                                   (* the application gets its loop *)
| Startup                                   (* the lifecycle hook *)
| Subscribe (exchange_name routing exchange_type : string)
            (on_message : option callback)
| Resume (o : outcome).                     (* the loop task is resumed *)

Definition step (a : action) (sys : system) : system * list event :=
  let self := listener sys in
  match a with
  | SetLoop =>
      (mkSystem (mkListener true (_pending_pre_async self) (_pending self)
                            (_subscriptions self) (_task self))
                (next_sub sys) (next_conn sys), [])
  | Startup =>
      let '(_, self', evs) := startup self in
      (mkSystem self' (next_sub sys) (next_conn sys), evs)
  | Subscribe x r ty cb =>
      let '(_, self', evs) := subscribe self (next_sub sys) x r ty cb in
      (mkSystem self' (S (next_sub sys)) (next_conn sys), evs)
  | Resume o =>
      match _task self with
      | None => (sys, [])
      | Some tk =>
          let '(self', nc', tk', evs) :=
            _listen_step o self (next_conn sys) tk in
          (mkSystem (set_task self' (Some tk')) (next_sub sys) nc', evs)
      end
  end.

Fixpoint exec (acts : list action) (sys : system) : system * list event :=
  match acts with
  | [] => (sys, [])
  | a :: rest =>
      let '(sys1, e1) := step a sys in
      let '(sys2, e2) := exec rest sys1 in
      (sys2, e1 ++ e2)
  end.

(** ** Reading states and traces *)

(** The pre-start holding list. *)
Definition holding (self : t) : list Sub :=
  match _pending_pre_async self with Some l => l | None => [] end.

(** The pending queue, head first. *)
Definition queued (self : t) : list Sub :=
  match _pending self with Some q => Queue.items q | None => [] end.

(** The subscription the loop has taken from the queue and is declaring:
    its local [subscription]. *)
Definition in_flight (self : t) : list Sub :=
  match _task self with
  | Some tk =>
      match at_ tk with
      | AwaitEnsureOpen2 s => [s]
      | AwaitDeclare s _ => [s]
      | _ => []
      end
  | None => []
  end.

Fixpoint subscribed (tr : list event) : list Sub :=
  match tr with
  | [] => []
  | EvSubscribed s :: tr' => s :: subscribed tr'
  | _ :: tr' => subscribed tr'
  end.

Fixpoint enqueued (tr : list event) : list Sub :=
  match tr with
  | [] => []
  | EvEnqueued s :: tr' => s :: enqueued tr'
  | _ :: tr' => enqueued tr'
  end.

Fixpoint dequeued (tr : list event) : list Sub :=
  match tr with
  | [] => []
  | EvDequeued s :: tr' => s :: dequeued tr'
  | _ :: tr' => dequeued tr'
  end.

Definition site_eqb (a b : site) : bool :=
  match a, b with
  | Replay, Replay | Drain, Drain => true
  | _, _ => false
  end.

Definition chan_eqb (a b : option nat) : bool :=
  match a, b with
  | Some x, Some y => Nat.eqb x y
  | None, None => true
  | _, _ => false
  end.

(** Subscriptions declared at [w] on channel [c], in the order of the
    declarations. *)
Fixpoint declared (w : site) (c : option nat) (tr : list event) : list Sub :=
  match tr with
  | [] => []
  | EvDeclared w' c' s :: tr' =>
      if site_eqb w w' && chan_eqb c c'
      then s :: declared w c tr'
      else declared w c tr'
  | _ :: tr' => declared w c tr'
  end.

Definition is_connected (e : event) : bool :=
  match e with EvConnected _ => true | _ => false end.

Definition is_startup (a : action) : bool :=
  match a with Startup => true | _ => false end.

(** The lifecycle hook runs once. *)
Definition startup_once (acts : list action) : Prop :=
  List.length (List.filter is_startup acts) <= 1.

End EventListener.

(* ====================================================================== *)
(** * The listener on concrete schedules *)
(* ====================================================================== *)

Module Scenario.

Import EventSubscription EventListener.

Definition sub0 : Sub := create 0 "brewblox" "controller.#" "topic" None.

Definition sub1 : Sub := create 1 "brewblox" "controller.#" "topic" None.

(** [subscribe('brewblox', 'controller.#')] *)
Definition call : action := Subscribe "brewblox" "controller.#" "topic" None.

Definition ok : action := Resume Returns.

Definition lost : action := Resume (Raises (AioamqpException "lost")).

(** One subscription before [startup]; the loop connects, opens the channel,
    finds the session open and takes the subscription from the queue. *)
Definition until_dequeue : list action :=
  [SetLoop; call; Startup; ok; ok; ok; ok].

(** ... finds the session still open and declares it (four awaits). *)
Definition until_active : list action :=
  until_dequeue ++ [ok; ok; ok; ok; ok].

(** ... then a second subscription comes in, the connection is lost while
    the loop waits on the queue, and the loop sleeps, closes the session and
    connects again. *)
Definition until_reconnect : list action :=
  until_active ++ [ok; call; lost; ok; ok; ok].

(** After the channel of the second session opens: the replay of the active
    subscription (four awaits), the session check, the queue. *)
Definition replay_and_dequeue : list action := [ok; ok; ok; ok; ok; ok].

End Scenario.

(* ====================================================================== *)
(** * EventPublisher *)
(* ====================================================================== *)

Module EventPublisher.

Record t : Type := mkPublisher {
  _transport : option nat;
  _protocol : option nat;
  _channel : option nat;
}.

Inductive event : Type :=
| EvEnsureChannel                            (* _ensure_channel entered *)
| EvConnect (c : nat)                        (* aioamqp.connect returned c *)
| EvChannel (c : nat)                        (* protocol.channel() returned *)
| EvProtocolClose (c : nat)                  (* protocol.close() returned *)
| EvTransportClose (c : nat)                 (* transport.close() *)
| EvExchangeDeclare (c : nat) (exchange exchange_type : string)
| EvBasicPublish (c : nat) (exchange routing : string)
                 (payload : list Byte.byte).

(** The broker side: the outcomes of the awaits to come (all of them return
    once the list is used up), the next connection to hand out, the
    connections handed out whose transport has not been closed, and what
    happened so far. *)
Record world : Type := mkWorld {
  oracle : list outcome;
  next_conn : nat;
  open_ : list nat;
  trace : list event;
}.

Definition state : Type := (t * world)%type.

(** Computations over the publisher and its world that return or raise. *)
Definition M (A : Type) : Type := state -> result A * state.

Definition ret {A} (a : A) : M A := fun s => (Ret a, s).

Definition raise {A} (e : exn) : M A := fun s => (Exc e, s).

Definition bind {A B} (m : M A) (k : A -> M B) : M B :=
  fun s =>
    match m s with
    | (Ret a, s') => k a s'
    | (Exc e, s') => (Exc e, s')
    end.

(** [try: m  except Exception as e: h e] *)
Definition try_except {A} (m : M A) (h : exn -> M A) : M A :=
  fun s =>
    match m s with
    | (Ret a, s') => (Ret a, s')
    | (Exc e, s') => h e s'
    end.

Declare Scope pub_scope.
Delimit Scope pub_scope with pub.
Notation "x <- m ;; k" := (bind m (fun x => k))
  (at level 61, m at next level, right associativity) : pub_scope.
Notation "m ;; k" := (bind m (fun _ => k))
  (at level 61, right associativity) : pub_scope.
Local Open Scope pub_scope.

Definition get_self : M t := fun s => (Ret (fst s), s).

Definition put_self (self : t) : M unit := fun s => (Ret tt, (self, snd s)).

Definition emit (e : event) : M unit :=
  fun s =>
    let w := snd s in
    (Ret tt,
     (fst s, mkWorld (oracle w) (next_conn w) (open_ w) (trace w ++ [e]))).

(** An [await] on the broker. *)
Definition await : M unit :=
  fun s =>
    let w := snd s in
    match oracle w with
    | [] => (Ret tt, s)
    | o :: rest =>
        let s' := (fst s, mkWorld rest (next_conn w) (open_ w) (trace w)) in
        match o with
        | Returns => (Ret tt, s')
        | Raises e => (Exc e, s')
        end
    end.

(** [await aioamqp.connect(...)] *)
Definition connect : M nat :=
  await ;;
  fun s =>
    let w := snd s in
    let c := next_conn w in
    (Ret c,
     (fst s,
      mkWorld (oracle w) (S c) (open_ w ++ [c]) (trace w ++ [EvConnect c]))).

(** [transport.close()] *)
Definition transport_close (c : nat) : M unit :=
  fun s =>
    let w := snd s in
    (Ret tt,
     (fst s,
      mkWorld (oracle w) (next_conn w)
              (List.filter (fun x => negb (Nat.eqb x c)) (open_ w))
              (trace w ++ [EvTransportClose c]))).

(** [__init__] *)
Definition init : t := mkPublisher None None None.

(** [connected] *)
Definition connected (self : t) : bool :=
  match _transport self, _protocol self, _channel self with
  | Some _, Some _, Some _ => true
  | _, _, _ => false
  end.

(** [_reset] *)
Definition _reset : M unit := put_self (mkPublisher None None None).

(** [_close]: the [try] block, its [except Exception: pass], and the
    [finally]. *)
Definition _close : M unit :=
  try_except
    (self <- get_self ;;
     match _protocol self with
     | None => raise AttributeError
     | Some p =>
         await ;;
         emit (EvProtocolClose p) ;;
         match _transport self with
         | None => raise AttributeError
         | Some c => transport_close c
         end
     end)
    (fun _ => ret tt) ;;
  _reset.

(** [_ensure_channel] *)
Definition _ensure_channel : M unit :=
  emit EvEnsureChannel ;;
  self <- get_self ;;
  (if connected self then ret tt
   else
     c <- connect ;;
     put_self (mkPublisher (Some c) (Some c) (_channel self)) ;;
     await ;;
     emit (EvChannel c) ;;
     put_self (mkPublisher (Some c) (Some c) (Some c))) ;;
  try_except
    (self <- get_self ;;
     match _protocol self with
     | None => raise AttributeError
     | Some _ => await
     end)
    (fun e =>
       if is_AioamqpException e then _close ;; raise e else raise e).

(** [shutdown] *)
Definition shutdown : M unit := _close.

Definition lift {A} (r : result A) : M A := fun s => (r, s).

(** [publish] after its connection step: serialize, declare the exchange,
    publish. *)
Definition send (exchange routing : string) (message : Json.value)
           (exchange_type : string) : M unit :=
  data <- lift (Json.encode (Json.dumps message)) ;;
  self <- get_self ;;
  match _channel self with
  | None => raise AttributeError
  | Some c =>
      emit (EvExchangeDeclare c exchange exchange_type) ;;
      await ;;
      emit (EvBasicPublish c exchange routing data) ;;
      await
  end.

(** [publish] *)
Definition publish (exchange routing : string) (message : Json.value)
           (exchange_type : string) : M unit :=
  try_except _ensure_channel (fun _ => _ensure_channel) ;;
  send exchange routing message exchange_type.

(** ** Reading traces *)

Definition ensure_calls (tr : list event) : nat :=
  List.length
    (List.filter
       (fun e => match e with EvEnsureChannel => true | _ => false end) tr).

Fixpoint published (tr : list event) : list (list Byte.byte) :=
  match tr with
  | [] => []
  | EvBasicPublish _ _ _ data :: tr' => data :: published tr'
  | _ :: tr' => published tr'
  end.

(** The connections whose transport was closed. *)
Fixpoint closed (tr : list event) : list nat :=
  match tr with
  | [] => []
  | EvTransportClose c :: tr' => c :: closed tr'
  | _ :: tr' => closed tr'
  end.

Definition fresh_world (os : list outcome) : world := mkWorld os 0 [] [].

End EventPublisher.

(* ====================================================================== *)
(** * EventLogHandler *)
(* ====================================================================== *)

Module EventLogHandler.
Section Handler.

(** [logging.LogRecord]; the handler never looks inside on the paths
    modelled here. *)
Variable LogRecord : Type.

(** Where [_run] is suspended. *)
Inductive pc : Type :=
| AwaitGet          (* record = record or await self._queue.get() *)
| AwaitPublish      (* await publisher.publish(...) *)
| AwaitSleep        (* await asyncio.sleep(RECONNECT_INTERVAL.seconds) *)
| Finished.         (* the coroutine has left the loop *)

(** The coroutine [_run]: its local [record] and its suspension point. *)
Record task : Type := mkTask { record : option LogRecord; at_ : pc }.

(** What the drain loop did, for stating properties over executions. *)
Inductive event : Type :=
| EvDequeued (r : LogRecord)
| EvPublishFailed (r : LogRecord) (e : exn)
| EvPublished (r : LogRecord)
| EvSlept.

Record t : Type := mkHandler {
  _queue : option (Queue.t LogRecord);
  _task : option task;
}.

(** [__init__] *)
Definition init : t := mkHandler None None.

(** [emit]: try [self._queue.put_nowait(record)], swallowing
    [AttributeError] ([self._queue] is [None]) and [QueueFull]. *)
Definition emit_body (self : t) (r : LogRecord) : result t :=
  match _queue self with
  | None => Exc AttributeError
  | Some q =>
      match Queue.put_nowait q r with
      | Ret q' => Ret (mkHandler (Some q') (_task self))
      | Exc e => Exc e
      end
  end.

Definition emit (self : t) (r : LogRecord) : result t :=
  match emit_body self r with
  | Ret self' => Ret self'
  | Exc AttributeError => Ret self
  | Exc QueueFull => Ret self
  | Exc e => Exc e
  end.

(** Top of [while True] in [_run]: [record or await self._queue.get()]
    awaits only when [record] is [None]; a held record goes straight to
    [publish]. *)
Definition loop_top (rec : option LogRecord) : task :=
  match rec with
  | Some r => mkTask (Some r) AwaitPublish
  | None => mkTask None AwaitGet
  end.

(** Resume [_run] with the outcome of the [await] it is suspended at.
    Returns the queue, the coroutine and the events of this step. *)
Definition _run_step (o : outcome) (q : Queue.t LogRecord) (tk : task)
  : Queue.t LogRecord * task * list event :=
  match at_ tk with
  | AwaitGet =>
      match o with
      | Returns =>
          match Queue.pop q with
          | Some (r, q') => (q', mkTask (Some r) AwaitPublish, [EvDequeued r])
          | None => (q, tk, [])             (* still waiting for an item *)
          end
      | Raises CancelledError => (q, mkTask (record tk) Finished, [])
      | Raises _ => (q, mkTask (record tk) AwaitSleep, [])
      end
  | AwaitPublish =>
      match record tk with
      | None => (q, tk, [])                 (* not reachable *)
      | Some r =>
          match o with
          | Returns => (q, loop_top None, [EvPublished r])
          | Raises CancelledError => (q, mkTask (Some r) Finished, [])
          | Raises e => (q, mkTask (Some r) AwaitSleep, [EvPublishFailed r e])
          end
      end
  | AwaitSleep =>
      match o with
      | Returns => (q, loop_top (record tk), [EvSlept])
      | Raises _ => (q, mkTask (record tk) Finished, [])
      end
  | Finished => (q, tk, [])
  end.

(** The handler as the application drives it. *)
Inductive action : Type :=
| Startup
| Shutdown
| Emit (r : LogRecord)
| Resume (o : outcome).

Definition step (a : action) (self : t) : t * list event :=
  match a with
  | Startup =>
      (mkHandler (Some Queue.create) (Some (loop_top None)), [])
  | Shutdown =>
      (mkHandler None None, [])
  | Emit r =>
      match emit self r with
      | Ret self' => (self', [])
      | Exc _ => (self, [])
      end
  | Resume o =>
      match _queue self, _task self with
      | Some q, Some tk =>
          let '(q', tk', evs) := _run_step o q tk in
          (mkHandler (Some q') (Some tk'), evs)
      | _, _ => (self, [])
      end
  end.

Fixpoint exec (acts : list action) (self : t) : t * list event :=
  match acts with
  | [] => (self, [])
  | a :: rest =>
      let '(self1, e1) := step a self in
      let '(self2, e2) := exec rest self1 in
      (self2, e1 ++ e2)
  end.

(** Records published so far, oldest first. *)
Fixpoint published (tr : list event) : list LogRecord :=
  match tr with
  | [] => []
  | EvPublished r :: tr' => r :: published tr'
  | _ :: tr' => published tr'
  end.

(** Records accepted by [emit] along a run, oldest first. *)
Fixpoint accepted (acts : list action) (self : t) : list LogRecord :=
  match acts with
  | [] => []
  | a :: rest =>
      let self1 := fst (step a self) in
      match a, _queue self with
      | Emit r, Some q =>
          if Queue.full q then accepted rest self1
          else r :: accepted rest self1
      | _, _ => accepted rest self1
      end
  end.

Definition held (self : t) : list LogRecord :=
  match _task self with
  | Some tk => match record tk with Some r => [r] | None => [] end
  | None => []
  end.

Definition queued (self : t) : list LogRecord :=
  match _queue self with Some q => Queue.items q | None => [] end.

Definition running (a : action) : bool :=
  match a with Emit _ | Resume _ => true | _ => false end.

End Handler.

Arguments mkTask {LogRecord} _ _.
Arguments record {LogRecord} _.
Arguments at_ {LogRecord} _.
Arguments mkHandler {LogRecord} _ _.
Arguments _queue {LogRecord} _.
Arguments _task {LogRecord} _.
Arguments init {LogRecord}.
Arguments emit {LogRecord} _ _.
Arguments emit_body {LogRecord} _ _.
Arguments loop_top {LogRecord} _.
Arguments _run_step {LogRecord} _ _ _.
Arguments Startup {LogRecord}.
Arguments Shutdown {LogRecord}.
Arguments Emit {LogRecord} _.
Arguments Resume {LogRecord} _.
Arguments EvDequeued {LogRecord} _.
Arguments EvPublishFailed {LogRecord} _ _.
Arguments EvPublished {LogRecord} _.
Arguments EvSlept {LogRecord}.
Arguments step {LogRecord} _ _.
Arguments exec {LogRecord} _ _.
Arguments published {LogRecord} _.
Arguments accepted {LogRecord} _ _.
Arguments held {LogRecord} _.
Arguments queued {LogRecord} _.
Arguments running {LogRecord} _.

End EventLogHandler.

(* ====================================================================== *)
(** * features: the registry of an application *)
(* ====================================================================== *)

Module Features.

(** A class object, by identity. *)
Definition cls : Type := nat.

(** Keys of the registry: [Hashable] values. *)
Inductive hashable : Type :=
| HType (c : cls)
| HStr (s : string)
| HInt (z : Z).

Definition hashable_eq_dec (a b : hashable) : {a = b} + {a <> b}.
Proof.
  decide equality; [apply Nat.eq_dec|apply string_dec|apply Z.eq_dec].
Defined.

Definition hashable_eqb (a b : hashable) : bool :=
  if hashable_eq_dec a b then true else false.

(** Truth value of a key: a class is true, text is true unless empty, an
    integer is true unless zero. *)
Definition key_truth (k : hashable) : bool :=
  match k with
  | HType _ => true
  | HStr EmptyString => false
  | HStr _ => true
  | HInt z => negb (Z.eqb z 0)
  end.

Inductive error : Type :=
| KeyError (key : hashable)
| AssertionError
| RuntimeError.

Inductive outcome (A : Type) : Type :=
| Ok (a : A)
| Raise (e : error).

Arguments Ok {A} _.
Arguments Raise {A} _.

(** [class Startup(Enum)] *)
Inductive Startup : Type :=
| MANAGED
| MANUAL
| AUTODETECT.

Section Registry.

(** What a feature is beyond being an object. *)
Variable A : Type.

(** An object registered as a feature: its identity, its class and the
    other classes of its [__mro__], its truth value, and its state. *)
Record feature : Type := mkFeature {
  ident : nat;
  type_ : cls;
  bases : list cls;
  truth : bool;
  state : A;
}.

(** [isinstance(f, c)] *)
Definition isinstance (f : feature) (c : cls) : bool :=
  Nat.eqb c (type_ f) || List.existsb (Nat.eqb c) (bases f).

Definition registry : Type := list (hashable * feature).

(** The application as this module sees it: its loop, the value under
    ['#features'] if there is one, whether its signals are frozen, and the
    callbacks in [on_startup] and [on_cleanup] (each the bound method of the
    feature with that identity). *)
Record app : Type := mkApp {
  loop : bool;
  features_ : option registry;
  frozen : bool;
  on_startup : list nat;
  on_cleanup : list nat;
}.

Definition new_app : app := mkApp false None false [] [].

Definition set_features (a : app) (r : registry) : app :=
  mkApp (loop a) (Some r) (frozen a) (on_startup a) (on_cleanup a).

(** [d.get(k)] *)
Fixpoint lookup (k : hashable) (r : registry) : option feature :=
  match r with
  | [] => None
  | (k', f) :: rest => if hashable_eqb k' k then Some f else lookup k rest
  end.

(** [app.get(FEATURES_KEY, {})] *)
Definition registered (a : app) : registry :=
  match features_ a with Some r => r | None => [] end.

(** [key or type(feature)] *)
Definition key_or_type (key : option hashable) (c : cls) : hashable :=
  match key with
  | Some k => if key_truth k then k else HType c
  | None => HType c
  end.

(** [add] *)
Definition add (a : app) (f : feature) (key : option hashable)
           (exist_ok : bool) : outcome unit * app :=
  let a1 := set_features a (registered a) in
  let k := key_or_type key (type_ f) in
  match lookup k (registered a1) with
  | Some _ =>
      if exist_ok then (Ok tt, a1) else (Raise (KeyError k), a1)
  | None => (Ok tt, set_features a1 (registered a1 ++ [(k, f)]))
  end.

(** [key or feature_type] *)
Definition key_or (key : option hashable) (feature_type : option cls)
  : option hashable :=
  match key with
  | Some k => if key_truth k then Some k else option_map HType feature_type
  | None => option_map HType feature_type
  end.

(** [get] *)
Definition get (a : app) (feature_type : option cls)
           (key : option hashable) : outcome feature :=
  match key_or key feature_type with
  | None => Raise AssertionError
  | Some k =>
      match lookup k (registered a) with
      | None => Raise (KeyError k)
      | Some found =>
          if negb (truth found) then Raise (KeyError k)
          else
            match feature_type with
            | Some c =>
                if isinstance found c then Ok found else Raise AssertionError
            | None => Ok found
            end
      end
  end.

(** [signal.append(callback)]: a frozen signal refuses. *)
Definition append_hook (is_frozen : bool) (l : list nat) (h : nat)
  : outcome (list nat) :=
  if is_frozen then Raise RuntimeError else Ok (l ++ [h]).

(** [ServiceFeature.__init__] for the object with identity [self]. *)
Definition ServiceFeature_init (a : app) (self : nat) (startup : Startup)
  : outcome unit * app :=
  if match startup with
     | MANAGED => true
     | AUTODETECT => negb (loop a)
     | MANUAL => false
     end
  then
    match append_hook (frozen a) (on_startup a) self with
    | Raise e => (Raise e, a)
    | Ok l1 =>
        let a1 := mkApp (loop a) (features_ a) (frozen a) l1 (on_cleanup a) in
        match append_hook (frozen a1) (on_cleanup a1) self with
        | Raise e => (Raise e, a1)
        | Ok l2 =>
            (Ok tt, mkApp (loop a1) (features_ a1) (frozen a1)
                          (on_startup a1) l2)
        end
    end
  else (Ok tt, a).

(** A run of [ServiceFeature] constructors, each for a new object and with
    its [startup] argument, whatever each of them returns or raises. *)
Fixpoint inits (cs : list (nat * Startup)) (a : app) : app :=
  match cs with
  | [] => a
  | (self, startup) :: rest =>
      inits rest (snd (ServiceFeature_init a self startup))
  end.

(** A call of [add], for runs of calls. *)
Record call : Type := mkCall {
  c_feature : feature;
  c_key : option hashable;
  c_exist_ok : bool;
}.

(** A run of [add] calls, whatever each of them returns or raises. *)
Fixpoint adds (cs : list call) (a : app) : app :=
  match cs with
  | [] => a
  | c :: rest =>
      adds rest (snd (add a (c_feature c) (c_key c) (c_exist_ok c)))
  end.

End Registry.

Arguments mkFeature {A} _ _ _ _ _.
Arguments ident {A} _.
Arguments type_ {A} _.
Arguments bases {A} _.
Arguments truth {A} _.
Arguments state {A} _.
Arguments isinstance {A} _ _.
Arguments mkApp {A} _ _ _ _ _.
Arguments loop {A} _.
Arguments features_ {A} _.
Arguments frozen {A} _.
Arguments on_startup {A} _.
Arguments on_cleanup {A} _.
Arguments new_app {A}.
Arguments set_features {A} _ _.
Arguments lookup {A} _ _.
Arguments registered {A} _.
Arguments add {A} _ _ _ _.
Arguments get {A} _ _ _.
Arguments ServiceFeature_init {A} _ _ _.
Arguments inits {A} _ _.
Arguments mkCall {A} _ _ _.
Arguments c_feature {A} _.
Arguments c_key {A} _.
Arguments c_exist_ok {A} _.
Arguments adds {A} _ _.

End Features.

(* ====================================================================== *)
(** * events: [setup] and the getters *)
(* ====================================================================== *)

Module Events.

Import Features.

(** The classes involved, by identity. *)
Definition object_ : cls := 0.
Definition ABC : cls := 1.
Definition ServiceFeature : cls := 2.
Definition Filterer : cls := 3.
Definition Handler : cls := 4.
Definition EventListener_ : cls := 5.
Definition EventPublisher_ : cls := 6.
Definition EventLogHandler_ : cls := 7.

Section Setup.

Variable LogRecord : Type.

(** The three features of this module. *)
Inductive service : Type :=
| Listener (self : EventListener.t)
| Publisher (self : EventPublisher.t)
| LogHandler (self : EventLogHandler.t LogRecord).

(** What [setup] works on: the application, the value of [app['config']]
    if there is one, the next object identity, whether the routes of the
    module are in [app.router], and the handlers of the root logger. *)
Record env : Type := mkEnv {
  app_ : app service;
  config : option (list (string * string));
  next_id : nat;
  routes : bool;
  root_handlers : list nat;
}.

Definition with_app (e : env) (a : app service) : env :=
  mkEnv a (config e) (next_id e) (routes e) (root_handlers e).

(** Computations on [env] that return or raise. *)
Definition E (A : Type) : Type := env -> outcome A * env.

Definition bindE {A B} (m : E A) (k : A -> E B) : E B :=
  fun e =>
    match m e with
    | (Ok a, e') => k a e'
    | (Raise err, e') => (Raise err, e')
    end.

(** A call into [features] or [ServiceFeature] on the application. *)
Definition on_app {A} (f : app service -> outcome A * app service) : E A :=
  fun e => let '(r, a) := f (app_ e) in (r, with_app e a).

(** A new object. *)
Definition allocate : E nat :=
  fun e =>
    (Ok (next_id e),
     mkEnv (app_ e) (config e) (S (next_id e)) (routes e) (root_handlers e)).

(** [app['config']['eventbus']] *)
Definition config_eventbus : E string :=
  fun e =>
    match config e with
    | None => (Raise (KeyError (HStr "config")), e)
    | Some c =>
        match List.find (fun p => String.eqb (fst p) "eventbus") c with
        | Some (_, v) => (Ok v, e)
        | None => (Raise (KeyError (HStr "eventbus")), e)
        end
    end.

(** [EventListener(app)] *)
Definition EventListener_new : E (feature service) :=
  bindE allocate (fun self =>
  bindE (on_app (fun a => ServiceFeature_init a self AUTODETECT)) (fun _ =>
  bindE config_eventbus (fun _ =>
  fun e =>
    (Ok (mkFeature self EventListener_ [ServiceFeature; ABC; object_] true
           (Listener (EventListener.mkListener (loop (app_ e)) (Some [])
                        None [] None))),
     e)))).

(** [EventPublisher(app)] *)
Definition EventPublisher_new : E (feature service) :=
  bindE allocate (fun self =>
  bindE (on_app (fun a => ServiceFeature_init a self AUTODETECT)) (fun _ =>
  bindE config_eventbus (fun _ =>
  fun e =>
    (Ok (mkFeature self EventPublisher_ [ServiceFeature; ABC; object_] true
           (Publisher EventPublisher.init)),
     e)))).

(** [EventLogHandler(app)] *)
Definition EventLogHandler_new : E (feature service) :=
  bindE allocate (fun self =>
  bindE (on_app (fun a => ServiceFeature_init a self AUTODETECT)) (fun _ =>
  fun e =>
    (Ok (mkFeature self EventLogHandler_
           [ServiceFeature; ABC; Handler; Filterer; object_] true
           (LogHandler EventLogHandler.init)),
     e))).

(** [app.router.add_routes(routes)]: a frozen router refuses. *)
Definition add_routes : E unit :=
  fun e =>
    if frozen (app_ e) then (Raise RuntimeError, e)
    else (Ok tt,
          mkEnv (app_ e) (config e) (next_id e) true (root_handlers e)).

(** [logging.getLogger().addHandler(handler)] *)
Definition addHandler (h : nat) : E unit :=
  fun e =>
    (Ok tt,
     mkEnv (app_ e) (config e) (next_id e) (routes e)
           (if List.existsb (Nat.eqb h) (root_handlers e)
            then root_handlers e
            else root_handlers e ++ [h])).

(** [setup] *)
Definition setup : E unit :=
  bindE EventListener_new (fun listener =>
  bindE (on_app (fun a => add a listener None false)) (fun _ =>
  bindE EventPublisher_new (fun publisher =>
  bindE (on_app (fun a => add a publisher None false)) (fun _ =>
  bindE add_routes (fun _ =>
  bindE EventLogHandler_new (fun handler =>
  bindE (on_app (fun a => add a handler None false)) (fun _ =>
  addHandler (ident handler)))))))).

(** [get_listener], [get_publisher], [get_handler] *)
Definition get_listener (a : app service) : outcome (feature service) :=
  get a (Some EventListener_) None.

Definition get_publisher (a : app service) : outcome (feature service) :=
  get a (Some EventPublisher_) None.

Definition get_handler (a : app service) : outcome (feature service) :=
  get a (Some EventLogHandler_) None.

End Setup.

Arguments Listener {LogRecord} _.
Arguments Publisher {LogRecord} _.
Arguments LogHandler {LogRecord} _.
Arguments mkEnv {LogRecord} _ _ _ _ _.
Arguments app_ {LogRecord} _.
Arguments config {LogRecord} _.
Arguments next_id {LogRecord} _.
Arguments routes {LogRecord} _.
Arguments root_handlers {LogRecord} _.
Arguments with_app {LogRecord} _ _.
Arguments setup {LogRecord} _.
Arguments EventListener_new {LogRecord} _.
Arguments EventPublisher_new {LogRecord} _.
Arguments EventLogHandler_new {LogRecord} _.
Arguments get_listener {LogRecord} _.
Arguments get_publisher {LogRecord} _.
Arguments get_handler {LogRecord} _.

End Events.

(* ====================================================================== *)
(** * Vocabulary of the properties *)
(* ====================================================================== *)

Section LogHandlerVocabulary.

Import EventLogHandler.

Context {LogRecord : Type}.

Implicit Types (self : EventLogHandler.t LogRecord) (r : LogRecord).

(** The loop awaits the queue only while it holds no record. *)
Definition wf self : Prop :=
  match _task self with
  | Some tk => at_ tk = AwaitGet -> record tk = None
  | None => True
  end.

End LogHandlerVocabulary.

Section PublisherVocabulary.

Import EventPublisher.
Local Open Scope pub_scope.

Implicit Types (s : state) (self : EventPublisher.t) (w : world).

(** A computation only extends the trace, by events of which [n] are
    entries of [_ensure_channel]. *)
Definition extends {A} (m : M A) (n : nat) : Prop :=
  forall s, exists evs,
    trace (snd (snd (m s))) = trace (snd s) ++ evs /\ ensure_calls evs = n.

(** A computation that hands no payload to the broker. *)
Definition keeps_payloads {A} (c : M A) : Prop :=
  forall s, published (trace (snd (snd (c s)))) = published (trace (snd s)).

End PublisherVocabulary.

Section ListenerVocabulary.

Import EventSubscription EventListener.

Implicit Types (self : EventListener.t) (tk : task) (sys : system)
         (tr evs : list event) (s : Sub) (c : option nat).

(** Events that move no subscription and declare nothing. *)
Definition quiet evs : Prop :=
  subscribed evs = [] /\ enqueued evs = [] /\ dequeued evs = [] /\
  forall w c, declared w c evs = [].

(** Suspension points outside a session. *)
Definition idle (p : pc) : Prop :=
  match p with
  | AwaitSleep | AwaitClose _ | Finished | AwaitConnect => True
  | _ => False
  end.

(** Where a subscription can be: the pre-start list, the pending queue, the
    loop's local [subscription], the active list. *)
Definition pool self : list Sub :=
  holding self ++ queued self ++ in_flight self ++ _subscriptions self.

(** What the suspension point of the loop promises. *)
Definition task_ok self (nc : nat) tr tk : Prop :=
  (forall n, conn tk = Some n -> n < nc) /\
  (forall n, channel tk = Some n -> n < nc) /\
  match at_ tk with
  | AwaitChannel => conn tk <> None /\ declared Replay (conn tk) tr = []
  | AwaitReplay i _ =>
      channel tk <> None /\
      declared Replay (channel tk) tr = firstn i (_subscriptions self) /\
      i < List.length (_subscriptions self)
  | AwaitPending | AwaitEnsureOpen2 _ | AwaitDeclare _ _ =>
      _pending self <> None
  | _ => True
  end.

(** On every channel, what was replayed is an initial part of the active
    list. *)
Definition replay_prefix (subs : list Sub) tr : Prop :=
  forall c, exists rest, subs = declared Replay c tr ++ rest.

(** Nothing was replayed on a channel that does not exist yet. *)
Definition unused (nc : nat) tr : Prop :=
  declared Replay None tr = [] /\
  forall n, nc <= n -> declared Replay (Some n) tr = [].

Record Inv sys tr : Prop := mkInv {
  inv_unbounded :
    forall q, _pending (listener sys) = Some q -> Queue.maxsize q = 0;
  inv_phase :
    match _pending (listener sys) with
    | None => _pending_pre_async (listener sys) <> None
    | Some _ => _pending_pre_async (listener sys) = None
    end;
  inv_line : dequeued tr ++ queued (listener sys) = enqueued tr;
  inv_pool : Permutation (subscribed tr) (pool (listener sys));
  inv_fresh : Forall (fun s => id s < next_sub sys) (subscribed tr);
  inv_nodup : NoDup (List.map id (subscribed tr));
  inv_replay : replay_prefix (_subscriptions (listener sys)) tr;
  inv_unused : unused (next_conn sys) tr;
  inv_task :
    forall tk, _task (listener sys) = Some tk ->
               task_ok (listener sys) (next_conn sys) tr tk;
}.

(** Events that declare nothing. *)
Definition silent evs : Prop := forall w c, declared w c evs = [].

(** The subscription a suspension point holds. *)
Definition flying (p : pc) : list Sub :=
  match p with
  | AwaitEnsureOpen2 s | AwaitDeclare s _ => [s]
  | _ => []
  end.

(** Schedules in which [startup] runs only while the queue does not exist
    yet. *)
Definition permitted sys (acts : list action) : Prop :=
  match _pending (listener sys) with
  | None => startup_once acts
  | Some _ => List.filter is_startup acts = []
  end.

Definition is_subscribe (a : action) : bool :=
  match a with Subscribe _ _ _ _ => true | _ => false end.

(** What the loop owes before it may take from the queue: in a session on
    channel [c], the subscriptions still to be replayed ([Some (c, l)]);
    outside a session ([None]), a connect. *)
Definition owes self : option (option nat * list Sub) :=
  match _task self with
  | Some tk =>
      match at_ tk with
      | AwaitReplay i _ => Some (channel tk, skipn i (_subscriptions self))
      | AwaitEnsureOpen | AwaitPending | AwaitEnsureOpen2 _
      | AwaitDeclare _ _ => Some (channel tk, [])
      | _ => None
      end
  | None => None
  end.

(** A trace that pays what is owed, up to its next connect: replays come in
    the order owed and on the channel of the session, and nothing is dequeued
    while a replay is owed or outside a session. *)
Fixpoint pays (x : option (option nat * list Sub)) tr : Prop :=
  match tr with
  | [] => True
  | EvConnected _ :: _ => True
  | EvDequeued _ :: tr' =>
      match x with
      | Some (_, []) => pays x tr'
      | _ => False
      end
  | EvDeclared Replay c' s :: tr' =>
      match x with
      | Some (c, y :: l) => c' = c /\ s = y /\ pays (Some (c, l)) tr'
      | _ => False
      end
  | _ :: tr' => pays x tr'
  end.

End ListenerVocabulary.

Section JsonVocabulary.

Import Json.
Local Open Scope N_scope.

Implicit Types (s t r rest : str) (v : value) (c : N).

Definition all_below (f : N -> bool) (k : N) : bool :=
  snd (N.iter k (fun p => (N.succ (fst p), snd p && f (fst p))) (0, true)).

(** What may follow a value inside a document: nothing, a comma, or the
    bracket or brace that closes the enclosing value. *)
Definition delim rest : Prop :=
  match rest with
  | [] => True
  | c :: _ => c = 44 \/ c = 93 \/ c = 125
  end.

(** The text of the items of a list, and of the items of a dict, between
    their brackets. *)
Fixpoint dumps_items (l : list value) : str :=
  match l with
  | [] => []
  | x :: rest =>
      dumps x ++ match rest with [] => [] | _ => [44; 32] ++ dumps_items rest end
  end.

Fixpoint dumps_pairs (d : list (key * value)) : str :=
  match d with
  | [] => []
  | (k, x) :: rest =>
      encode_basestring_ascii (key_str k) ++ [58; 32] ++ dumps x ++
      match rest with [] => [] | _ => [44; 32] ++ dumps_pairs rest end
  end.

Fixpoint payload_ok_items (l : list value) : bool :=
  match l with
  | [] => true
  | x :: rest => payload_ok x && payload_ok_items rest
  end.

(** Calls of the scanner that a value needs. *)
Fixpoint size (v : value) : nat :=
  match v with
  | VList l =>
      S ((fix sz (l : list value) : nat :=
            match l with
            | [] => O
            | x :: rest => (S (size x) + sz rest)%nat
            end) l)
  | VDict d =>
      S ((fix sz (d : list (key * value)) : nat :=
            match d with
            | [] => O
            | (_, x) :: rest => (S (size x) + sz rest)%nat
            end) d)
  | _ => 1%nat
  end.

Fixpoint size_items (l : list value) : nat :=
  match l with
  | [] => O
  | x :: rest => (S (size x) + size_items rest)%nat
  end.

(** The first character of a text: it is there, and it is neither
    whitespace nor a closing bracket, a closing brace or a comma. *)
Definition opens s : Prop :=
  match s with
  | c :: _ => is_ws c = false /\ c <> 93 /\ c <> 125 /\ c <> 44
  | [] => False
  end.

Definition ascii_text s : Prop := Forall (fun c => c < 128) s.

(** Scanning what [dumps] wrote for [v], with enough fuel and in front of
    any text that cannot continue a number, gives [v] back and stops there. *)
Definition scans v : Prop :=
  payload_ok v = true ->
  forall fuel rest, (size v <= fuel)%nat -> delim rest ->
    scan_once fuel (dumps v ++ rest) = Some (v, rest).

End JsonVocabulary.

Section ListenerRunsVocabulary.

Import EventSubscription EventListener.

(** [n] resumptions of the loop in which the awaited call returns. *)
Definition returns (n : nat) : list action := List.repeat (Resume Returns) n.

(** Resumptions of the loop with the given outcomes. *)
Definition resumes (os : list outcome) : list action := List.map Resume os.

Definition is_warn (e : event) : bool :=
  match e with EvWarn _ => true | _ => false end.

(** Connection warnings logged. *)
Definition warnings (tr : list event) : nat :=
  List.length (List.filter is_warn tr).

(** Sessions opened. *)
Definition connects (tr : list event) : nat :=
  List.length (List.filter is_connected tr).

(** Suspension points inside a session, after its channel is open. *)
Definition in_session (p : pc) : bool :=
  match p with
  | AwaitReplay _ _ | AwaitEnsureOpen | AwaitPending
  | AwaitEnsureOpen2 _ | AwaitDeclare _ _ => true
  | _ => false
  end.

(** Warnings the loop can still log before the next session opens. *)
Definition may_warn_task (tk : task) : nat :=
  if retrying tk then (if in_session (at_ tk) then 1 else 0) else 1.

Definition may_warn (self : EventListener.t) : nat :=
  match _task self with
  | None => 0
  | Some tk => may_warn_task tk
  end.

(** Suspension points at which a [CancelledError] reaches the [except]
    clauses of the loop: all but the [protocol.close()] of the [finally]
    clause. *)
Definition cancellable (p : pc) : bool :=
  match p with
  | AwaitClose _ | Finished => false
  | _ => true
  end.

(** The subscriptions a run of [subscribe] calls creates, the first of
    them with identity [ns]. *)
Fixpoint made (ns : nat) (calls : list action) : list Sub :=
  match calls with
  | [] => []
  | Subscribe x r ty cb :: rest => create ns x r ty cb :: made (S ns) rest
  | _ :: rest => made ns rest
  end.

(** The suspension point of the loop task, if there is a task. *)
Definition suspended_at (self : EventListener.t) : option pc :=
  option_map at_ (_task self).

End ListenerRunsVocabulary.

Section PublisherRunsVocabulary.

Import EventPublisher.

(** The arguments of a [publish] call. *)
Record request : Type := mkRequest {
  r_exchange : string;
  r_routing : string;
  r_message : Json.value;
  r_exchange_type : string;
}.

(** What the application asks of the publisher. *)
Inductive call : Type :=
| Publish (rq : request)
| Shutdown.

Definition perform (c : call) : M unit :=
  match c with
  | Publish rq =>
      publish (r_exchange rq) (r_routing rq) (r_message rq)
              (r_exchange_type rq)
  | Shutdown => shutdown
  end.

(** A run of calls; the caller goes on after a call that raised. *)
Fixpoint run (cs : list call) (s : state) : list (result unit) * state :=
  match cs with
  | [] => ([], s)
  | c :: rest =>
      let '(r, s1) := perform c s in
      let '(rs, s2) := run rest s1 in
      (r :: rs, s2)
  end.

(** The bytes of [json.dumps(message).encode()]. *)
Definition payload (message : Json.value) : list Byte.byte :=
  List.map Json.byte_of (Json.dumps message).

(** The connections handed out so far are the ones below [next_conn], and
    none is listed as open twice. *)
Definition world_ok (w : world) : Prop :=
  Forall (fun c => c < next_conn w) (open_ w) /\ NoDup (open_ w).

(** The fields of the publisher fit together: no session at all, or a
    transport and a protocol of one connection that is open, with no channel
    yet or the channel of that connection. *)
Definition session_ok (s : state) : Prop :=
  match _transport (fst s), _protocol (fst s), _channel (fst s) with
  | None, None, None => True
  | Some c, Some p, ch =>
      p = c /\ In c (open_ (snd s)) /\ (ch = None \/ ch = Some c)
  | _, _, _ => False
  end.

(** A publisher with a session on connection [n]. *)
Definition connected_to (n : nat) : EventPublisher.t :=
  mkPublisher (Some n) (Some n) (Some n).

End PublisherRunsVocabulary.

(* ====================================================================== *)
(** * The registry and the publisher on concrete inputs *)
(* ====================================================================== *)

Module RegistryScenario.

Import Features.

(** A feature of class 5 (a subclass of class 2), one of class 6 (also a
    subclass of class 2), and an object of class 8 whose truth value is
    false. *)
Definition listener : feature nat := mkFeature 0 5 [2; 1; 0] true 0.

Definition publisher : feature nat := mkFeature 1 6 [2; 1; 0] true 0.

Definition nothing : feature nat := mkFeature 2 8 [0] false 0.

(** An application with the first of them registered under its class. *)
Definition one : app nat := snd (add new_app listener None false).

End RegistryScenario.

Module PublisherScenario.

Definition first : request :=
  mkRequest "brewblox" "controller.value"
    (Json.VDict [(Json.KStr (Json.text "a"), Json.VInt 1)]) "topic".

Definition second : request :=
  mkRequest "brewblox" "controller.state" (Json.VStr (Json.text "on"))
    "topic".

End PublisherScenario.

(* ====================================================================== *)
(** * Properties of the log handler *)
(* ====================================================================== *)

Section LogHandlerProperties.

Import EventLogHandler.

Context {LogRecord : Type}.

Implicit Types (self : EventLogHandler.t LogRecord) (r : LogRecord).

Lemma emit_returns self r : exists self', emit self r = Ret self'.
Proof.
  unfold emit, emit_body.
  destruct (_queue self) as [q|]; [|eauto].
  unfold Queue.put_nowait. destruct (Queue.full q); eauto.
Qed.

Lemma published_app (a b : list (event LogRecord)) :
  published (a ++ b) = published a ++ published b.
Proof.
  induction a as [|e a IH]; simpl; auto.
  destruct e; simpl; rewrite IH; reflexivity.
Qed.

(** One step of the handler keeps every accepted record in its place in
    line: published, then held by the loop, then queued. *)
Lemma step_keeps_line (a : action LogRecord) self self' evs :
  running a = true ->
  wf self ->
  step a self = (self', evs) ->
  wf self' /\
  published evs ++ held self' ++ queued self'
  = held self ++ queued self ++ accepted [a] self.
Proof.
  intros Hrun Hwf Hstep.
  destruct a as [| |r|o]; try discriminate; simpl in *.
  - (* Emit *)
    unfold emit, emit_body, Queue.put_nowait in Hstep.
    unfold wf, held, queued in *.
    destruct self as [[q|] tk]; simpl in *.
    + destruct (Queue.full q); inversion Hstep; subst; simpl;
        rewrite ?app_nil_r, <- ?app_assoc; auto.
    + inversion Hstep; subst; simpl. rewrite ?app_nil_r; auto.
  - (* Resume *)
    unfold wf, held, queued in *.
    destruct self as [[q|] [tk|]]; simpl in *;
      try (inversion Hstep; subst; simpl; rewrite ?app_nil_r; auto; fail).
    destruct (_run_step o q tk) as [[q' tk'] evs'] eqn:E.
    inversion Hstep; subst; clear Hstep. simpl.
    unfold _run_step in E. destruct tk as [rec p]; simpl in *.
    destruct p; simpl in E.
    + rewrite (Hwf eq_refl) in *. destruct o as [|e].
      * unfold Queue.pop in E. destruct q as [m [|x items]]; simpl in *;
          inversion E; subst; simpl; rewrite ?app_nil_r; split;
          auto; discriminate.
      * destruct e; inversion E; subst; simpl; rewrite ?app_nil_r;
          split; auto; discriminate.
    + destruct rec as [x|].
      * destruct o as [|e]; [|destruct e]; inversion E; subst; simpl;
          rewrite ?app_nil_r; split; auto; discriminate.
      * inversion E; subst; simpl; rewrite ?app_nil_r; split; auto;
          discriminate.
    + destruct o as [|e]; inversion E; subst; simpl;
        destruct rec; simpl; rewrite ?app_nil_r; split; auto;
        discriminate.
    + inversion E; subst; simpl; rewrite ?app_nil_r; split; auto;
        discriminate.
Qed.

Lemma exec_keeps_line (acts : list (action LogRecord)) :
  forall self self' tr,
    forallb (@running LogRecord) acts = true ->
    wf self ->
    exec acts self = (self', tr) ->
    wf self' /\
    published tr ++ held self' ++ queued self'
    = held self ++ queued self ++ accepted acts self.
Proof.
  induction acts as [|a acts IH]; intros self self' tr Hrun Hwf Hex.
  - simpl in Hex. inversion Hex; subst. simpl. rewrite app_nil_r. auto.
  - simpl in Hrun. apply andb_true_iff in Hrun as [Ha Hrest].
    simpl in Hex.
    destruct (step a self) as [self1 e1] eqn:E1.
    destruct (exec acts self1) as [self2 e2] eqn:E2.
    inversion Hex; subst; clear Hex.
    destruct (step_keeps_line a self self1 e1 Ha Hwf E1) as [Hwf1 H1].
    destruct (IH self1 self' e2 Hrest Hwf1 E2) as [Hwf2 H2].
    split; auto.
    rewrite published_app, <- app_assoc, H2.
    rewrite !app_assoc. rewrite <- (app_assoc (published e1)), H1.
    assert (Hacc : accepted (a :: acts) self
                   = accepted [a] self ++ accepted acts self1).
    { simpl. rewrite E1. simpl.
      destruct a; simpl; auto.
      destruct (_queue self); simpl; auto.
      destruct (Queue.full t0); simpl; auto. }
    rewrite Hacc, !app_assoc. reflexivity.
Qed.

(** C9.  [emit] is a plain function of the handler and the record: it
    consumes no outcome of an [await], so it cannot suspend.  It never
    raises.  With the queue not initialised ([None], before [startup] and
    after [shutdown]) or full, the record is dropped and the handler is
    left as it was; otherwise the record goes to the tail of the queue. *)
Theorem emit_never_raises_never_blocks self r :
  exists self',
    emit self r = Ret self' /\
    _task self' = _task self /\
    match _queue self with
    | None => self' = self
    | Some q =>
        if Queue.full q then self' = self
        else _queue self'
             = Some (Queue.mk (Queue.maxsize q) (Queue.items q ++ [r]))
    end.
Proof.
  unfold emit, emit_body, Queue.put_nowait.
  destruct self as [[q|] tk]; simpl.
  - destruct (Queue.full q); eexists; repeat split; reflexivity.
  - eexists; repeat split; reflexivity.
Qed.

(** C8.  Along any run of [emit] calls and resumptions of the drain loop:
    a publish that fails with an error other than cancellation leaves the
    record in the loop and the queue untouched, and after the backoff the
    loop goes back to publishing that same record without consulting the
    queue; the loop's [record] goes from a record to [None] only on a
    publish that returned; and the records published so far, the record
    held and the records queued are, in this order, the records accepted. *)
Theorem failed_record_is_retained_and_retried
        (acts : list (action LogRecord)) self0 self tr :
  forallb (@running LogRecord) acts = true ->
  wf self0 ->
  exec acts self0 = (self, tr) ->
  (forall q r e,
      e <> CancelledError ->
      _run_step (Raises e) q (mkTask (Some r) AwaitPublish)
      = (q, mkTask (Some r) AwaitSleep, [EvPublishFailed r e]) /\
      _run_step Returns q (mkTask (Some r) AwaitSleep)
      = (q, mkTask (Some r) AwaitPublish, [EvSlept])) /\
  (forall o q tk q' tk' evs r,
      _run_step o q tk = (q', tk', evs) ->
      record tk = Some r -> record tk' = None ->
      o = Returns /\ at_ tk = AwaitPublish /\ evs = [EvPublished r]) /\
  published tr ++ held self ++ queued self
  = held self0 ++ queued self0 ++ accepted acts self0.
Proof.
  intros Hrun Hwf Hex. split; [|split].
  - intros q r e He. split; [|reflexivity].
    destruct e; try reflexivity. congruence.
  - intros o q tk q' tk' evs r Hs Hr Hn.
    destruct tk as [rec p]; simpl in *; subst rec.
    unfold _run_step in Hs; simpl in Hs.
    destruct p.
    + destruct o as [|e]; [|destruct e]; try destruct (Queue.pop q) as [[x q1]|];
        inversion Hs; subst; discriminate.
    + destruct o as [|e]; [|destruct e]; inversion Hs; subst;
        try discriminate. auto.
    + destruct o; inversion Hs; subst; discriminate.
    + inversion Hs; subst; discriminate.
  - apply (exec_keeps_line acts self0 self tr Hrun Hwf Hex).
Qed.

End LogHandlerProperties.

(** A run of the handler: two records are emitted, the first publish of the
    first record fails, and both are published in the order they were
    emitted. *)
Lemma failed_record_is_retained_and_retried_witness :
  EventLogHandler.published
    (snd (EventLogHandler.exec
            [EventLogHandler.Emit 1; EventLogHandler.Emit 2;
             EventLogHandler.Resume Returns;
             EventLogHandler.Resume (Raises (AioamqpException "down"));
             EventLogHandler.Resume Returns;
             EventLogHandler.Resume Returns;
             EventLogHandler.Resume Returns;
             EventLogHandler.Resume Returns]
            (fst (EventLogHandler.step EventLogHandler.Startup
                                       EventLogHandler.init))))
  = [1; 2].
Proof.
  pose proof (@failed_record_is_retained_and_retried nat
                [EventLogHandler.Emit 1; EventLogHandler.Emit 2;
                 EventLogHandler.Resume Returns;
                 EventLogHandler.Resume (Raises (AioamqpException "down"));
                 EventLogHandler.Resume Returns;
                 EventLogHandler.Resume Returns;
                 EventLogHandler.Resume Returns;
                 EventLogHandler.Resume Returns]
                (fst (EventLogHandler.step EventLogHandler.Startup
                                           EventLogHandler.init))
                _ _ eq_refl (fun _ => eq_refl) eq_refl) as [_ [_ H]].
  vm_compute in H. vm_compute. exact H.
Defined.

(* ====================================================================== *)
(** * Properties of the relay *)
(* ====================================================================== *)

Section RelayProperties.

Import EventSubscription.

Lemma relay_returns (self : EventSubscription.t) body key :
  fst (_relay self body key) = Ret tt.
Proof.
  unfold _relay. destruct (relay_body self body key) as [[[]|e] evs];
    reflexivity.
Qed.

Lemma consume_returns deliveries :
  fst (consume deliveries) = Ret tt /\
  relayed deliveries = List.length deliveries.
Proof.
  induction deliveries as [|[[sub body] key] rest [IH1 IH2]]; simpl; auto.
  pose proof (relay_returns sub body key) as H.
  destruct (_relay sub body key) as [[[]|e] evs]; simpl in H;
    try discriminate.
  destruct (consume rest) as [r evs']; simpl in *. auto.
Qed.

(** C4.  [_relay] returns normally for every subscription, body and routing
    key.  A body that [json.loads] rejects is logged and the callback is not
    called; an exception raised by the current [on_message] is logged after
    the call.  Hence a consumer that would stop at the first exception coming
    out of [_relay] relays every delivery of every list of deliveries. *)
Theorem relay_never_propagates (self : EventSubscription.t) body key :
  fst (_relay self body key) = Ret tt /\
  (forall e,
      Json.loads body = Exc e ->
      snd (_relay self body key) = [EvLoggedError (id self) e]) /\
  (forall message e,
      Json.loads body = Ret message ->
      _on_message self (id self) key message = Raises e ->
      snd (_relay self body key)
      = [EvCalled (id self) key message; EvLoggedError (id self) e]) /\
  (forall deliveries,
      fst (consume deliveries) = Ret tt /\
      relayed deliveries = List.length deliveries).
Proof.
  split; [apply relay_returns|]. split; [|split].
  - intros e H. unfold _relay, relay_body. rewrite H. reflexivity.
  - intros message e H1 H2. unfold _relay, relay_body. rewrite H1, H2.
    reflexivity.
  - apply consume_returns.
Qed.

End RelayProperties.

(** A delivery whose callback raises: the callback is called, the error is
    logged, and [_relay] returns. *)
Lemma relay_never_propagates_witness :
  snd (EventSubscription._relay
         (EventSubscription.create 1 "brewblox" "controller.#" "topic"
            (Some (fun _ _ _ => Raises (OtherException "callback"))))
         [x31] "controller.value")
  = [EventSubscription.EvCalled 1 "controller.value" (Json.VInt 1);
     EventSubscription.EvLoggedError 1 (OtherException "callback")].
Proof.
  exact (proj1 (proj2 (proj2
           (relay_never_propagates
              (EventSubscription.create 1 "brewblox" "controller.#" "topic"
                 (Some (fun _ _ _ => Raises (OtherException "callback"))))
              [x31] "controller.value")))
           (Json.VInt 1) (OtherException "callback") eq_refl eq_refl).
Defined.

(* ====================================================================== *)
(** * Properties of the publisher *)
(* ====================================================================== *)

Section PublisherProperties.

Import EventPublisher.
Local Open Scope pub_scope.

Implicit Types (s : state) (self : EventPublisher.t) (w : world).

Lemma ensure_calls_app a b :
  ensure_calls (a ++ b) = ensure_calls a + ensure_calls b.
Proof.
  unfold ensure_calls. rewrite filter_app, length_app. reflexivity.
Qed.

Lemma extends_ret {A} (a : A) : extends (ret a) 0.
Proof. intro s. exists []. simpl. rewrite app_nil_r. auto. Qed.

Lemma extends_raise {A} e : extends (@raise A e) 0.
Proof. intro s. exists []. simpl. rewrite app_nil_r. auto. Qed.

Lemma extends_lift {A} (r : result A) : extends (lift r) 0.
Proof. intro s. exists []. simpl. rewrite app_nil_r. auto. Qed.

Lemma extends_get_self : extends get_self 0.
Proof. intro s. exists []. simpl. rewrite app_nil_r. auto. Qed.

Lemma extends_put_self self : extends (put_self self) 0.
Proof. intro s. exists []. simpl. rewrite app_nil_r. auto. Qed.

Lemma extends_await : extends await 0.
Proof.
  intro s. exists []. unfold await. rewrite app_nil_r.
  destruct (oracle (snd s)) as [|[|e] rest]; simpl; auto.
Qed.

Lemma extends_emit e :
  extends (emit e) (match e with EvEnsureChannel => 1 | _ => 0 end).
Proof. intro s. exists [e]. simpl. split; auto. destruct e; reflexivity. Qed.

Lemma extends_bind {A B} (m : M A) (k : A -> M B) n :
  extends m n -> (forall a, extends (k a) 0) -> extends (bind m k) n.
Proof.
  intros Hm Hk s. unfold bind. destruct (Hm s) as [e1 [H1 H1']].
  destruct (m s) as [[a|e] s'] eqn:E; simpl in *.
  - destruct (Hk a s') as [e2 [H2 H2']]. exists (e1 ++ e2).
    rewrite H2, H1, app_assoc, ensure_calls_app. split; auto. lia.
  - exists e1. auto.
Qed.

Lemma extends_emit_bind {B} e (k : M B) n :
  extends k n ->
  extends (emit e ;; k) (match e with EvEnsureChannel => 1 | _ => 0 end + n).
Proof.
  intros Hk s. unfold bind. simpl.
  destruct (Hk (fst s, mkWorld (oracle (snd s)) (next_conn (snd s))
                               (open_ (snd s)) (trace (snd s) ++ [e])))
    as [e2 [H2 H2']].
  exists ([e] ++ e2). simpl in H2. rewrite H2, app_assoc, ensure_calls_app.
  split; auto. f_equal; auto. destruct e; reflexivity.
Qed.

Lemma extends_try_except {A} (m : M A) (h : exn -> M A) n :
  extends m n -> (forall e, extends (h e) 0) -> extends (try_except m h) n.
Proof.
  intros Hm Hh s. unfold try_except. destruct (Hm s) as [e1 [H1 H1']].
  destruct (m s) as [[a|e] s'] eqn:E; simpl in *.
  - exists e1. auto.
  - destruct (Hh e s') as [e2 [H2 H2']]. exists (e1 ++ e2).
    rewrite H2, H1, app_assoc, ensure_calls_app. split; auto. lia.
Qed.

Lemma extends_connect : extends connect 0.
Proof.
  unfold connect. apply extends_bind; [apply extends_await|].
  intros _ s. exists [EvConnect (next_conn (snd s))]. simpl. auto.
Qed.

Lemma extends_transport_close c : extends (transport_close c) 0.
Proof. intro s. exists [EvTransportClose c]. simpl. auto. Qed.

Lemma extends_reset : extends _reset 0.
Proof. apply extends_put_self. Qed.

Lemma extends_close : extends _close 0.
Proof.
  unfold _close. apply extends_bind; [|intros; apply extends_reset].
  apply extends_try_except; [|intros; apply extends_ret].
  apply extends_bind; [apply extends_get_self|]. intros self.
  destruct (_protocol self); [|apply extends_raise].
  apply extends_bind; [apply extends_await|]. intros _.
  apply (extends_emit_bind (EvProtocolClose n) _ 0).
  destruct (_transport self);
    [apply extends_transport_close|apply extends_raise].
Qed.

(** Each call of [_ensure_channel] is one entry in the trace, whatever its
    result. *)
Lemma extends_ensure_channel : extends _ensure_channel 1.
Proof.
  unfold _ensure_channel.
  apply (extends_emit_bind EvEnsureChannel _ 0).
  apply extends_bind; [apply extends_get_self|]. intros self.
  apply extends_bind.
  - destruct (connected self); [apply extends_ret|].
    apply extends_bind; [apply extends_connect|]. intros c.
    apply extends_bind; [apply extends_put_self|]. intros _.
    apply extends_bind; [apply extends_await|]. intros _.
    apply (extends_emit_bind (EvChannel c) _ 0). apply extends_put_self.
  - intros _. apply extends_try_except.
    + apply extends_bind; [apply extends_get_self|]. intros self'.
      destruct (_protocol self'); [apply extends_await|apply extends_raise].
    + intros e. destruct (is_AioamqpException e); [|apply extends_raise].
      apply extends_bind; [apply extends_close|]. intros; apply extends_raise.
Qed.

Lemma extends_send exchange routing message ty :
  extends (send exchange routing message ty) 0.
Proof.
  unfold send. apply extends_bind; [apply extends_lift|]. intros data.
  apply extends_bind; [apply extends_get_self|]. intros self.
  destruct (_channel self); [|apply extends_raise].
  apply (extends_emit_bind (EvExchangeDeclare n exchange ty) _ 0).
  apply extends_bind; [apply extends_await|]. intros _.
  apply (extends_emit_bind (EvBasicPublish n exchange routing data) _ 0).
  apply extends_await.
Qed.

(** C3.  [publish] enters [_ensure_channel] once when the first attempt
    returns, and exactly twice when the first attempt raises, whatever the
    error.  After a failed first attempt, the result of the second decides:
    when it returns, [publish] goes on to serialize and send; when it
    raises, that error is the result of [publish]. *)
Theorem publish_retries_ensure_channel_once
        (exchange routing : string) (message : Json.value) (ty : string) s :
  let calls s' := ensure_calls (trace (snd s')) in
  match _ensure_channel s with
  | (Ret _, s1) =>
      publish exchange routing message ty s
      = send exchange routing message ty s1 /\
      calls (snd (publish exchange routing message ty s)) = calls s + 1
  | (Exc _, s1) =>
      calls (snd (publish exchange routing message ty s)) = calls s + 2 /\
      match _ensure_channel s1 with
      | (Ret _, s2) =>
          publish exchange routing message ty s
          = send exchange routing message ty s2
      | (Exc e2, s2) =>
          publish exchange routing message ty s = (Exc e2, s2)
      end
  end.
Proof.
  intros calls. unfold publish, bind, try_except.
  destruct (extends_ensure_channel s) as [e1 [H1 H1']].
  destruct (_ensure_channel s) as [[[]|e] s1] eqn:E1; simpl in *.
  - split; auto.
    destruct (extends_send exchange routing message ty s1) as [e2 [H2 H2']].
    unfold calls. rewrite H2, H1, !ensure_calls_app. lia.
  - destruct (extends_ensure_channel s1) as [e2 [H2 H2']].
    destruct (_ensure_channel s1) as [[[]|e'] s2] eqn:E2; simpl in *.
    + split; auto.
      destruct (extends_send exchange routing message ty s2) as [e3 [H3 H3']].
      unfold calls. rewrite H3, H2, H1, !ensure_calls_app. lia.
    + split; auto. unfold calls. rewrite H2, H1, !ensure_calls_app. lia.
Qed.

(** A cached session whose [ensure_open] fails with an aioamqp error is
    closed (protocol, then transport) and dropped before anything else
    happens, and the error goes to the caller. *)
Lemma stale_session_is_closed_and_discarded c msg rest nc opened tr :
  _ensure_channel
    (mkPublisher (Some c) (Some c) (Some c),
     mkWorld (Raises (AioamqpException msg) :: Returns :: rest) nc opened tr)
  = (Exc (AioamqpException msg),
     (init,
      mkWorld rest nc (List.filter (fun x => negb (Nat.eqb x c)) opened)
              (tr ++ [EvEnsureChannel] ++ [EvProtocolClose c]
                  ++ [EvTransportClose c]))).
Proof.
  unfold _ensure_channel, _close, bind, try_except; simpl.
  rewrite <- !app_assoc. reflexivity.
Qed.

Lemma closed_app a b : closed (a ++ b) = closed a ++ closed b.
Proof.
  induction a as [|e a IH]; simpl; [reflexivity|].
  destruct e; simpl; rewrite IH; reflexivity.
Qed.

(** [send] opens nothing, closes nothing and leaves the publisher as it
    is. *)
Lemma send_keeps_session exchange routing message ty s :
  let s' := snd (send exchange routing message ty s) in
  fst s' = fst s /\
  open_ (snd s') = open_ (snd s) /\
  closed (trace (snd s')) = closed (trace (snd s)).
Proof.
  unfold send, bind, lift, get_self, emit, await, raise. simpl.
  destruct (Json.encode (Json.dumps message)) as [data|e]; simpl; auto.
  destruct (_channel (fst s)) as [c|]; simpl; auto.
  destruct (oracle (snd s)) as [|[|e1] [|[|e2] rest]]; simpl;
    rewrite ?closed_app; simpl; rewrite ?app_nil_r; auto.
Qed.

(** C5, on the inputs on which the code departs from it.  A publisher
    without a session is asked to publish; the connection opens ([nc]) and
    its channel does not, whatever the error.  [publish] retries,
    [_ensure_channel] finds the publisher not connected and connects again
    ([S nc]) over the fields of the first connection, whose transport
    nothing closes.  From then on two connections are open: the cached one
    and the orphan. *)
Theorem channel_failure_leaves_two_open_connections
        exchange routing message ty e rest nc opened tr :
  let s0 := (init,
             mkWorld (Returns :: Raises e :: Returns :: Returns :: Returns
                      :: rest) nc opened tr) in
  let r := publish exchange routing message ty s0 in
  fst (snd r) = mkPublisher (Some (S nc)) (Some (S nc)) (Some (S nc)) /\
  open_ (snd (snd r)) = opened ++ [nc; S nc] /\
  closed (trace (snd (snd r))) = closed tr.
Proof.
  intros s0 r. unfold r, s0. clear r s0.
  assert (E1 : _ensure_channel
                 (init,
                  mkWorld (Returns :: Raises e :: Returns :: Returns
                           :: Returns :: rest) nc opened tr)
               = (Exc e,
                  (mkPublisher (Some nc) (Some nc) None,
                   mkWorld (Returns :: Returns :: Returns :: rest) (S nc)
                           (opened ++ [nc])
                           ((tr ++ [EvEnsureChannel]) ++ [EvConnect nc])))).
  { reflexivity. }
  assert (E2 : _ensure_channel
                 (mkPublisher (Some nc) (Some nc) None,
                  mkWorld (Returns :: Returns :: Returns :: rest) (S nc)
                          (opened ++ [nc])
                          ((tr ++ [EvEnsureChannel]) ++ [EvConnect nc]))
               = (Ret tt,
                  (mkPublisher (Some (S nc)) (Some (S nc)) (Some (S nc)),
                   mkWorld rest (S (S nc)) ((opened ++ [nc]) ++ [S nc])
                           (((((tr ++ [EvEnsureChannel]) ++ [EvConnect nc])
                                ++ [EvEnsureChannel]) ++ [EvConnect (S nc)])
                              ++ [EvChannel (S nc)])))).
  { reflexivity. }
  match type of E2 with
  | _ = (_, ?s2) =>
      assert (E : publish exchange routing message ty
                    (init,
                     mkWorld (Returns :: Raises e :: Returns :: Returns
                              :: Returns :: rest) nc opened tr)
                  = send exchange routing message ty s2)
        by (unfold publish, bind, try_except; rewrite E1, E2; reflexivity);
      destruct (send_keeps_session exchange routing message ty s2)
        as [H1 [H2 H3]]
  end.
  rewrite E.
  cbv zeta in H1, H2, H3. rewrite H1, H2, H3. cbn [fst snd open_ trace].
  split; [reflexivity|]. split.
  - rewrite <- app_assoc. reflexivity.
  - rewrite !closed_app. simpl. rewrite !app_nil_r. reflexivity.
Qed.

(** The same on a fresh publisher, with a broker that refuses the first
    channel and nothing else: [publish] returns, the connections 0 and 1 are
    open, and the publisher knows of 1 only. *)
Lemma orphaned_connection_after_publish :
  let s0 := (init,
             fresh_world [Returns; Raises (AioamqpException "channel")]) in
  let r := publish "brewblox" "controller.value"
                   (Json.VDict [(Json.KStr (Json.text "a"), Json.VInt 1)])
                   "topic" s0 in
  fst r = Ret tt /\
  fst (snd r) = mkPublisher (Some 1) (Some 1) (Some 1) /\
  open_ (snd (snd r)) = [0; 1] /\
  closed (trace (snd (snd r))) = [].
Proof. vm_compute. repeat split. Qed.

End PublisherProperties.

(* ====================================================================== *)
(** * Properties of the listener *)
(* ====================================================================== *)

Section ListenerProperties.

Import EventSubscription EventListener.

Implicit Types (self : EventListener.t) (tk : task) (sys : system)
         (tr evs : list event) (s : Sub) (c : option nat).

(** ** Traces *)

Lemma subscribed_app tr1 tr2 :
  subscribed (tr1 ++ tr2) = subscribed tr1 ++ subscribed tr2.
Proof.
  induction tr1 as [|e tr1 IH]; simpl; auto.
  destruct e; simpl; rewrite IH; reflexivity.
Qed.

Lemma enqueued_app tr1 tr2 :
  enqueued (tr1 ++ tr2) = enqueued tr1 ++ enqueued tr2.
Proof.
  induction tr1 as [|e tr1 IH]; simpl; auto.
  destruct e; simpl; rewrite IH; reflexivity.
Qed.

Lemma dequeued_app tr1 tr2 :
  dequeued (tr1 ++ tr2) = dequeued tr1 ++ dequeued tr2.
Proof.
  induction tr1 as [|e tr1 IH]; simpl; auto.
  destruct e; simpl; rewrite IH; reflexivity.
Qed.

Lemma declared_app w c tr1 tr2 :
  declared w c (tr1 ++ tr2) = declared w c tr1 ++ declared w c tr2.
Proof.
  induction tr1 as [|e tr1 IH]; simpl; auto.
  destruct e; simpl; rewrite ?IH; auto.
  destruct (site_eqb _ _ && chan_eqb _ _); reflexivity.
Qed.

Lemma chan_eqb_refl c : chan_eqb c c = true.
Proof. destruct c; simpl; auto using Nat.eqb_refl. Qed.

Lemma chan_eqb_eq c c' : chan_eqb c c' = true -> c = c'.
Proof.
  destruct c, c'; simpl; intros H; try discriminate; auto.
  apply Nat.eqb_eq in H. congruence.
Qed.

Lemma subscribed_enqueued l : subscribed (List.map EvEnqueued l) = [].
Proof. induction l; simpl; auto. Qed.

Lemma enqueued_enqueued l : enqueued (List.map EvEnqueued l) = l.
Proof. induction l; simpl; congruence. Qed.

Lemma dequeued_enqueued l : dequeued (List.map EvEnqueued l) = [].
Proof. induction l; simpl; auto. Qed.

Lemma declared_enqueued w c l : declared w c (List.map EvEnqueued l) = [].
Proof. induction l; simpl; auto. Qed.

Lemma finally_idle k tk :
  idle (at_ (finally_ k tk)) /\
  conn (finally_ k tk) = conn tk /\ channel (finally_ k tk) = channel tk.
Proof.
  unfold finally_, after_finally, set_at.
  destruct (conn tk), k; simpl; auto.
Qed.

Lemma on_exception_spec e tk tk' evs :
  on_exception e tk = (tk', evs) ->
  idle (at_ tk') /\ conn tk' = conn tk /\ channel tk' = channel tk /\
  quiet evs.
Proof.
  unfold on_exception. destruct (is_CancelledError e); intros H;
    inversion H; subst; clear H.
  - destruct (finally_idle Leave tk) as [H1 [H2 H3]].
    repeat split; auto.
  - simpl. repeat split; auto; destruct (retrying tk); reflexivity.
Qed.

(** ** The queue *)

Lemma put_nowait_unbounded (q : Queue.t Sub) s :
  Queue.maxsize q = 0 ->
  Queue.put_nowait q s = Ret (Queue.mk 0 (Queue.items q ++ [s])).
Proof.
  intros H. unfold Queue.put_nowait, Queue.full. rewrite H. reflexivity.
Qed.

Lemma put_all_unbounded l : forall (q : Queue.t Sub),
  Queue.maxsize q = 0 ->
  put_all q l = Ret (Queue.mk 0 (Queue.items q ++ l)).
Proof.
  induction l as [|s l IH]; intros q H; simpl.
  - rewrite app_nil_r. destruct q; simpl in *; subst; reflexivity.
  - rewrite put_nowait_unbounded by assumption. rewrite IH by reflexivity.
    simpl. rewrite <- app_assoc. reflexivity.
Qed.

(** ** The invariant of the listener *)

Lemma inv_init : Inv init_system [].
Proof.
  constructor; simpl; auto; try discriminate.
  - constructor.
  - intros c. exists []. reflexivity.
  - split; auto.
Qed.

Lemma task_ok_new self nc tr : task_ok self nc tr new_task.
Proof. repeat split; simpl; intros; discriminate. Qed.

(** [_lazy_listen] leaves the task alone or, when there is none running,
    starts a fresh one. *)
Lemma lazy_listen_spec self :
  _lazy_listen self = self \/
  (_lazy_listen self = set_task self (Some new_task) /\ in_flight self = []).
Proof.
  unfold _lazy_listen.
  destruct (app_loop self); simpl; auto.
  destruct (_task self) as [tk|] eqn:Htk; simpl.
  - unfold done. destruct (at_ tk) eqn:Hat; simpl; auto.
    destruct (_ || _); auto. right. split; auto.
    unfold in_flight. rewrite Htk, Hat. reflexivity.
  - destruct (_ || _); auto. right. split; auto.
    unfold in_flight. rewrite Htk. reflexivity.
Qed.

Lemma inv_lazy_listen self ns nc tr :
  Inv (mkSystem self ns nc) tr ->
  Inv (mkSystem (_lazy_listen self) ns nc) tr.
Proof.
  intros H. destruct (lazy_listen_spec self) as [E|[E Hf]]; rewrite E; auto.
  destruct H as [H1 H2 H3 H4 H5 H6 H7 H8 H9]; simpl in *.
  constructor; simpl; auto.
  - unfold pool in *. simpl. rewrite Hf in H4. exact H4.
  - intros tk Htk. inversion Htk; subst. apply task_ok_new.
Qed.

Lemma quiet_silent evs : quiet evs -> silent evs.
Proof. intros [_ [_ [_ H]]]. exact H. Qed.

Lemma silent_enqueued l : silent (List.map EvEnqueued l).
Proof. intros w c. apply declared_enqueued. Qed.

Lemma replay_prefix_silent subs tr evs :
  silent evs -> replay_prefix subs tr -> replay_prefix subs (tr ++ evs).
Proof.
  intros Hs H c. rewrite declared_app, Hs, app_nil_r. apply H.
Qed.

Lemma unused_silent nc nc' tr evs :
  silent evs -> nc <= nc' -> unused nc tr -> unused nc' (tr ++ evs).
Proof.
  intros Hs Hn [H1 H2]. split.
  - rewrite declared_app, Hs, app_nil_r. exact H1.
  - intros n Hle. rewrite declared_app, Hs, app_nil_r. apply H2. lia.
Qed.

Lemma task_ok_silent self nc tr evs tk :
  silent evs -> task_ok self nc tr tk -> task_ok self nc (tr ++ evs) tk.
Proof.
  intros Hq [H1 [H2 H3]]. repeat split; auto.
  destruct (at_ tk); auto; rewrite declared_app, Hq, app_nil_r; auto.
Qed.

Lemma task_ok_ext self self' nc nc' tr tk :
  _subscriptions self' = _subscriptions self ->
  (_pending self <> None -> _pending self' <> None) ->
  nc <= nc' ->
  task_ok self nc tr tk -> task_ok self' nc' tr tk.
Proof.
  intros Hs Hp Hn [H1 [H2 H3]]. split; [|split].
  - intros n Hc. specialize (H1 n Hc). lia.
  - intros n Hc. specialize (H2 n Hc). lia.
  - rewrite Hs. destruct (at_ tk); auto.
Qed.

Lemma inv_set_loop sys tr :
  Inv sys tr -> Inv (fst (step SetLoop sys)) (tr ++ snd (step SetLoop sys)).
Proof.
  intros [H1 H2 H3 H4 H5 H6 H7 H8 H9]. simpl. rewrite app_nil_r.
  constructor; simpl; auto.
Qed.

Ltac unfold_pool :=
  unfold pool, holding, queued, in_flight in *; cbn [listener _pending
    _pending_pre_async _subscriptions _task set_task set_pending at_] in *.

Ltac trace_norm :=
  rewrite ?subscribed_app, ?enqueued_app, ?dequeued_app, ?declared_app,
    ?subscribed_enqueued, ?enqueued_enqueued, ?dequeued_enqueued,
    ?declared_enqueued;
  cbn [subscribed enqueued dequeued declared];
  rewrite ?app_nil_r.

Lemma inv_startup sys tr :
  _pending (listener sys) = None ->
  Inv sys tr -> Inv (fst (step Startup sys)) (tr ++ snd (step Startup sys)).
Proof.
  intros Hp [H1 H2 H3 H4 H5 H6 H7 H8 H9].
  destruct sys as [self ns nc]; simpl in *.
  rewrite Hp in H2.
  unfold startup. simpl.
  destruct (_pending_pre_async self) as [l|] eqn:Hl; [|congruence].
  rewrite put_all_unbounded by reflexivity. simpl.
  apply inv_lazy_listen.
  unfold_pool. rewrite Hp in *. rewrite Hl in *. rewrite app_nil_r in H3.
  constructor; simpl; unfold_pool; trace_norm; simpl; auto;
    try solve [eauto using replay_prefix_silent, unused_silent,
                 silent_enqueued].
  - intros q Hq. inversion Hq; reflexivity.
  - rewrite H3. reflexivity.
  - intros tk Htk. specialize (H9 tk Htk).
    apply task_ok_silent; [apply silent_enqueued|].
    eapply task_ok_ext; [| |apply Nat.le_refl|exact H9]; simpl; auto;
      discriminate.
Qed.

Lemma nodup_fresh (l : list Sub) s n :
  Forall (fun x => id x < n) l -> id s = n ->
  NoDup (List.map id l) -> NoDup (List.map id (l ++ [s])).
Proof.
  intros Hf Hs Hn. rewrite map_app. simpl.
  apply NoDup_app; auto.
  - repeat constructor. simpl. tauto.
  - intros x Hx [Hx'|[]]. apply in_map_iff in Hx as [y [Hy Hin]].
    rewrite Forall_forall in Hf. specialize (Hf y Hin). lia.
Qed.

Lemma silent_subscribed s : silent [EvSubscribed s].
Proof. intros w c. reflexivity. Qed.

Lemma silent_subscribed_enqueued s : silent [EvSubscribed s; EvEnqueued s].
Proof. intros w c. reflexivity. Qed.

Lemma perm_snoc_mid (L A B : list Sub) s :
  Permutation L (A ++ B) -> Permutation (L ++ [s]) (A ++ s :: B).
Proof.
  intros H. eapply Permutation_trans.
  - apply Permutation_sym, Permutation_cons_append.
  - apply Permutation_cons_app. exact H.
Qed.

Lemma perm_move (L A B C : list Sub) s :
  Permutation L (A ++ s :: B ++ C) -> Permutation L (A ++ B ++ s :: C).
Proof.
  intros H. eapply Permutation_trans; [exact H|].
  apply Permutation_app_head.
  change (s :: B ++ C) with ([s] ++ B ++ C).
  change (s :: C) with ([s] ++ C).
  rewrite !app_assoc. apply Permutation_app_tail, Permutation_app_comm.
Qed.

Ltac list_eq := repeat rewrite <- app_assoc; simpl; reflexivity.

Lemma inv_subscribe sys tr x r ty cb :
  Inv sys tr ->
  Inv (fst (step (Subscribe x r ty cb) sys))
      (tr ++ snd (step (Subscribe x r ty cb) sys)).
Proof.
  intros [H1 H2 H3 H4 H5 H6 H7 H8 H9].
  destruct sys as [self ns nc]; simpl in *.
  unfold subscribe.
  set (sub := create ns x r ty cb).
  assert (Hid : id sub = ns) by reflexivity.
  assert (Hfresh : Forall (fun s => id s < S ns) (subscribed tr ++ [sub])).
  { apply Forall_app. split.
    - eapply Forall_impl; [|exact H5]. simpl. intros; lia.
    - repeat constructor. }
  destruct (_pending self) as [q|] eqn:Hp.
  - rewrite put_nowait_unbounded by auto. simpl.
    apply inv_lazy_listen.
    unfold_pool. rewrite Hp in *.
    constructor; simpl; unfold_pool; trace_norm; simpl; auto;
      try solve [eauto using replay_prefix_silent, unused_silent,
                   silent_subscribed_enqueued].
    + intros q' Hq'. inversion Hq'; reflexivity.
    + rewrite app_assoc, H3. reflexivity.
    + rewrite H2 in *. simpl in *.
      rewrite <- app_assoc. simpl. apply perm_snoc_mid. exact H4.
    + apply nodup_fresh with (n := ns); auto.
    + intros tk Htk. specialize (H9 tk Htk).
      apply task_ok_silent; [apply silent_subscribed_enqueued|].
      eapply task_ok_ext; [| |apply Nat.le_refl|exact H9]; simpl; auto;
        discriminate.
  - destruct (_pending_pre_async self) as [l|] eqn:Hl; [|congruence].
    simpl. apply inv_lazy_listen.
    unfold_pool. rewrite Hp in *. rewrite Hl in *.
    rewrite app_nil_r in H3. simpl in H4.
    constructor; simpl; unfold_pool; trace_norm; simpl; auto;
      try solve [eauto using replay_prefix_silent, unused_silent,
                   silent_subscribed].
    + discriminate.
    + rewrite <- app_assoc. simpl. apply perm_snoc_mid. exact H4.
    + apply nodup_fresh with (n := ns); auto.
    + intros tk Htk. specialize (H9 tk Htk).
      apply task_ok_silent; [apply silent_subscribed|].
      eapply task_ok_ext; [| |apply Nat.le_refl|exact H9]; simpl; auto.
Qed.

(** ** Resuming the loop *)

Lemma in_flight_flying self tk :
  _task self = Some tk -> in_flight self = flying (at_ tk).
Proof. intros H. unfold in_flight. rewrite H. reflexivity. Qed.

Lemma flying_idle p : idle p -> flying p = [].
Proof. destruct p; simpl; tauto. Qed.

Lemma task_ok_idle self nc nc' tr tk tk' :
  idle (at_ tk') -> conn tk' = conn tk -> channel tk' = channel tk ->
  nc <= nc' -> task_ok self nc tr tk -> task_ok self nc' tr tk'.
Proof.
  intros Hi Hc Hch Hn [H1 [H2 _]]. split; [|split].
  - intros n Hn'. rewrite Hc in Hn'. specialize (H1 n Hn'). lia.
  - intros n Hn'. rewrite Hch in Hn'. specialize (H2 n Hn'). lia.
  - destruct (at_ tk'); simpl in Hi; tauto.
Qed.

(** A step that only moves the loop to another suspension point. *)
Lemma inv_retask self ns nc nc' tr tk tk' evs :
  Inv (mkSystem self ns nc) tr ->
  _task self = Some tk ->
  quiet evs -> nc <= nc' ->
  flying (at_ tk') = flying (at_ tk) ->
  task_ok self nc' tr tk' ->
  Inv (mkSystem (set_task self (Some tk')) ns nc') (tr ++ evs).
Proof.
  intros [H1 H2 H3 H4 H5 H6 H7 H8 H9] Htk Hq Hn Hf Hok.
  pose proof (quiet_silent _ Hq) as Hs.
  destruct Hq as [Q1 [Q2 [Q3 Q4]]].
  simpl in *. unfold pool in *. rewrite (in_flight_flying _ _ Htk) in H4.
  constructor; simpl; unfold pool, holding, queued, in_flight; simpl;
    rewrite ?subscribed_app, ?enqueued_app, ?dequeued_app, ?Q1, ?Q2, ?Q3,
      ?app_nil_r; auto;
    try solve [eauto using replay_prefix_silent, unused_silent].
  - fold (flying (at_ tk')). rewrite Hf. exact H4.
  - intros tk0 E. inversion E; subst tk0.
    apply task_ok_silent; auto.
Qed.

Lemma quiet_nil : quiet [].
Proof. repeat split. Qed.

Lemma quiet_app evs1 evs2 : quiet evs1 -> quiet evs2 -> quiet (evs1 ++ evs2).
Proof.
  intros [A1 [A2 [A3 A4]]] [B1 [B2 [B3 B4]]]. repeat split; intros;
    rewrite ?subscribed_app, ?enqueued_app, ?dequeued_app, ?declared_app,
      ?A1, ?A2, ?A3, ?A4, ?B1, ?B2, ?B3, ?B4; reflexivity.
Qed.

(** An exception while the loop holds no subscription. *)
Lemma inv_exception self ns nc tr tk tk0 tk' e evs0 evs :
  Inv (mkSystem self ns nc) tr ->
  _task self = Some tk ->
  flying (at_ tk) = [] ->
  conn tk0 = conn tk -> channel tk0 = channel tk ->
  quiet evs0 ->
  on_exception e tk0 = (tk', evs) ->
  Inv (mkSystem (set_task self (Some tk')) ns nc) (tr ++ evs0 ++ evs).
Proof.
  intros HI Htk Hf Hc Hch Hq0 Hex.
  destruct (on_exception_spec _ _ _ _ Hex) as [Hi [Hc' [Hch' Hq]]].
  eapply inv_retask; eauto using quiet_app.
  - rewrite Hf. apply flying_idle. exact Hi.
  - apply task_ok_idle with (nc := nc) (tk := tk); auto; try congruence.
    apply (inv_task _ _ HI). exact Htk.
Qed.

Lemma inv_dequeue self ns nc tr tk q s q' :
  Inv (mkSystem self ns nc) tr ->
  _task self = Some tk -> at_ tk = AwaitPending ->
  _pending self = Some q -> Queue.pop q = Some (s, q') ->
  Inv (mkSystem (set_task (set_pending self (Some q'))
                          (Some (set_at tk (AwaitEnsureOpen2 s)))) ns nc)
      (tr ++ [EvDequeued s]).
Proof.
  intros [H1 H2 H3 H4 H5 H6 H7 H8 H9] Htk Hat Hp Hpop.
  assert (Hs : silent [EvDequeued s]) by (intros w c; reflexivity).
  unfold Queue.pop in Hpop. destruct q as [m items]. simpl in *.
  destruct items as [|x items]; inversion Hpop; subst; clear Hpop.
  unfold pool in *. rewrite (in_flight_flying _ _ Htk), Hat in H4.
  unfold holding, queued in *. simpl in *. rewrite Hp in *. simpl in *.
  constructor; simpl; unfold pool, holding, queued, in_flight; simpl;
    trace_norm; auto;
    try solve [eauto using replay_prefix_silent, unused_silent].
  - intros q Hq. inversion Hq; subst. apply (H1 _ eq_refl).
  - rewrite <- app_assoc. exact H3.
  - apply perm_move. exact H4.
  - intros tk0 E. inversion E; subst tk0. specialize (H9 tk Htk).
    apply task_ok_silent; auto.
    destruct H9 as [K1 [K2 K3]]. repeat split; auto. simpl. discriminate.
Qed.

Lemma inv_requeue self ns nc tr tk s e evs0 self' e' evs tk' evs' :
  Inv (mkSystem self ns nc) tr ->
  _task self = Some tk -> flying (at_ tk) = [s] ->
  quiet evs0 ->
  put_back self s e = (self', e', evs) ->
  on_exception e' tk = (tk', evs') ->
  Inv (mkSystem (set_task self' (Some tk')) ns nc)
      (tr ++ evs0 ++ evs ++ evs').
Proof.
  intros HI Htk Hf Hq0 Hput Hex.
  destruct (on_exception_spec _ _ _ _ Hex) as [Hi [Hc [Hch Hq]]].
  pose proof (inv_task _ _ HI tk Htk) as Hok.
  destruct HI as [H1 H2 H3 H4 H5 H6 H7 H8 H9]. simpl in *.
  assert (Hp : _pending self <> None).
  { destruct Hok as [_ [_ Hok]].
    destruct (at_ tk); simpl in Hf; try discriminate; auto. }
  unfold put_back in Hput.
  destruct (_pending self) as [q|] eqn:Epend; [|congruence].
  rewrite put_nowait_unbounded in Hput by auto.
  inversion Hput; subst; clear Hput.
  destruct Hq0 as [A1 [A2 [A3 A4]]]. destruct Hq as [B1 [B2 [B3 B4]]].
  assert (Hs : silent (evs0 ++ [EvEnqueued s] ++ evs')).
  { intros w c. rewrite !declared_app, A4, B4. reflexivity. }
  unfold pool in *. rewrite (in_flight_flying _ _ Htk), Hf in H4.
  unfold holding, queued in *. simpl in *. rewrite Epend in *.
  constructor; simpl; unfold pool, holding, queued, in_flight; simpl;
    rewrite ?subscribed_app, ?enqueued_app, ?dequeued_app; simpl;
    rewrite ?A1, ?A2, ?A3, ?B1, ?B2, ?B3; simpl; rewrite ?app_nil_r; auto;
    try solve [eauto using replay_prefix_silent, unused_silent].
  - intros q0 Hq0. inversion Hq0; reflexivity.
  - rewrite app_assoc, H3. reflexivity.
  - fold (flying (at_ tk')). rewrite (flying_idle _ Hi). simpl.
    rewrite <- app_assoc. exact H4.
  - intros tk0 E. inversion E; subst tk0.
    apply task_ok_silent; auto.
    apply task_ok_idle with (nc := nc) (tk := tk); auto.
    eapply task_ok_ext; [| |apply Nat.le_refl|exact Hok]; simpl; auto.
    discriminate.
Qed.

Lemma inv_declared self ns nc tr tk s :
  Inv (mkSystem self ns nc) tr ->
  _task self = Some tk -> flying (at_ tk) = [s] ->
  Inv (mkSystem
         (set_task
            (mkListener (app_loop self) (_pending_pre_async self)
                        (_pending self) (_subscriptions self ++ [s])
                        (_task self))
            (Some (set_at tk AwaitEnsureOpen))) ns nc)
      (tr ++ [EvDeclared Drain (channel tk) s]).
Proof.
  intros [H1 H2 H3 H4 H5 H6 H7 H8 H9] Htk Hf.
  simpl in *.
  unfold pool in *. rewrite (in_flight_flying _ _ Htk), Hf in H4.
  unfold holding, queued in *. simpl in *.
  constructor; simpl; unfold pool, holding, queued, in_flight; simpl;
    trace_norm; auto.
  - rewrite !app_assoc in *.
    eapply Permutation_trans; [exact H4|].
    rewrite <- !app_assoc. do 2 apply Permutation_app_head.
    apply Permutation_cons_append.
  - intros c. destruct (H7 c) as [rest Hr].
    exists (rest ++ [s]). rewrite declared_app; simpl; rewrite app_nil_r.
    rewrite Hr at 1. rewrite app_assoc. reflexivity.
  - destruct H8 as [U1 U2]. split.
    + rewrite declared_app; simpl; rewrite app_nil_r. exact U1.
    + intros n Hn. rewrite declared_app; simpl; rewrite app_nil_r. auto.
  - intros tk0 E. inversion E; subst tk0. specialize (H9 tk Htk).
    destruct H9 as [K1 [K2 K3]]. repeat split; auto.
Qed.

Lemma firstn_S_nth_error (l : list Sub) i x :
  List.nth_error l i = Some x -> firstn (S i) l = firstn i l ++ [x].
Proof.
  revert i. induction l as [|y l IH]; intros [|i] H; simpl in *;
    try discriminate.
  - inversion H; reflexivity.
  - rewrite (IH i H). reflexivity.
Qed.

Lemma inv_replayed self ns nc tr tk i st sub :
  Inv (mkSystem self ns nc) tr ->
  _task self = Some tk -> at_ tk = AwaitReplay i st ->
  List.nth_error (_subscriptions self) i = Some sub ->
  Inv (mkSystem (set_task self (Some (replay_from self (S i) tk))) ns nc)
      (tr ++ [EvDeclared Replay (channel tk) sub]).
Proof.
  intros [H1 H2 H3 H4 H5 H6 H7 H8 H9] Htk Hat Hnth.
  pose proof (H9 tk Htk) as [K1 [K2 K3]]. rewrite Hat in K3.
  destruct K3 as [Kc [Kd Ki]]. simpl in *.
  assert (Hd : forall c,
             declared Replay c [EvDeclared Replay (channel tk) sub]
             = if chan_eqb c (channel tk) then [sub] else []).
  { intros c. simpl. destruct (chan_eqb c (channel tk)); reflexivity. }
  assert (Hnew : declared Replay (channel tk)
                          (tr ++ [EvDeclared Replay (channel tk) sub])
                 = firstn (S i) (_subscriptions self)).
  { rewrite declared_app, Hd, chan_eqb_refl, Kd.
    symmetry. apply firstn_S_nth_error. exact Hnth. }
  assert (Hfly : flying (at_ (replay_from self (S i) tk)) = []).
  { unfold replay_from. destruct (List.nth_error _ (S i)); reflexivity. }
  unfold pool in *. rewrite (in_flight_flying _ _ Htk), Hat in H4.
  unfold holding, queued in *. simpl in H3, H4.
  constructor; cbn [listener next_sub next_conn _pending _pending_pre_async
                      _subscriptions _task set_task];
    unfold pool, holding, queued, in_flight;
    cbn [listener next_sub next_conn _pending _pending_pre_async
           _subscriptions _task set_task];
    rewrite ?subscribed_app, ?enqueued_app, ?dequeued_app;
    cbn [subscribed enqueued dequeued]; rewrite ?app_nil_r; auto.
  - fold (flying (at_ (replay_from self (S i) tk))). rewrite Hfly. exact H4.
  - intros c. destruct (chan_eqb c (channel tk)) eqn:Ec.
    + apply chan_eqb_eq in Ec. subst c. rewrite Hnew.
      exists (skipn (S i) (_subscriptions self)).
      symmetry. apply firstn_skipn.
    + rewrite declared_app, Hd, Ec, app_nil_r. apply H7.
  - destruct H8 as [U1 U2]. split.
    + rewrite declared_app, Hd.
      destruct (channel tk) eqn:Ech; [|congruence]. simpl.
      rewrite app_nil_r. exact U1.
    + intros n Hn. rewrite declared_app, Hd.
      destruct (channel tk) as [m|] eqn:Ech; [|congruence]. simpl.
      specialize (K2 m eq_refl).
      destruct (Nat.eqb_spec n m); [lia|]. rewrite app_nil_r. auto.
  - intros tk0 E. inversion E; subst tk0.
    unfold replay_from.
    destruct (List.nth_error (_subscriptions self) (S i)) eqn:En;
      repeat split; simpl; auto.
    apply nth_error_Some. congruence.
Qed.

Lemma inv_same self ns nc tr tk :
  Inv (mkSystem self ns nc) tr -> _task self = Some tk ->
  Inv (mkSystem (set_task self (Some tk)) ns nc) (tr ++ []).
Proof.
  intros HI Htk. apply inv_retask with (tk := tk) (nc := nc); auto using quiet_nil.
  apply (inv_task _ _ HI). exact Htk.
Qed.

Lemma quiet_failed w c s e : quiet [EvDeclareFailed w c s e].
Proof. repeat split. Qed.

Lemma quiet_connected c : quiet [EvConnected c].
Proof. repeat split. Qed.

Lemma inv_resume sys tr o :
  Inv sys tr ->
  Inv (fst (step (Resume o) sys)) (tr ++ snd (step (Resume o) sys)).
Proof.
  intros HI. destruct sys as [self ns nc]. simpl.
  destruct (_task self) as [tk|] eqn:Htk;
    [|simpl; rewrite app_nil_r; exact HI].
  pose proof (inv_task _ _ HI tk Htk) as Hok. simpl in Hok.
  destruct Hok as [K1 [K2 K3]].
  unfold _listen_step.
  destruct (at_ tk) eqn:Hat.
  - (* AwaitConnect *)
    destruct o as [|e].
    + simpl. apply inv_retask with (tk := tk) (nc := nc); auto using quiet_nil.
      * rewrite Hat. reflexivity.
      * repeat split; simpl.
        -- intros n E. inversion E. lia.
        -- intros n E. specialize (K2 n E). lia.
        -- discriminate.
        -- apply (inv_unused _ _ HI). simpl. lia.
    + destruct (on_exception e tk) as [tk' evs] eqn:E. simpl.
      apply (inv_exception self ns nc tr tk tk tk' e [] evs); auto using quiet_nil.
      rewrite Hat. reflexivity.
  - (* AwaitChannel *)
    destruct K3 as [Kc Kd]. destruct o as [|e].
    + simpl. apply inv_retask with (tk := tk) (nc := nc); auto using quiet_connected.
      * rewrite Hat. unfold replay_from.
        destruct (List.nth_error _ 0); reflexivity.
      * unfold replay_from.
        destruct (List.nth_error (_subscriptions self) 0) eqn:En;
          repeat split; simpl; auto.
        apply nth_error_Some. congruence.
    + destruct (on_exception e tk) as [tk' evs] eqn:E. simpl.
      apply (inv_exception self ns nc tr tk tk tk' e [] evs); auto using quiet_nil.
      rewrite Hat. reflexivity.
  - (* AwaitReplay *)
    destruct (List.nth_error (_subscriptions self) i) as [sub|] eqn:En;
      [|simpl; apply inv_same; auto].
    destruct o as [|e].
    + destruct (next_stage st) as [st'|] eqn:Est; simpl.
      * apply inv_retask with (tk := tk) (nc := nc); auto using quiet_nil.
        -- rewrite Hat. reflexivity.
        -- repeat split; simpl; auto; tauto.
      * eapply inv_replayed; eauto.
    + destruct (on_exception e tk) as [tk' evs] eqn:E. simpl.
      apply (inv_exception self ns nc tr tk tk tk' e
               [EvDeclareFailed Replay (channel tk) sub e] evs);
        auto using quiet_failed.
      rewrite Hat. reflexivity.
  - (* AwaitEnsureOpen *)
    destruct o as [|e].
    + destruct (_pending self) as [q|] eqn:Ep.
      * simpl. apply inv_retask with (tk := tk) (nc := nc); auto using quiet_nil.
        -- rewrite Hat. reflexivity.
        -- repeat split; simpl; auto. congruence.
      * destruct (on_exception AttributeError _) as [tk' evs] eqn:E. simpl.
        apply (inv_exception self ns nc tr tk
                 (mkTask false (conn tk) (channel tk) AwaitPending)
                 tk' AttributeError [] evs); auto using quiet_nil.
        rewrite Hat. reflexivity.
    + destruct (is_TimeoutError e).
      * simpl. apply inv_same; auto.
      * destruct (on_exception e tk) as [tk' evs] eqn:E. simpl.
        apply (inv_exception self ns nc tr tk tk tk' e [] evs);
          auto using quiet_nil.
        rewrite Hat. reflexivity.
  - (* AwaitPending *)
    destruct o as [|e].
    + destruct (_pending self) as [q|] eqn:Ep; [|simpl; apply inv_same; auto].
      destruct (Queue.pop q) as [[s q']|] eqn:Epop;
        [|simpl; apply inv_same; auto].
      simpl. eapply inv_dequeue; eauto.
    + destruct (is_TimeoutError e).
      * simpl. apply inv_retask with (tk := tk) (nc := nc); auto using quiet_nil.
        -- rewrite Hat. reflexivity.
        -- repeat split; simpl; auto; tauto.
      * destruct (on_exception e tk) as [tk' evs] eqn:E. simpl.
        apply (inv_exception self ns nc tr tk tk tk' e [] evs);
          auto using quiet_nil.
        rewrite Hat. reflexivity.
  - (* AwaitEnsureOpen2 *)
    destruct o as [|e].
    + simpl. apply inv_retask with (tk := tk) (nc := nc); auto using quiet_nil.
      * rewrite Hat. reflexivity.
      * repeat split; simpl; auto; tauto.
    + destruct (put_back self s e) as [[self' e'] evs] eqn:Ep.
      destruct (on_exception e' tk) as [tk' evs'] eqn:E. simpl.
      apply (inv_requeue self ns nc tr tk s e [] self' e' evs tk' evs');
        auto using quiet_nil.
      rewrite Hat. reflexivity.
  - (* AwaitDeclare *)
    destruct o as [|e].
    + destruct (next_stage st) as [st'|] eqn:Est; simpl.
      * apply inv_retask with (tk := tk) (nc := nc); auto using quiet_nil.
        -- rewrite Hat. reflexivity.
        -- repeat split; simpl; auto; tauto.
      * apply inv_declared; auto. rewrite Hat. reflexivity.
    + destruct (put_back self s e) as [[self' e'] evs] eqn:Ep.
      destruct (on_exception e' tk) as [tk' evs'] eqn:E. simpl.
      apply (inv_requeue self ns nc tr tk s e
               [EvDeclareFailed Drain (channel tk) s e]
               self' e' evs tk' evs'); auto using quiet_failed.
      rewrite Hat. reflexivity.
  - (* AwaitSleep *)
    destruct o as [|e]; simpl.
    + destruct (finally_idle Reconnect tk) as [F1 [F2 F3]].
      apply inv_retask with (tk := tk) (nc := nc); auto using quiet_nil.
      * rewrite Hat. apply flying_idle. exact F1.
      * apply task_ok_idle with (nc := nc) (tk := tk); auto.
        apply (inv_task _ _ HI). exact Htk.
    + destruct (finally_idle Leave tk) as [F1 [F2 F3]].
      apply inv_retask with (tk := tk) (nc := nc); auto using quiet_nil.
      * rewrite Hat. apply flying_idle. exact F1.
      * apply task_ok_idle with (nc := nc) (tk := tk); auto.
        apply (inv_task _ _ HI). exact Htk.
  - (* AwaitClose *)
    simpl. apply inv_retask with (tk := tk) (nc := nc); auto using quiet_nil.
    + rewrite Hat. destruct k; reflexivity.
    + apply task_ok_idle with (nc := nc) (tk := tk); auto.
      * destruct k; simpl; auto.
      * destruct k; reflexivity.
      * destruct k; reflexivity.
      * apply (inv_task _ _ HI). exact Htk.
  - (* Finished *)
    simpl. apply inv_same; auto.
Qed.

Lemma inv_step a sys tr :
  (a = Startup -> _pending (listener sys) = None) ->
  Inv sys tr -> Inv (fst (step a sys)) (tr ++ snd (step a sys)).
Proof.
  intros Ha HI. destruct a.
  - apply inv_set_loop; auto.
  - apply inv_startup; auto.
  - apply inv_subscribe; auto.
  - apply inv_resume; auto.
Qed.

(** ** The queue, step by step *)

Ltac break_match :=
  match goal with
  | H : (_, _) = (_, _) |- _ => inversion H; clear H; subst
  | H : Some _ = Some _ |- _ => inversion H; clear H; subst
  | H : None = Some _ |- _ => discriminate H
  | H : Some _ = None |- _ => discriminate H
  | H : context [match ?x with _ => _ end] |- _ => destruct x eqn:?
  | |- context [match ?x with _ => _ end] => destruct x eqn:?
  end.

Lemma lazy_listen_pending self : _pending (_lazy_listen self) = _pending self.
Proof. destruct (lazy_listen_spec self) as [E|[E _]]; rewrite E; auto. Qed.

(** What a step other than [startup] does to the pending queue: it stays
    unbounded, loses what the step dequeued at the head and gains what the
    step enqueued at the tail. *)
Lemma step_line a sys q :
  is_startup a = false ->
  _pending (listener sys) = Some q -> Queue.maxsize q = 0 ->
  exists q',
    _pending (listener (fst (step a sys))) = Some q' /\
    Queue.maxsize q' = 0 /\
    dequeued (snd (step a sys)) ++ Queue.items q'
    = Queue.items q ++ enqueued (snd (step a sys)).
Proof.
  intros Ha Hp Hm. destruct sys as [self ns nc]. simpl in *.
  destruct a; try discriminate; simpl.
  - exists q. rewrite app_nil_r. auto.
  - unfold subscribe. rewrite Hp, put_nowait_unbounded by auto. simpl.
    rewrite lazy_listen_pending. simpl. eexists. repeat split.
  - destruct (_task self) as [tk|] eqn:Htk;
      [|simpl; exists q; rewrite app_nil_r; auto].
    unfold _listen_step, put_back.
    destruct (at_ tk) eqn:Hat; rewrite ?Hp, ?put_nowait_unbounded by auto;
      unfold on_exception, Queue.pop;
      destruct q as [m items]; simpl in Hm; subst m; simpl;
      repeat (break_match; simpl in * );
      try (eexists; repeat split; simpl; rewrite ?app_nil_r; eauto; fail).
Qed.

Lemma step_unstarted a sys :
  is_startup a = false ->
  _pending (listener sys) = None ->
  _pending (listener (fst (step a sys))) = None.
Proof.
  intros Ha Hp. destruct sys as [self ns nc]. simpl in *.
  destruct a; try discriminate; simpl; auto.
  - unfold subscribe. rewrite Hp.
    destruct (_pending_pre_async self); simpl; auto.
    rewrite lazy_listen_pending. reflexivity.
  - destruct (_task self) as [tk|] eqn:Htk; simpl; auto.
    unfold _listen_step, put_back.
    destruct (at_ tk) eqn:Hat; rewrite ?Hp; unfold on_exception;
      repeat (break_match; simpl in * ); auto.
Qed.

Lemma startup_started sys :
  _pending (listener (fst (step Startup sys))) <> None.
Proof.
  destruct sys as [self ns nc]. simpl. unfold startup. simpl.
  destruct (_pending_pre_async self); simpl; try discriminate.
  destruct (put_all Queue.create l); simpl; try discriminate.
  rewrite lazy_listen_pending. discriminate.
Qed.

Lemma permitted_step a acts sys tr :
  Inv sys tr -> permitted sys (a :: acts) ->
  (a = Startup -> _pending (listener sys) = None) /\
  permitted (fst (step a sys)) acts.
Proof.
  intros HI Hp. unfold permitted in *.
  destruct (is_startup a) eqn:Ha.
  - destruct a; try discriminate. simpl in Hp.
    destruct (_pending (listener sys)) eqn:E; [discriminate|].
    split; auto.
    pose proof (startup_started sys) as Hs.
    destruct (_pending (listener (fst (step Startup sys)))); [|congruence].
    unfold startup_once in Hp. simpl in Hp.
    destruct (List.filter is_startup acts); auto. simpl in Hp. lia.
  - split; [intros ->; discriminate|].
    unfold startup_once in *. simpl in Hp. rewrite Ha in Hp.
    destruct (_pending (listener sys)) as [q|] eqn:E.
    + destruct (step_line a sys q Ha E (inv_unbounded _ _ HI q E))
        as [q' [E' _]].
      rewrite E'. exact Hp.
    + rewrite (step_unstarted a sys Ha E). exact Hp.
Qed.

Lemma inv_exec acts : forall sys tr,
  Inv sys tr -> permitted sys acts ->
  Inv (fst (exec acts sys)) (tr ++ snd (exec acts sys)).
Proof.
  induction acts as [|a acts IH]; intros sys tr HI Hp; simpl.
  - rewrite app_nil_r. exact HI.
  - destruct (permitted_step a acts sys tr HI Hp) as [Ha Hp'].
    pose proof (inv_step a sys tr Ha HI) as HI'.
    destruct (step a sys) as [sys1 e1]. simpl in *.
    specialize (IH sys1 (tr ++ e1) HI' Hp').
    destruct (exec acts sys1) as [sys2 e2]. simpl in *.
    rewrite app_assoc. exact IH.
Qed.

Lemma inv_reachable acts sys tr :
  startup_once acts -> exec acts init_system = (sys, tr) -> Inv sys tr.
Proof.
  intros Hs He.
  pose proof (inv_exec acts init_system [] inv_init Hs) as H.
  rewrite He in H. exact H.
Qed.

(** From any state whose queue exists, and as long as [startup] does not run
    again, the queue is first in, first out: what was dequeued, followed by
    what is queued, is what was queued followed by what was enqueued. *)
Lemma line_exec acts : forall sys q,
  List.filter is_startup acts = [] ->
  _pending (listener sys) = Some q -> Queue.maxsize q = 0 ->
  dequeued (snd (exec acts sys)) ++ queued (listener (fst (exec acts sys)))
  = Queue.items q ++ enqueued (snd (exec acts sys)).
Proof.
  induction acts as [|a acts IH]; intros sys q Hf Hp Hm; simpl.
  - unfold queued. rewrite Hp, app_nil_r. reflexivity.
  - simpl in Hf. destruct (is_startup a) eqn:Ha; [discriminate|].
    destruct (step_line a sys q Ha Hp Hm) as [q' [Hp' [Hm' Hl]]].
    destruct (step a sys) as [sys1 e1]. simpl in *.
    specialize (IH sys1 q' Hf Hp' Hm').
    destruct (exec acts sys1) as [sys2 e2]. simpl in *.
    rewrite dequeued_app, enqueued_app, <- app_assoc, IH.
    rewrite !app_assoc, Hl. reflexivity.
Qed.

(** ** Where subscriptions are *)

Lemma nodup_app_disjoint (l1 l2 : list nat) a :
  NoDup (l1 ++ l2) -> In a l1 -> ~ In a l2.
Proof.
  induction l1 as [|x l1 IH]; simpl; intros Hn Hin H2; [tauto|].
  inversion Hn; subst. destruct Hin as [->|Hin].
  - apply H1. apply in_or_app. auto.
  - apply IH; auto.
Qed.

Lemma nodup_map_in (l1 l2 : list Sub) s :
  NoDup (List.map id (l1 ++ l2)) -> In s l1 -> ~ In s l2.
Proof.
  rewrite map_app. intros Hn H1 H2.
  apply (nodup_app_disjoint _ _ (id s) Hn); apply in_map; assumption.
Qed.

(** C2, amended.  Along every schedule of [subscribe] calls, the one
    [startup] and resumptions of the loop (with any outcome of any await),
    the accepted subscriptions are exactly the ones in the pre-start list, in
    the pending queue, held by the loop while it declares them, and in the
    active list, each of them once.  Whenever the loop holds none, every
    accepted subscription is either pending and not active, or active and not
    pending. *)
Theorem accepted_subscription_is_in_exactly_one_place acts sys tr :
  startup_once acts ->
  exec acts init_system = (sys, tr) ->
  Permutation (subscribed tr)
              (holding (listener sys) ++ queued (listener sys)
               ++ in_flight (listener sys) ++ _subscriptions (listener sys)) /\
  NoDup (List.map id
           (holding (listener sys) ++ queued (listener sys)
            ++ in_flight (listener sys) ++ _subscriptions (listener sys))) /\
  (in_flight (listener sys) = [] ->
   forall s, In s (subscribed tr) ->
     let pending := holding (listener sys) ++ queued (listener sys) in
     let active := _subscriptions (listener sys) in
     (In s pending /\ ~ In s active) \/ (~ In s pending /\ In s active)).
Proof.
  intros Hs He. pose proof (inv_reachable acts sys tr Hs He) as HI.
  pose proof (inv_pool _ _ HI) as Hp. unfold pool in Hp.
  assert (Hn : NoDup (List.map id
           (holding (listener sys) ++ queued (listener sys)
            ++ in_flight (listener sys) ++ _subscriptions (listener sys)))).
  { eapply Permutation_NoDup; [|apply (inv_nodup _ _ HI)].
    apply Permutation_map. exact Hp. }
  split; [exact Hp|]. split; [exact Hn|].
  intros Hf s Hin pending active. rewrite Hf in *. simpl in *.
  rewrite app_assoc in Hp, Hn. fold pending in Hp, Hn. fold active in Hp, Hn.
  apply (Permutation_in _ Hp) in Hin. apply in_app_or in Hin as [Hin|Hin].
  - left. split; auto. eapply nodup_map_in; eauto.
  - right. split; auto. intros Hin'.
    eapply nodup_map_in; eauto.
Qed.

(** C7.  Along every schedule, on each channel the subscriptions replayed
    after the (re)connect are an initial part of the active list, in its
    order: two replays enumerate their common subscriptions in the same
    order.  And the pending queue is first in, first out: the subscriptions
    dequeued so far, followed by the ones still queued, are the ones that
    were put into the queue, in the order they were put. *)
Theorem replay_order_is_stable_and_queue_is_fifo acts sys tr :
  startup_once acts ->
  exec acts init_system = (sys, tr) ->
  (forall c, exists rest,
      _subscriptions (listener sys) = declared Replay c tr ++ rest) /\
  dequeued tr ++ queued (listener sys) = enqueued tr.
Proof.
  intros Hs He. pose proof (inv_reachable acts sys tr Hs He) as HI.
  split.
  - apply (inv_replay _ _ HI).
  - apply (inv_line _ _ HI).
Qed.

(** ** A failed declaration *)

Lemma exec_cons a acts sys :
  exec (a :: acts) sys
  = (fst (exec acts (fst (step a sys))),
     snd (step a sys) ++ snd (exec acts (fst (step a sys)))).
Proof.
  simpl. destruct (step a sys) as [sys1 e1]. simpl.
  destruct (exec acts sys1) as [sys2 e2]. reflexivity.
Qed.

Lemma subscribe_step sys q x r ty cb :
  _pending (listener sys) = Some q -> Queue.maxsize q = 0 ->
  let sub := create (next_sub sys) x r ty cb in
  let sys1 := fst (step (Subscribe x r ty cb) sys) in
  snd (step (Subscribe x r ty cb) sys) = [EvSubscribed sub; EvEnqueued sub] /\
  _pending (listener sys1) = Some (Queue.mk 0 (Queue.items q ++ [sub])) /\
  in_flight (listener sys1) = in_flight (listener sys) /\
  (in_flight (listener sys) <> [] ->
   _task (listener sys1) = _task (listener sys)).
Proof.
  intros Hp Hm sub sys1. unfold sys1. destruct sys as [self ns nc].
  simpl in *. unfold subscribe. rewrite Hp, put_nowait_unbounded by auto.
  simpl. rewrite lazy_listen_pending. simpl.
  split; [reflexivity|]. split; [reflexivity|].
  match goal with |- context [_lazy_listen ?x] =>
    destruct (lazy_listen_spec x) as [E|[E Hf]]; rewrite E end.
  - auto.
  - change (in_flight self = []) in Hf. rewrite Hf.
    split; [reflexivity|]. congruence.
Qed.

Lemma subscribes_only acts : forall sys q,
  forallb is_subscribe acts = true ->
  _pending (listener sys) = Some q -> Queue.maxsize q = 0 ->
  _pending (listener (fst (exec acts sys)))
  = Some (Queue.mk 0 (Queue.items q ++ subscribed (snd (exec acts sys)))) /\
  in_flight (listener (fst (exec acts sys))) = in_flight (listener sys) /\
  (in_flight (listener sys) <> [] ->
   _task (listener (fst (exec acts sys))) = _task (listener sys)).
Proof.
  induction acts as [|a acts IH]; intros sys q Ha Hp Hm.
  - simpl. rewrite app_nil_r. destruct q; simpl in *; subst. auto.
  - simpl in Ha. apply andb_true_iff in Ha as [Ha Hacts].
    destruct a; try discriminate.
    destruct (subscribe_step sys q exchange_name routing exchange_type
                on_message Hp Hm) as [He [Hp1 [Hf1 Ht1]]].
    rewrite exec_cons. cbn [fst snd].
    destruct (IH _ _ Hacts Hp1 eq_refl) as [IH1 [IH2 IH3]].
    rewrite IH1, IH2, Hf1, He. cbn [Queue.items].
    rewrite subscribed_app. cbn [subscribed].
    rewrite <- app_assoc. repeat split; auto.
    intros Hne. rewrite IH3, Ht1; auto. rewrite Hf1. exact Hne.
Qed.

(** C10.  While the loop is declaring a subscription [s] it took from the
    queue, any number of [subscribe] calls may come in.  When the
    declaration then fails, whatever the error, [s] goes to the tail of the
    queue, behind what was queued and behind those arrivals; and from then
    on, as long as [startup] does not run again, subscriptions leave the
    queue in that order, so [s] is taken again only after all of them. *)
Theorem failed_declaration_requeues_at_tail
        sys q s arrivals e later :
  in_flight (listener sys) = [s] ->
  _pending (listener sys) = Some q -> Queue.maxsize q = 0 ->
  forallb is_subscribe arrivals = true ->
  List.filter is_startup later = [] ->
  let sys1 := fst (exec arrivals sys) in
  let new := subscribed (snd (exec arrivals sys)) in
  let sys2 := fst (step (Resume (Raises e)) sys1) in
  queued (listener sys2) = Queue.items q ++ new ++ [s] /\
  in_flight (listener sys2) = [] /\
  dequeued (snd (exec later sys2)) ++ queued (listener (fst (exec later sys2)))
  = (Queue.items q ++ new ++ [s]) ++ enqueued (snd (exec later sys2)).
Proof.
  intros Hf Hp Hm Ha Hl sys1 new sys2.
  destruct (subscribes_only arrivals sys q Ha Hp Hm) as [Hp1 [Hf1 Htk1]].
  fold sys1 in Hp1, Hf1, Htk1. fold new in Hp1.
  assert (Hq : _pending (listener sys2)
               = Some (Queue.mk 0 (Queue.items q ++ new ++ [s])) /\
               in_flight (listener sys2) = []).
  { unfold sys2. destruct sys1 as [self1 ns1 nc1]. simpl in *.
    rewrite Hf in Hf1. unfold in_flight in Hf1.
    destruct (_task self1) as [tk|] eqn:Htk; [|discriminate].
    unfold _listen_step, put_back.
    destruct (at_ tk) eqn:Hat; try discriminate; inversion Hf1; subst;
      rewrite Hp1, put_nowait_unbounded by reflexivity; simpl;
      destruct (on_exception_spec e tk (fst (on_exception e tk))
                  (snd (on_exception e tk)))
        as [Hi _]; try (destruct (on_exception e tk); reflexivity);
      destruct (on_exception e tk) as [tk' evs']; simpl in *;
      rewrite <- app_assoc; split; auto;
      unfold in_flight; simpl; apply flying_idle; exact Hi. }
  destruct Hq as [Hq Hfl]. split; [|split].
  - unfold queued. rewrite Hq. reflexivity.
  - exact Hfl.
  - apply (line_exec later sys2 _ Hl Hq eq_refl).
Qed.

(** ** Replay, then drain *)

Lemma pays_down x tr : pays None tr -> pays x tr.
Proof.
  induction tr as [|e tr IH]; simpl; auto.
  destruct e; auto; try tauto.
  destruct w; auto; tauto.
Qed.

Lemma pays_enqueued x l tr : pays x tr -> pays x (List.map EvEnqueued l ++ tr).
Proof. induction l; simpl; auto. Qed.

Lemma owes_lazy_listen self : owes (_lazy_listen self) = owes self.
Proof.
  unfold _lazy_listen.
  destruct (app_loop self); simpl; auto.
  unfold owes, done.
  destruct (_task self) as [tk|] eqn:Htk; simpl.
  - destruct (at_ tk) eqn:Hat; simpl; rewrite ?Htk, ?Hat; auto.
    match goal with |- context [if ?b then _ else _] => destruct b end;
      simpl; rewrite ?Htk, ?Hat; auto.
  - match goal with |- context [if ?b then _ else _] => destruct b end;
      simpl; rewrite ?Htk; auto.
Qed.

Lemma skipn_nth_error (l : list Sub) i x :
  List.nth_error l i = Some x -> skipn i l = x :: skipn (S i) l.
Proof.
  revert i. induction l as [|y l IH]; intros [|i] H; simpl in *;
    try discriminate.
  - inversion H; reflexivity.
  - apply IH. exact H.
Qed.

Lemma skipn_past (l : list Sub) i :
  List.nth_error l i = None -> skipn i l = [].
Proof.
  intros H. apply skipn_all2. apply nth_error_None. exact H.
Qed.

Lemma pays_step a sys tr :
  pays (owes (listener (fst (step a sys)))) tr ->
  pays (owes (listener sys)) (snd (step a sys) ++ tr).
Proof.
  destruct sys as [self ns nc]. destruct a; simpl.
  - auto.
  - unfold startup. simpl.
    destruct (_pending_pre_async self) as [l|]; simpl; auto.
    destruct (put_all Queue.create l); simpl; auto.
    rewrite owes_lazy_listen. intros H. apply pays_enqueued. exact H.
  - unfold subscribe.
    destruct (_pending self) as [q|].
    + destruct (Queue.put_nowait q _); simpl; auto.
      rewrite owes_lazy_listen. auto.
    + destruct (_pending_pre_async self); simpl; auto.
      rewrite owes_lazy_listen. auto.
  - destruct (_task self) as [tk|] eqn:Htk; simpl; auto.
    unfold owes at 2. rewrite Htk.
    unfold _listen_step.
    destruct (at_ tk) eqn:Hat;
      try solve
        [ unfold put_back, on_exception, finally_, after_finally,
            replay_from, Queue.pop, Queue.put_nowait, set_at, set_task,
            set_pending, owes; simpl;
          repeat (break_match; simpl in *; try discriminate);
          auto using pays_down ].
    (* AwaitReplay *)
    destruct (List.nth_error (_subscriptions self) i) as [sub|] eqn:En.
    + destruct o as [|e].
      * destruct (next_stage st); simpl.
        -- unfold owes. simpl. auto.
        -- rewrite (skipn_nth_error _ _ _ En).
           cbn -[nth_error skipn].
           intros H. split; [reflexivity|]. split; [reflexivity|].
           revert H. unfold owes, replay_from. cbn -[nth_error skipn].
           destruct (List.nth_error (_subscriptions self) (S i)) eqn:En';
             cbn -[nth_error skipn]; auto.
           rewrite (skipn_past _ _ En'). auto.
      * unfold on_exception, finally_, after_finally, set_at, owes.
        repeat (break_match; simpl in *; try discriminate);
          auto using pays_down.
    + simpl. unfold owes. simpl. rewrite Hat. auto.
Qed.

Lemma pays_exec acts : forall sys,
  pays (owes (listener sys)) (snd (exec acts sys)).
Proof.
  induction acts as [|a acts IH]; intros sys.
  - exact I.
  - rewrite exec_cons. simpl. apply pays_step. apply IH.
Qed.

(** Paying what is owed means: whenever something is dequeued before the
    next connect, what was replayed until then is all that was owed. *)
Lemma pays_split s post : forall mid c l,
  pays (Some (c, l)) (mid ++ EvDequeued s :: post) ->
  existsb is_connected mid = false ->
  declared Replay c mid = l.
Proof.
  induction mid as [|e mid IH]; intros c l Hp Hc; simpl in *.
  - destruct l; tauto.
  - apply orb_false_iff in Hc as [He Hc].
    destruct e; simpl in *; try discriminate; auto.
    + destruct l; [|tauto]. auto.
    + destruct w; simpl; auto.
      destruct l as [|y l]; [tauto|].
      destruct Hp as [-> [-> Hp]]. rewrite chan_eqb_refl.
      f_equal. auto.
Qed.

(** C1.  Take any state and a resumption of the loop that opens the channel
    of a new session (the step that logs [Connected]), and any continuation
    of subscribe calls and resumptions, with any outcomes.  Whenever a
    subscription is taken from the pending queue before the next connect,
    the declarations replayed on the channel of the session until then are
    exactly the active list as it was at the connect, in its order. *)
Theorem replay_precedes_drain sys o sys1 c acts mid s post :
  step (Resume o) sys = (sys1, [EvConnected c]) ->
  snd (exec acts sys1) = mid ++ EvDequeued s :: post ->
  existsb is_connected mid = false ->
  declared Replay c mid = _subscriptions (listener sys1).
Proof.
  intros Hstep Hex Hc.
  apply pays_split with (s := s) (post := post); auto.
  rewrite <- Hex.
  assert (Ho : owes (listener sys1)
               = Some (c, _subscriptions (listener sys1))).
  { destruct sys as [self ns nc]. simpl in Hstep.
    destruct (_task self) as [tk|] eqn:Htk; [|discriminate].
    unfold _listen_step in Hstep.
    destruct (at_ tk) eqn:Hat;
      try solve
        [ unfold put_back, on_exception, finally_, after_finally,
            replay_from, Queue.pop, Queue.put_nowait, set_at, set_task,
            set_pending, owes in *; simpl in *;
          repeat (break_match; simpl in *; try discriminate) ].
    destruct o as [|e].
    - inversion Hstep; subst; clear Hstep. unfold owes, replay_from. simpl.
      destruct (_subscriptions self) eqn:Es; simpl; rewrite ?Es; auto.
    - unfold on_exception in Hstep.
      repeat (break_match; simpl in *; try discriminate). }
  rewrite <- Ho. apply pays_exec.
Qed.

End ListenerProperties.

(** A subscription made before [startup], declared, and active. *)
Lemma accepted_subscription_is_in_exactly_one_place_witness :
  let sys := fst (EventListener.exec Scenario.until_active
                    EventListener.init_system) in
  let tr := snd (EventListener.exec Scenario.until_active
                   EventListener.init_system) in
  let self := EventListener.listener sys in
  EventListener._subscriptions self = [Scenario.sub0] /\
  Permutation (EventListener.subscribed tr)
              (EventListener.holding self ++ EventListener.queued self
               ++ EventListener.in_flight self
               ++ EventListener._subscriptions self) /\
  NoDup (List.map EventSubscription.id
           (EventListener.holding self ++ EventListener.queued self
            ++ EventListener.in_flight self
            ++ EventListener._subscriptions self)) /\
  (EventListener.in_flight self = [] ->
   forall s, In s (EventListener.subscribed tr) ->
     let pending := EventListener.holding self ++ EventListener.queued self in
     let active := EventListener._subscriptions self in
     (In s pending /\ ~ In s active) \/ (~ In s pending /\ In s active)).
Proof.
  intros sys tr self. split; [vm_compute; reflexivity|].
  apply (accepted_subscription_is_in_exactly_one_place
           Scenario.until_active sys tr).
  - unfold EventListener.startup_once. vm_compute. lia.
  - vm_compute. reflexivity.
Defined.

(** C2 as stated, refuted: between the moment the loop takes a subscription
    from the queue and the moment its declaration completes, the
    subscription is in the loop's local variable only: it is accepted, and
    it is neither in the pre-start list, nor in the queue, nor in the active
    list. *)
Lemma dequeued_subscription_is_neither_pending_nor_active :
  let sys := fst (EventListener.exec Scenario.until_dequeue
                    EventListener.init_system) in
  let tr := snd (EventListener.exec Scenario.until_dequeue
                   EventListener.init_system) in
  let self := EventListener.listener sys in
  EventListener.startup_once Scenario.until_dequeue /\
  In Scenario.sub0 (EventListener.subscribed tr) /\
  EventListener.holding self = [] /\
  EventListener.queued self = [] /\
  EventListener._subscriptions self = [] /\
  EventListener.in_flight self = [Scenario.sub0].
Proof.
  intros sys tr self. split.
  - unfold EventListener.startup_once. vm_compute. lia.
  - vm_compute. repeat split. left. reflexivity.
Qed.

(** Two sessions: the active subscription is replayed on the second one, and
    the second subscription is taken from the queue after it. *)
Lemma replay_order_is_stable_and_queue_is_fifo_witness :
  let acts := Scenario.until_reconnect
                ++ Scenario.ok :: Scenario.replay_and_dequeue in
  let sys := fst (EventListener.exec acts EventListener.init_system) in
  let tr := snd (EventListener.exec acts EventListener.init_system) in
  EventListener.declared EventListener.Replay (Some 1) tr = [Scenario.sub0] /\
  EventListener.dequeued tr = [Scenario.sub0; Scenario.sub1] /\
  (forall c, exists rest,
      EventListener._subscriptions (EventListener.listener sys)
      = EventListener.declared EventListener.Replay c tr ++ rest) /\
  EventListener.dequeued tr
    ++ EventListener.queued (EventListener.listener sys)
  = EventListener.enqueued tr.
Proof.
  intros acts sys tr.
  split; [vm_compute; reflexivity|]. split; [vm_compute; reflexivity|].
  apply (replay_order_is_stable_and_queue_is_fifo acts sys tr).
  - unfold EventListener.startup_once. vm_compute. lia.
  - vm_compute. reflexivity.
Defined.

(** The first subscription is being declared when a second one arrives; the
    declaration fails, and the loop goes on: the second subscription is
    taken before the first is taken again. *)
Lemma failed_declaration_requeues_at_tail_witness :
  let sys := fst (EventListener.exec Scenario.until_dequeue
                    EventListener.init_system) in
  let e := AioamqpException "declare" in
  let later := List.repeat Scenario.ok 7 in
  let sys1 := fst (EventListener.exec [Scenario.call] sys) in
  let new := EventListener.subscribed
               (snd (EventListener.exec [Scenario.call] sys)) in
  let sys2 := fst (EventListener.step (EventListener.Resume (Raises e))
                     sys1) in
  new = [Scenario.sub1] /\
  EventListener.dequeued (snd (EventListener.exec later sys2))
  = [Scenario.sub1] /\
  EventListener.queued (EventListener.listener sys2)
  = [] ++ new ++ [Scenario.sub0] /\
  EventListener.in_flight (EventListener.listener sys2) = [] /\
  EventListener.dequeued (snd (EventListener.exec later sys2))
    ++ EventListener.queued
         (EventListener.listener (fst (EventListener.exec later sys2)))
  = ([] ++ new ++ [Scenario.sub0])
    ++ EventListener.enqueued (snd (EventListener.exec later sys2)).
Proof.
  intros sys e later sys1 new sys2.
  split; [vm_compute; reflexivity|]. split; [vm_compute; reflexivity|].
  apply (failed_declaration_requeues_at_tail
           sys (Queue.mk 0 []) Scenario.sub0 [Scenario.call] e later);
    vm_compute; reflexivity.
Defined.

(** The second session of the scenario: its channel opens with one active
    subscription, which is replayed before the queue is touched. *)
Lemma replay_precedes_drain_witness :
  let sys := fst (EventListener.exec Scenario.until_reconnect
                    EventListener.init_system) in
  let sys1 := fst (EventListener.step (EventListener.Resume Returns) sys) in
  EventListener.declared EventListener.Replay (Some 1)
    [EventListener.EvDeclared EventListener.Replay (Some 1) Scenario.sub0]
  = EventListener._subscriptions (EventListener.listener sys1).
Proof.
  intros sys sys1.
  apply (replay_precedes_drain sys Returns sys1 (Some 1)
           Scenario.replay_and_dequeue
           [EventListener.EvDeclared EventListener.Replay (Some 1)
              Scenario.sub0]
           Scenario.sub1 []);
    vm_compute; reflexivity.
Defined.

(* ====================================================================== *)
(** * Properties of the JSON codec *)
(* ====================================================================== *)

Section JsonProperties.

Import Json.
Local Open Scope N_scope.

Implicit Types (s t r rest : str) (v : value) (c : N).

(** ** Checking a property of all code units *)

Lemma all_below_spec f k :
  all_below f k = true -> forall n, n < k -> f n = true.
Proof.
  unfold all_below.
  set (g := fun p : N * bool => (N.succ (fst p), snd p && f (fst p))).
  assert (H : forall k,
             fst (N.iter k g (0, true)) = k /\
             (snd (N.iter k g (0, true)) = true ->
              forall n, n < k -> f n = true)).
  { clear k. intros k. induction k as [|k [IH1 IH2]] using N.peano_ind.
    - simpl. split; auto. intros _ n Hn. lia.
    - rewrite N.iter_succ. unfold g at 1 3. simpl. rewrite IH1.
      split; auto. intros Hb n Hn. apply andb_true_iff in Hb as [Hb1 Hb2].
      destruct (N.eq_dec n k) as [->|Hne]; auto. apply IH2; auto. lia. }
  apply H.
Qed.

(** ** Strings *)

Lemma decode_u_escape n :
  n < 65536 ->
  decode_uXXXX (hex_digit (n / 4096 mod 16)) (hex_digit (n / 256 mod 16))
               (hex_digit (n / 16 mod 16)) (hex_digit (n mod 16))
  = Some n.
Proof.
  intros Hn.
  assert (H : all_below
                (fun n =>
                   match decode_uXXXX (hex_digit (n / 4096 mod 16))
                                      (hex_digit (n / 256 mod 16))
                                      (hex_digit (n / 16 mod 16))
                                      (hex_digit (n mod 16)) with
                   | Some m => m =? n
                   | None => false
                   end) 65536 = true) by (vm_compute; reflexivity).
  pose proof (all_below_spec _ _ H n Hn) as Hc. simpl in Hc.
  destruct (decode_uXXXX _ _ _ _) as [m|]; [|discriminate].
  apply N.eqb_eq in Hc. congruence.
Qed.

Lemma scalar_cases c :
  scalar c = true -> c < 55296 \/ (57343 < c /\ c < 1114112).
Proof.
  unfold scalar. intros H. apply orb_true_iff in H as [H|H].
  - left. apply N.ltb_lt. exact H.
  - right. apply andb_true_iff in H as [H1 H2].
    split; apply N.ltb_lt; assumption.
Qed.

Lemma surrogate_pair c :
  65536 <= c -> c < 1114112 ->
  let hi := 55296 + ((c - 65536) / 1024) mod 1024 in
  let lo := 56320 + (c - 65536) mod 1024 in
  hi < 65536 /\ lo < 65536 /\ is_high hi = true /\ is_low lo = true /\
  65536 + ((hi - 55296) * 1024 + (lo - 56320)) = c.
Proof.
  intros H1 H2 hi lo.
  assert (Hd : (c - 65536) / 1024 < 1024)
    by (apply N.Div0.div_lt_upper_bound; lia).
  assert (Hm : (c - 65536) mod 1024 < 1024) by (apply N.mod_lt; lia).
  assert (Hs : ((c - 65536) / 1024) mod 1024 = (c - 65536) / 1024)
    by (apply N.mod_small; exact Hd).
  pose proof (N.div_mod (c - 65536) 1024) as Hdm.
  unfold hi, lo, is_high, is_low. rewrite Hs.
  generalize dependent ((c - 65536) / 1024).
  generalize dependent ((c - 65536) mod 1024).
  intros m Hm q Hq _ Hdm.
  repeat split; try lia.
  - apply andb_true_iff. split; apply N.leb_le; lia.
  - apply andb_true_iff. split; apply N.leb_le; lia.
Qed.

Lemma scanstring_u_escape n s :
  n < 65536 -> is_high n = false ->
  scanstring (u_escape n ++ s)
  = match scanstring s with
    | Some (t, r) => Some (n :: t, r)
    | None => None
    end.
Proof.
  intros Hn Hh. pose proof (decode_u_escape n Hn) as Hd. unfold u_escape.
  generalize dependent (hex_digit (n / 4096 mod 16)).
  generalize dependent (hex_digit (n / 256 mod 16)).
  generalize dependent (hex_digit (n / 16 mod 16)).
  generalize dependent (hex_digit (n mod 16)).
  intros h0 h1 h2 h3 Hd. simpl app. cbn [scanstring].
  change (92 =? 34) with false. change (92 =? 92) with true.
  change (117 =? 117) with true. cbv iota.
  rewrite Hd, Hh. reflexivity.
Qed.

Lemma scanstring_pair hi lo s :
  hi < 65536 -> lo < 65536 -> is_high hi = true -> is_low lo = true ->
  scanstring (u_escape hi ++ u_escape lo ++ s)
  = match scanstring s with
    | Some (t, r) =>
        Some (65536 + ((hi - 55296) * 1024 + (lo - 56320)) :: t, r)
    | None => None
    end.
Proof.
  intros Hhi Hlo Hh Hl.
  pose proof (decode_u_escape hi Hhi) as Hd1.
  pose proof (decode_u_escape lo Hlo) as Hd2. unfold u_escape.
  generalize dependent (hex_digit (hi / 4096 mod 16)).
  generalize dependent (hex_digit (hi / 256 mod 16)).
  generalize dependent (hex_digit (hi / 16 mod 16)).
  generalize dependent (hex_digit (hi mod 16)).
  generalize dependent (hex_digit (lo / 4096 mod 16)).
  generalize dependent (hex_digit (lo / 256 mod 16)).
  generalize dependent (hex_digit (lo / 16 mod 16)).
  generalize dependent (hex_digit (lo mod 16)).
  intros l0 l1 l2 l3 Hd2 h0 h1 h2 h3 Hd1. simpl app. cbn [scanstring].
  change (92 =? 34) with false. change (92 =? 92) with true.
  change (117 =? 117) with true. cbv iota.
  rewrite Hd1, Hh. simpl andb. cbv iota. rewrite Hd2, Hl. reflexivity.
Qed.

Lemma scalar_not_high c : scalar c = true -> is_high c = false.
Proof.
  intros H. apply scalar_cases in H. unfold is_high.
  apply andb_false_iff.
  destruct H as [H|[H _]]; [left|right]; apply N.leb_gt; lia.
Qed.

(** After the escaped form of a scalar value, [scanstring] goes on with what
    follows and puts the value in front of what it finds there. *)
Lemma scanstring_escape_char c s :
  scalar c = true ->
  scanstring (escape_char c ++ s)
  = match scanstring s with
    | Some (t, r) => Some (c :: t, r)
    | None => None
    end.
Proof.
  intros Hc. pose proof (scalar_not_high c Hc) as Hh.
  apply scalar_cases in Hc. unfold escape_char.
  destruct (N.eqb_spec c 34) as [->|H34]; [reflexivity|].
  destruct (N.eqb_spec c 92) as [->|H92]; [reflexivity|].
  destruct (N.eqb_spec c 10) as [->|H10]; [reflexivity|].
  destruct (N.eqb_spec c 13) as [->|H13]; [reflexivity|].
  destruct (N.eqb_spec c 9) as [->|H9]; [reflexivity|].
  destruct (N.eqb_spec c 8) as [->|H8]; [reflexivity|].
  destruct (N.eqb_spec c 12) as [->|H12]; [reflexivity|].
  destruct (N.leb_spec 32 c) as [H32|H32];
    [destruct (N.leb_spec c 126) as [H126|H126]|]; simpl andb; cbv iota.
  - (* printable *)
    simpl app. cbn [scanstring].
    destruct (N.eqb_spec c 34); [contradiction|].
    destruct (N.eqb_spec c 92); [contradiction|].
    destruct (N.ltb_spec c 32); [lia|]. reflexivity.
  - (* above the printable range *)
    destruct (N.ltb_spec c 65536) as [Hb|Hb].
    + apply scanstring_u_escape; assumption.
    + destruct (surrogate_pair c) as [P1 [P2 [P3 [P4 P5]]]]; try lia.
      cbv zeta. rewrite <- app_assoc.
      rewrite scanstring_pair by assumption. rewrite P5. reflexivity.
  - (* below the printable range *)
    destruct (N.ltb_spec c 65536); [|lia].
    apply scanstring_u_escape; [lia|assumption].
Qed.

Lemma scanstring_escaped s rest :
  text_ok s = true ->
  scanstring (List.flat_map escape_char s ++ 34 :: rest) = Some (s, rest).
Proof.
  induction s as [|c s IH]; simpl; intros H.
  - reflexivity.
  - apply andb_true_iff in H as [Hc Hs].
    rewrite <- app_assoc, scanstring_escape_char by assumption.
    rewrite IH by assumption. reflexivity.
Qed.

(** ** Integers *)

Lemma delim_no_digit rest :
  delim rest ->
  match rest with c :: _ => digit_of c = None | [] => True end.
Proof.
  destruct rest as [|c rest]; simpl; auto.
  intros [-> | [-> | ->]]; reflexivity.
Qed.

Lemma delim_no_float rest : delim rest -> float_follows rest = false.
Proof.
  destruct rest as [|c rest]; simpl; auto.
  intros [-> | [-> | ->]]; reflexivity.
Qed.

Lemma delim_skip_ws rest : delim rest -> skip_ws rest = rest.
Proof.
  destruct rest as [|c rest]; simpl; auto.
  intros [-> | [-> | ->]]; reflexivity.
Qed.

Lemma span_digits_uint_chars u rest :
  match rest with c :: _ => digit_of c = None | [] => True end ->
  span_digits (uint_chars u ++ rest) = (u, rest).
Proof.
  intros Hr. induction u; simpl;
    try (change (digit_of 48) with (Some Decimal.D0);
         change (digit_of 49) with (Some Decimal.D1);
         change (digit_of 50) with (Some Decimal.D2);
         change (digit_of 51) with (Some Decimal.D3);
         change (digit_of 52) with (Some Decimal.D4);
         change (digit_of 53) with (Some Decimal.D5);
         change (digit_of 54) with (Some Decimal.D6);
         change (digit_of 55) with (Some Decimal.D7);
         change (digit_of 56) with (Some Decimal.D8);
         change (digit_of 57) with (Some Decimal.D9);
         cbv iota beta; rewrite IHu; reflexivity).
  destruct rest as [|c rest]; simpl; auto. rewrite Hr. reflexivity.
Qed.

Lemma to_uint_no_leading_zero p u : Pos.to_uint p <> Decimal.D0 u.
Proof.
  intros E.
  pose proof (DecimalPos.Unsigned.to_of (Pos.to_uint p)) as H.
  rewrite DecimalPos.Unsigned.of_to in H. simpl in H.
  rewrite E, DecimalFacts.unorm_D0 in H.
  unfold Decimal.unorm in H.
  destruct (Decimal.nzhead u) eqn:En.
  - inversion H; subst.
    apply (DecimalPos.Unsigned.to_uint_nonzero p). exact E.
  - apply (DecimalFacts.nzhead_nonzero u u). congruence.
  - discriminate. - discriminate. - discriminate. - discriminate.
  - discriminate. - discriminate. - discriminate. - discriminate.
  - discriminate.
Qed.

Lemma scan_number_pos p rest :
  delim rest ->
  scan_number (uint_chars (Pos.to_uint p) ++ rest)
  = Some (VInt (Zpos p), rest) /\
  scan_number (45 :: uint_chars (Pos.to_uint p) ++ rest)
  = Some (VInt (Zneg p), rest).
Proof.
  intros Hd.
  pose proof (DecimalPos.Unsigned.of_to p) as Hof.
  pose proof (to_uint_no_leading_zero p) as Hz.
  pose proof (DecimalPos.Unsigned.to_uint_nonnil p) as Hn.
  destruct (Pos.to_uint p) as [|u|u|u|u|u|u|u|u|u|u] eqn:E;
    try congruence; try (exfalso; apply (Hz u); reflexivity);
    unfold scan_number; simpl;
    rewrite (span_digits_uint_chars u rest (delim_no_digit rest Hd));
    rewrite (delim_no_float rest Hd);
    unfold N.of_uint; rewrite Hof; split; reflexivity.
Qed.

Lemma scan_number_int z rest :
  delim rest -> scan_number (int_repr z ++ rest) = Some (VInt z, rest).
Proof.
  intros Hd. destruct z as [|p|p].
  - unfold scan_number. simpl. rewrite (delim_no_float rest Hd).
    reflexivity.
  - apply scan_number_pos. exact Hd.
  - apply scan_number_pos. exact Hd.
Qed.

(** ** Values *)

Lemma dumps_list l : dumps (VList l) = [91] ++ dumps_items l ++ [93].
Proof. reflexivity. Qed.

Lemma dumps_dict d : dumps (VDict d) = [123] ++ dumps_pairs d ++ [125].
Proof. reflexivity. Qed.

Lemma payload_ok_list l : payload_ok (VList l) = payload_ok_items l.
Proof. reflexivity. Qed.

Lemma payload_ok_dict d :
  payload_ok (VDict d)
  = List.forallb str_key (List.map fst d) && distinct (List.map fst d)
    && payload_ok_items (List.map snd d).
Proof.
  cbn [payload_ok]. f_equal.
  induction d as [|[k x] d IH]; [reflexivity|].
  cbn [List.map snd payload_ok_items]. rewrite <- IH. reflexivity.
Qed.

(** Induction on values that goes through lists and dicts. *)
Lemma value_ind_nested (P : value -> Prop) :
  P VNone -> (forall b, P (VBool b)) -> (forall z, P (VInt z)) ->
  (forall s, P (VStr s)) ->
  (forall l, Forall P l -> P (VList l)) ->
  (forall d, Forall P (List.map snd d) -> P (VDict d)) ->
  forall v, P v.
Proof.
  intros HN HB HI HS HL HD. fix IH 1. intros [|b|z|s|l|d].
  - exact HN.
  - apply HB.
  - apply HI.
  - apply HS.
  - apply HL. revert l. fix IHl 1. intros [|x l]; constructor.
    + apply IH.
    + apply IHl.
  - apply HD. revert d. fix IHd 1. intros [|[k x] d]; constructor.
    + apply IH.
    + apply IHd.
Qed.

Lemma size_list l : size (VList l) = S (size_items l).
Proof. reflexivity. Qed.

Lemma size_dict d : size (VDict d) = S (size_items (List.map snd d)).
Proof.
  cbn [size]. f_equal.
  induction d as [|[k x] d IH]; [reflexivity|].
  cbn [List.map snd size_items]. rewrite <- IH. reflexivity.
Qed.

Lemma opens_app s t : opens s -> opens (s ++ t).
Proof. destruct s; simpl; tauto. Qed.

Lemma opens_skip_ws s : opens s -> skip_ws s = s.
Proof.
  destruct s as [|c s]; simpl; [tauto|]. intros [H _]. rewrite H. auto.
Qed.

Lemma uint_chars_number u :
  u <> Decimal.Nil ->
  exists c t, uint_chars u = c :: t /\ 48 <= c <= 57.
Proof.
  destruct u; intros H; try congruence; simpl; eexists; eexists;
    (split; [reflexivity|lia]).
Qed.

Lemma int_repr_number z :
  exists c t, int_repr z = c :: t /\ (c = 45 \/ 48 <= c <= 57).
Proof.
  destruct z as [|p|p]; simpl.
  - exists 48, []. split; auto. right. lia.
  - destruct (uint_chars_number (Pos.to_uint p)
                (DecimalPos.Unsigned.to_uint_nonnil p)) as [c [t [E H]]].
    exists c, t. auto.
  - eexists; eexists. split; [reflexivity|]. auto.
Qed.

Lemma opens_dumps v : opens (dumps v).
Proof.
  destruct v as [|[|]|z|s|l|d]; simpl;
    try (repeat split; try reflexivity; intro; discriminate).
  destruct (int_repr_number z) as [c [t [E H]]]. rewrite E. simpl.
  unfold is_ws.
  destruct (N.eqb_spec c 32), (N.eqb_spec c 9), (N.eqb_spec c 10),
    (N.eqb_spec c 13); simpl; repeat split; try lia.
Qed.

Lemma opens_encode_basestring s t : opens (encode_basestring_ascii s ++ t).
Proof.
  unfold encode_basestring_ascii. simpl.
  repeat split; try reflexivity; intro; discriminate.
Qed.

Lemma starts_with_other p0 p c t :
  c <> p0 -> starts_with (p0 :: p) (c :: t) = None.
Proof.
  intros H. unfold starts_with, str_eqb. cbn [List.length firstn].
  destruct (list_eq_dec N.eq_dec (c :: firstn (List.length p) t) (p0 :: p))
    as [E|E]; [|reflexivity].
  inversion E. contradiction.
Qed.

Lemma scan_once_number f c t :
  c = 45 \/ 48 <= c <= 57 ->
  scan_once (S f) (c :: t) = scan_number (c :: t).
Proof.
  intros H. cbn [scan_once].
  destruct (N.eqb_spec c 34); [lia|].
  destruct (N.eqb_spec c 123); [lia|].
  destruct (N.eqb_spec c 91); [lia|].
  change (text "null") with [110; 117; 108; 108].
  change (text "true") with [116; 114; 117; 101].
  change (text "false") with [102; 97; 108; 115; 101].
  rewrite !starts_with_other by lia. reflexivity.
Qed.

Lemma delim_comma t : delim (44 :: t).
Proof. simpl. auto. Qed.

Lemma delim_bracket t : delim (93 :: t).
Proof. simpl. auto. Qed.

Lemma delim_brace t : delim (125 :: t).
Proof. simpl. auto. Qed.

Lemma opens_dumps_items l t : l <> [] -> opens (dumps_items l ++ t).
Proof.
  destruct l as [|x l]; [congruence|]. intros _. simpl.
  rewrite <- app_assoc. apply opens_app, opens_dumps.
Qed.

Lemma opens_dumps_pairs d t : d <> [] -> opens (dumps_pairs d ++ t).
Proof.
  destruct d as [|[k x] d]; [congruence|]. intros _. simpl.
  repeat split; try reflexivity; intro; discriminate.
Qed.

Lemma scan_items_dumps l :
  Forall scans l -> l <> [] -> payload_ok_items l = true ->
  forall fuel rest,
    (size_items l <= fuel)%nat ->
    scan_items fuel (dumps_items l ++ 93 :: rest) = Some (l, rest).
Proof.
  induction 1 as [|x l Hx Hl IH]; [congruence|].
  intros _ Hok fuel rest Hf. simpl in Hok, Hf.
  apply andb_true_iff in Hok as [Hokx Hokl].
  destruct fuel as [|f]; [lia|]. cbn [scan_items dumps_items].
  rewrite <- app_assoc.
  destruct l as [|y l].
  - simpl app. rewrite (Hx Hokx f (93 :: rest)); [|lia|apply delim_bracket].
    reflexivity.
  - set (l' := y :: l) in *.
    change (([44; 32] ++ dumps_items l') ++ 93 :: rest)
      with (44 :: 32 :: dumps_items l' ++ 93 :: rest).
    rewrite (Hx Hokx f (44 :: 32 :: dumps_items l' ++ 93 :: rest));
      [|lia|apply delim_comma].
    cbn [skip_ws is_ws N.eqb Pos.eqb orb].
    change (is_ws 44) with false. cbv iota.
    change (44 =? 93) with false. change (44 =? 44) with true. cbv iota.
    change (skip_ws (32 :: dumps_items l' ++ 93 :: rest))
      with (skip_ws (dumps_items l' ++ 93 :: rest)).
    rewrite opens_skip_ws by (apply opens_dumps_items; discriminate).
    rewrite IH; auto; try discriminate. lia.
Qed.

Lemma scan_pairs_dumps d :
  Forall scans (List.map snd d) -> d <> [] ->
  List.forallb str_key (List.map fst d) = true ->
  payload_ok_items (List.map snd d) = true ->
  forall fuel rest,
    (size_items (List.map snd d) <= fuel)%nat ->
    scan_pairs fuel (dumps_pairs d ++ 125 :: rest)
    = Some (List.map (fun kv => (key_str (fst kv), snd kv)) d, rest).
Proof.
  induction d as [|[k x] d IH]; [congruence|].
  intros Hall _ Hkeys Hok fuel rest Hf. simpl in Hall, Hkeys, Hok, Hf.
  inversion Hall as [|? ? Hx Hd]; subst.
  apply andb_true_iff in Hok as [Hokx Hokd].
  apply andb_true_iff in Hkeys as [Hk Hkeys].
  destruct k as [ks|]; [|discriminate]. simpl in Hk.
  destruct fuel as [|f]; [lia|].
  cbn [dumps_pairs key_str List.map fst snd].
  set (more := match d with
               | [] => []
               | _ :: _ => [44; 32] ++ dumps_pairs d
               end).
  assert (E : (encode_basestring_ascii ks ++ [58; 32] ++ dumps x ++ more)
              ++ 125 :: rest
              = 34 :: List.flat_map escape_char ks
                   ++ 34 :: 58 :: 32 :: dumps x ++ more ++ 125 :: rest).
  { unfold encode_basestring_ascii. repeat rewrite <- app_assoc.
    reflexivity. }
  rewrite E. clear E. cbn [scan_pairs].
  change (34 =? 34) with true. cbv iota.
  rewrite scanstring_escaped by assumption.
  change (skip_ws (58 :: 32 :: dumps x ++ more ++ 125 :: rest))
    with (58 :: 32 :: dumps x ++ more ++ 125 :: rest).
  cbv iota. change (58 =? 58) with true. cbv iota.
  change (skip_ws (32 :: dumps x ++ more ++ 125 :: rest))
    with (skip_ws (dumps x ++ more ++ 125 :: rest)).
  rewrite opens_skip_ws by (apply opens_app, opens_dumps).
  assert (Hdl : delim (more ++ 125 :: rest)).
  { unfold more. destruct d; simpl; auto. }
  rewrite (Hx Hokx f (more ++ 125 :: rest)); [|lia|exact Hdl].
  rewrite (delim_skip_ws _ Hdl).
  unfold more. destruct d as [|kv d].
  - reflexivity.
  - set (d' := kv :: d) in *.
    change (([44; 32] ++ dumps_pairs d') ++ 125 :: rest)
      with (44 :: 32 :: dumps_pairs d' ++ 125 :: rest).
    cbv iota. change (44 =? 125) with false. change (44 =? 44) with true.
    cbv iota.
    change (skip_ws (32 :: dumps_pairs d' ++ 125 :: rest))
      with (skip_ws (dumps_pairs d' ++ 125 :: rest)).
    rewrite opens_skip_ws by (apply opens_dumps_pairs; discriminate).
    rewrite IH; auto; try discriminate. lia.
Qed.

Lemma str_eqb_refl s : str_eqb s s = true.
Proof. unfold str_eqb. destruct (list_eq_dec N.eq_dec s s); congruence. Qed.

Lemma str_eqb_sym s t : str_eqb s t = str_eqb t s.
Proof.
  unfold str_eqb.
  destruct (list_eq_dec N.eq_dec s t), (list_eq_dec N.eq_dec t s);
    congruence.
Qed.

Lemma key_eqb_sym (a b : key) : key_eqb a b = key_eqb b a.
Proof.
  destruct a, b; simpl; auto using str_eqb_sym, Z.eqb_sym.
Qed.

(** Setting a key that is not there yet appends the item. *)
Lemma dict_set_new (acc : list (key * value)) ks x :
  List.existsb (key_eqb (KStr ks)) (List.map fst acc) = false ->
  dict_set acc ks x = acc ++ [(KStr ks, x)].
Proof.
  induction acc as [|[k y] acc IH]; simpl; auto.
  intros H. apply orb_false_iff in H as [H1 H2].
  rewrite H1, IH by assumption. reflexivity.
Qed.

Lemma distinct_app_cons (l1 l2 : list key) k :
  distinct (l1 ++ k :: l2) = true ->
  List.existsb (key_eqb k) l1 = false /\ distinct ((l1 ++ [k]) ++ l2) = true.
Proof.
  rewrite <- app_assoc. simpl. intros H. split; [|exact H].
  induction l1 as [|a l1 IH]; simpl in *; auto.
  apply andb_true_iff in H as [Ha Hl].
  apply negb_true_iff in Ha. rewrite existsb_app in Ha.
  apply orb_false_iff in Ha as [_ Ha]. simpl in Ha.
  apply orb_false_iff in Ha as [Ha _].
  rewrite key_eqb_sym, Ha. simpl. auto.
Qed.

Lemma dict_of_pairs_dumped d : forall acc,
  List.forallb str_key (List.map fst d) = true ->
  distinct (List.map fst (acc ++ d)) = true ->
  List.fold_left (fun a kv => dict_set a (fst kv) (snd kv))
                 (List.map (fun kv => (key_str (fst kv), snd kv)) d) acc
  = acc ++ d.
Proof.
  induction d as [|[k x] d IH]; intros acc Hk Hd; simpl.
  - rewrite app_nil_r. reflexivity.
  - simpl in Hk. apply andb_true_iff in Hk as [Hk Hks].
    destruct k as [ks|]; [|discriminate].
    rewrite map_app in Hd. simpl in Hd.
    apply distinct_app_cons in Hd as [Hnew Hd].
    rewrite dict_set_new by assumption.
    rewrite IH; auto.
    + rewrite <- app_assoc. reflexivity.
    + rewrite !map_app. simpl. exact Hd.
Qed.

(** Scanning what [dumps] wrote gives the value back, and leaves what
    followed it. *)
Lemma scan_dumps v : scans v.
Proof.
  induction v as [|b|z|s|l IHl|d IHd] using value_ind_nested;
    intros Hok fuel rest Hf Hd;
    (destruct fuel as [|f]; [simpl in Hf; lia|]).
  - reflexivity.
  - destruct b; reflexivity.
  - destruct (int_repr_number z) as [c [t [E H]]].
    cbn [dumps]. rewrite E. simpl app.
    rewrite scan_once_number by assumption.
    change (c :: t ++ rest) with ((c :: t) ++ rest). rewrite <- E.
    apply scan_number_int. exact Hd.
  - cbn [dumps]. unfold encode_basestring_ascii.
    rewrite <- !app_assoc. simpl app. cbn [scan_once].
    change (34 =? 34) with true. cbv iota.
    rewrite scanstring_escaped by exact Hok. reflexivity.
  - rewrite dumps_list. rewrite size_list in Hf.
    rewrite payload_ok_list in Hok.
    rewrite <- !app_assoc. simpl app at 1. cbn [scan_once].
    change (91 =? 34) with false. change (91 =? 123) with false.
    change (91 =? 91) with true. cbv iota.
    destruct l as [|x l].
    + reflexivity.
    + set (l' := x :: l) in *.
      assert (Ho : opens (dumps_items l' ++ 93 :: rest))
        by (apply opens_dumps_items; discriminate).
      rewrite (opens_skip_ws _ Ho).
      destruct (dumps_items l' ++ 93 :: rest) as [|c1 r1] eqn:E;
        [destruct Ho|].
      destruct Ho as [_ [Hc _]].
      destruct (N.eqb_spec c1 93); [contradiction|].
      rewrite <- E.
      rewrite scan_items_dumps; auto; try discriminate. lia.
  - rewrite dumps_dict. rewrite size_dict in Hf.
    rewrite payload_ok_dict in Hok.
    apply andb_true_iff in Hok as [Hok Hoki].
    apply andb_true_iff in Hok as [Hkeys Hdist].
    rewrite <- !app_assoc. simpl app at 1. cbn [scan_once].
    change (123 =? 34) with false. change (123 =? 123) with true. cbv iota.
    destruct d as [|kv d].
    + reflexivity.
    + set (d' := kv :: d) in *.
      assert (Ho : opens (dumps_pairs d' ++ 125 :: rest))
        by (apply opens_dumps_pairs; discriminate).
      rewrite (opens_skip_ws _ Ho).
      destruct (dumps_pairs d' ++ 125 :: rest) as [|c1 r1] eqn:E;
        [destruct Ho|].
      destruct Ho as [_ [_ [Hc _]]].
      destruct (N.eqb_spec c1 125); [contradiction|].
      rewrite <- E.
      rewrite scan_pairs_dumps; auto; try discriminate; [|lia].
      unfold dict_of_pairs.
      rewrite (dict_of_pairs_dumped d' []); auto.
Qed.

(** ** The fuel of [decode] *)

Lemma size_items_le l :
  Forall (fun v => (size v <= List.length (dumps v))%nat) l ->
  (size_items l <= List.length (dumps_items l) + 1)%nat.
Proof.
  induction 1 as [|x l Hx Hl IH]; simpl; [lia|].
  rewrite length_app. destruct l; simpl in *; lia.
Qed.

Lemma size_pairs_le d :
  Forall (fun v => (size v <= List.length (dumps v))%nat) (List.map snd d) ->
  (size_items (List.map snd d) <= List.length (dumps_pairs d) + 1)%nat.
Proof.
  induction d as [|[k x] d IH]; simpl; [lia|].
  intros H. inversion H as [|? ? Hx Hd]; subst. specialize (IH Hd).
  unfold encode_basestring_ascii.
  rewrite !length_app. simpl. rewrite !length_app.
  destruct d; simpl in *; lia.
Qed.

Lemma size_le_length v : (size v <= List.length (dumps v))%nat.
Proof.
  induction v as [|b|z|s|l IHl|d IHd] using value_ind_nested.
  - simpl. lia.
  - destruct b; simpl; lia.
  - destruct (int_repr_number z) as [c [t [E _]]].
    cbn [dumps size]. rewrite E. simpl. lia.
  - simpl. lia.
  - rewrite dumps_list, size_list, !length_app. simpl.
    pose proof (size_items_le l IHl). lia.
  - rewrite dumps_dict, size_dict, !length_app. simpl.
    pose proof (size_pairs_le d IHd). lia.
Qed.

(** [decode] undoes [dumps]. *)
Lemma decode_dumps v : payload_ok v = true -> decode (dumps v) = Ret v.
Proof.
  intros Hok. unfold decode.
  rewrite (opens_skip_ws _ (opens_dumps v)).
  pose proof (scan_dumps v Hok (2 * List.length (dumps v) + 2)%nat []) as H.
  rewrite app_nil_r in H. rewrite H; [reflexivity| |exact I].
  pose proof (size_le_length v). lia.
Qed.

(** ** Bytes *)

Lemma hex_digit_ascii n : hex_digit (n mod 16) < 128.
Proof.
  pose proof (N.mod_lt n 16). unfold hex_digit.
  destruct (N.ltb_spec (n mod 16) 10); lia.
Qed.

Lemma u_escape_ascii n : ascii_text (u_escape n).
Proof.
  unfold u_escape. repeat constructor; try apply hex_digit_ascii; lia.
Qed.

Lemma escape_char_ascii c : ascii_text (escape_char c).
Proof.
  unfold escape_char.
  repeat match goal with
         | |- context [if ?b then _ else _] => destruct b eqn:?
         end;
    try apply u_escape_ascii;
    try (apply Forall_app; split; apply u_escape_ascii);
    try (repeat constructor; fail).
  apply andb_true_iff in Heqb6 as [_ H]. apply N.leb_le in H.
  repeat constructor. lia.
Qed.

Lemma encode_basestring_ascii_ascii s :
  ascii_text (encode_basestring_ascii s).
Proof.
  unfold encode_basestring_ascii. apply Forall_app. split.
  - repeat constructor; try lia.
  - apply Forall_app. split; [|repeat constructor; try lia].
    induction s as [|c s IH]; simpl; [constructor|].
    apply Forall_app. split; [apply escape_char_ascii|exact IH].
Qed.

Lemma uint_chars_ascii u : ascii_text (uint_chars u).
Proof. induction u; simpl; constructor; auto; lia. Qed.

Lemma int_repr_ascii z : ascii_text (int_repr z).
Proof.
  destruct z; simpl; try apply uint_chars_ascii.
  - repeat constructor; try lia.
  - constructor; [lia|apply uint_chars_ascii].
Qed.

Lemma dumps_ascii v : ascii_text (dumps v).
Proof.
  induction v as [|b|z|s|l IHl|d IHd] using value_ind_nested.
  - repeat constructor; try lia.
  - destruct b; repeat constructor; try lia.
  - apply int_repr_ascii.
  - apply encode_basestring_ascii_ascii.
  - rewrite dumps_list. apply Forall_app. split; [repeat constructor; try lia|].
    apply Forall_app. split; [|repeat constructor; try lia].
    induction IHl as [|x l Hx Hl IH]; simpl; [constructor|].
    apply Forall_app. split; [exact Hx|].
    destruct l; [constructor|].
    constructor; [reflexivity|]. constructor; [reflexivity|exact IH].
  - rewrite dumps_dict. apply Forall_app. split; [repeat constructor; try lia|].
    apply Forall_app. split; [|repeat constructor; try lia].
    induction d as [|[k x] d IH]; simpl; [constructor|].
    simpl in IHd. inversion IHd as [|? ? Hx Hd]; subst.
    pose proof (encode_basestring_ascii_ascii (key_str k)) as Hk.
    unfold encode_basestring_ascii in Hk. simpl in Hk.
    inversion Hk as [|? ? Hq Hk']; subst.
    constructor; [reflexivity|].
    apply Forall_app. split; [exact Hk'|].
    constructor; [reflexivity|]. constructor; [reflexivity|].
    apply Forall_app. split; [exact Hx|].
    destruct d; [constructor|].
    constructor; [reflexivity|]. constructor; [reflexivity|apply IH, Hd].
Qed.

Lemma to_N_byte_of c : c < 256 -> Byte.to_N (byte_of c) = c.
Proof.
  intros H. unfold byte_of. destruct (Byte.of_N c) as [b|] eqn:E.
  - apply Byte.to_of_N. exact E.
  - apply Byte.of_N_None_iff in E. lia.
Qed.

Lemma encode_ascii s :
  ascii_text s -> encode s = Ret (List.map byte_of s).
Proof.
  induction 1 as [|c s Hc Hs IH]; simpl; [reflexivity|].
  unfold utf8_encode_char. destruct (N.ltb_spec c 128); [|lia].
  rewrite IH. reflexivity.
Qed.

Lemma utf8_decode_ascii s :
  ascii_text s ->
  utf8_decode (List.map Byte.to_N (List.map byte_of s)) = Some s.
Proof.
  induction 1 as [|c s Hc Hs IH]; [reflexivity|].
  cbn [List.map utf8_decode]. rewrite to_N_byte_of by lia.
  destruct (N.ltb_spec c 128); [|lia]. rewrite IH. reflexivity.
Qed.

(** What [publish] puts on the wire for a payload, [_relay] decodes to that
    payload. *)
Lemma loads_encode_dumps v :
  payload_ok v = true ->
  encode (dumps v) = Ret (List.map byte_of (dumps v)) /\
  loads (List.map byte_of (dumps v)) = Ret v.
Proof.
  intros Hok. pose proof (dumps_ascii v) as Ha. split.
  - apply encode_ascii. exact Ha.
  - unfold loads. rewrite utf8_decode_ascii by exact Ha.
    apply decode_dumps. exact Hok.
Qed.

End JsonProperties.

(* ====================================================================== *)
(** * From [publish] to [_relay] *)
(* ====================================================================== *)

Section RoundTrip.

Import Json EventSubscription EventPublisher.
Local Open Scope pub_scope.

Implicit Types (s : state) (m : Json.value).

Lemma payloads_app a b : published (a ++ b) = published a ++ published b.
Proof.
  induction a as [|e a IH]; simpl; [reflexivity|].
  destruct e; simpl; rewrite IH; reflexivity.
Qed.

Lemma keeps_ret {A} (a : A) : keeps_payloads (ret a).
Proof. intro s. reflexivity. Qed.

Lemma keeps_raise {A} e : keeps_payloads (@raise A e).
Proof. intro s. reflexivity. Qed.

Lemma keeps_get_self : keeps_payloads get_self.
Proof. intro s. reflexivity. Qed.

Lemma keeps_put_self self : keeps_payloads (put_self self).
Proof. intro s. reflexivity. Qed.

Lemma keeps_await : keeps_payloads await.
Proof.
  intro s. unfold await. destruct (oracle (snd s)) as [|[|e] rest]; reflexivity.
Qed.

Lemma keeps_emit e :
  published [e] = [] -> keeps_payloads (emit e).
Proof.
  intros He s. simpl. rewrite payloads_app, He. apply app_nil_r.
Qed.

Lemma keeps_bind {A B} (c : M A) (k : A -> M B) :
  keeps_payloads c -> (forall a, keeps_payloads (k a)) ->
  keeps_payloads (bind c k).
Proof.
  intros Hc Hk s. unfold bind. specialize (Hc s).
  destruct (c s) as [[a|e] s1]; simpl in *; [|exact Hc].
  rewrite Hk. exact Hc.
Qed.

Lemma keeps_try_except {A} (c : M A) (h : exn -> M A) :
  keeps_payloads c -> (forall e, keeps_payloads (h e)) ->
  keeps_payloads (try_except c h).
Proof.
  intros Hc Hh s. unfold try_except. specialize (Hc s).
  destruct (c s) as [[a|e] s1]; simpl in *; [exact Hc|].
  rewrite Hh. exact Hc.
Qed.

Lemma keeps_connect : keeps_payloads connect.
Proof.
  unfold connect. apply keeps_bind; [apply keeps_await|].
  intros _ s. simpl. rewrite payloads_app. apply app_nil_r.
Qed.

Lemma keeps_transport_close c : keeps_payloads (transport_close c).
Proof. intro s. simpl. rewrite payloads_app. apply app_nil_r. Qed.

Lemma keeps_close : keeps_payloads _close.
Proof.
  unfold _close. apply keeps_bind; [|intros; apply keeps_put_self].
  apply keeps_try_except; [|intros; apply keeps_ret].
  apply keeps_bind; [apply keeps_get_self|]. intros self.
  destruct (_protocol self); [|apply keeps_raise].
  apply keeps_bind; [apply keeps_await|]. intros _.
  apply keeps_bind; [apply keeps_emit; reflexivity|]. intros _.
  destruct (_transport self);
    [apply keeps_transport_close|apply keeps_raise].
Qed.

Lemma keeps_ensure_channel : keeps_payloads _ensure_channel.
Proof.
  unfold _ensure_channel.
  apply keeps_bind; [apply keeps_emit; reflexivity|]. intros _.
  apply keeps_bind; [apply keeps_get_self|]. intros self.
  apply keeps_bind.
  - destruct (connected self); [apply keeps_ret|].
    apply keeps_bind; [apply keeps_connect|]. intros c.
    apply keeps_bind; [apply keeps_put_self|]. intros _.
    apply keeps_bind; [apply keeps_await|]. intros _.
    apply keeps_bind; [apply keeps_emit; reflexivity|]. intros _.
    apply keeps_put_self.
  - intros _. apply keeps_try_except.
    + apply keeps_bind; [apply keeps_get_self|]. intros self'.
      destruct (_protocol self'); [apply keeps_await|apply keeps_raise].
    + intros e. destruct (is_AioamqpException e); [|apply keeps_raise].
      apply keeps_bind; [apply keeps_close|]. intros; apply keeps_raise.
Qed.

(** A [send] that returns has handed over exactly the encoded message. *)
Lemma send_payload exchange routing m ty data s s' :
  encode (dumps m) = Ret data ->
  send exchange routing m ty s = (Ret tt, s') ->
  published (trace (snd s')) = published (trace (snd s)) ++ [data].
Proof.
  intros Hd. unfold send, bind, lift, get_self. rewrite Hd.
  destruct (_channel (fst s)) as [c|]; [|discriminate].
  unfold emit, await; simpl.
  destruct (oracle (snd s)) as [|[|e1] [|[|e2] rest]]; simpl;
    intros H; inversion H; subst; simpl;
    rewrite <- app_assoc, payloads_app; reflexivity.
Qed.

Lemma publish_payload exchange routing m ty data s s' :
  encode (dumps m) = Ret data ->
  publish exchange routing m ty s = (Ret tt, s') ->
  published (trace (snd s')) = published (trace (snd s)) ++ [data].
Proof.
  intros Hd. unfold publish, bind.
  pose proof (keeps_try_except _ (fun _ => _ensure_channel)
                keeps_ensure_channel (fun _ => keeps_ensure_channel) s) as Hk.
  destruct (try_except _ensure_channel (fun _ => _ensure_channel) s)
    as [[[]|e] s1]; [|discriminate].
  simpl in Hk. intros H. rewrite <- Hk.
  exact (send_payload _ _ _ _ _ _ _ Hd H).
Qed.


End RoundTrip.



(* ====================================================================== *)
(** * Properties of the feature registry *)
(* ====================================================================== *)

Section RegistryProperties.

Import Features.

Context {A : Type}.

Implicit Types (a : app A) (f g : feature A) (r : registry A)
         (k : hashable) (key : option hashable) (ft : option cls).

Lemma hashable_eqb_refl k : hashable_eqb k k = true.
Proof. unfold hashable_eqb. destruct (hashable_eq_dec k k); congruence. Qed.

Lemma hashable_eqb_eq k k' : hashable_eqb k k' = true -> k = k'.
Proof.
  unfold hashable_eqb. destruct (hashable_eq_dec k k'); congruence.
Qed.

Lemma lookup_app r1 r2 k :
  lookup k (r1 ++ r2)
  = match lookup k r1 with Some f => Some f | None => lookup k r2 end.
Proof.
  induction r1 as [|[k' f] r1 IH]; simpl; [reflexivity|].
  destruct (hashable_eqb k' k); auto.
Qed.

Lemma lookup_none_not_in r k :
  lookup k r = None -> ~ In k (List.map fst r).
Proof.
  induction r as [|[k' f] r IH]; simpl; [tauto|].
  destruct (hashable_eqb k' k) eqn:E; [discriminate|].
  intros H [->|Hin]; [|exact (IH H Hin)].
  rewrite hashable_eqb_refl in E. discriminate.
Qed.

Lemma lookup_some_in r k f : lookup k r = Some f -> In (k, f) r.
Proof.
  induction r as [|[k' g] r IH]; simpl; [discriminate|].
  destruct (hashable_eqb k' k) eqn:E.
  - intros H. inversion H; subst. apply hashable_eqb_eq in E. subst. auto.
  - auto.
Qed.

Lemma registered_set_features a r : registered (set_features a r) = r.
Proof. reflexivity. Qed.

(** What one [add] does to the registry: nothing, or one entry at its end
    under a key that was free. *)
Lemma add_registered a f key exist_ok :
  let k := key_or_type key (type_ f) in
  registered (snd (add a f key exist_ok))
  = match lookup k (registered a) with
    | Some _ => registered a
    | None => registered a ++ [(k, f)]
    end.
Proof.
  unfold add. rewrite registered_set_features. cbv zeta.
  destruct (lookup _ (registered a)); [destruct exist_ok|]; reflexivity.
Qed.

(** X1.  [add] then [get]: a feature with a true truth value, added under a key
    that was free (its class when no key is given), is what [get] returns
    for that key, also when [get] is given a class the feature is an
    instance of. *)
Theorem get_returns_what_add_registered a f key exist_ok key' ft :
  lookup (key_or_type key (type_ f)) (registered a) = None ->
  truth f = true ->
  key_or key' ft = Some (key_or_type key (type_ f)) ->
  match ft with Some c => isinstance f c = true | None => True end ->
  fst (add a f key exist_ok) = Ok tt /\
  get (snd (add a f key exist_ok)) ft key' = Ok f.
Proof.
  intros Hfree Ht Hk Hi. split.
  - unfold add. rewrite registered_set_features, Hfree. reflexivity.
  - unfold get. rewrite Hk, add_registered. cbv zeta. rewrite Hfree.
    rewrite lookup_app, Hfree. simpl. rewrite hashable_eqb_refl, Ht. simpl.
    destruct ft as [c|]; [rewrite Hi|]; reflexivity.
Qed.

(** X2.  A key that is taken: [add] leaves the registry as it is, and raises
    [KeyError] unless [exist_ok] is true. *)
Theorem add_keeps_the_first_registration a f g key exist_ok :
  let k := key_or_type key (type_ f) in
  lookup k (registered a) = Some g ->
  registered (snd (add a f key exist_ok)) = registered a /\
  lookup k (registered (snd (add a f key exist_ok))) = Some g /\
  fst (add a f key exist_ok)
  = if exist_ok then Ok tt else Raise (KeyError k).
Proof.
  intros k Hk. rewrite add_registered. fold k. rewrite Hk.
  split; [reflexivity|]. split; [exact Hk|].
  unfold add. rewrite registered_set_features. fold k. rewrite Hk.
  destruct exist_ok; reflexivity.
Qed.

Lemma adds_registered cs : forall a,
  exists extra, registered (adds cs a) = registered a ++ extra.
Proof.
  induction cs as [|c cs IH]; intros a; simpl.
  - exists []. rewrite app_nil_r. reflexivity.
  - destruct (IH (snd (add a (c_feature c) (c_key c) (c_exist_ok c))))
      as [extra He].
    rewrite He, add_registered. cbv zeta.
    destruct (lookup _ (registered a)).
    + exists extra. reflexivity.
    + eexists. rewrite <- app_assoc. reflexivity.
Qed.

Lemma adds_nodup cs : forall a,
  NoDup (List.map fst (registered a)) ->
  NoDup (List.map fst (registered (adds cs a))).
Proof.
  induction cs as [|c cs IH]; intros a Hn; simpl; [exact Hn|].
  apply IH. rewrite add_registered. cbv zeta.
  destruct (lookup _ (registered a)) eqn:E; [exact Hn|].
  rewrite map_app. simpl.
  apply lookup_none_not_in in E.
  apply NoDup_app; [exact Hn|repeat constructor; simpl; tauto|].
  intros x Hx [<-|[]]. exact (E Hx).
Qed.

(** X3.  Any run of [add] calls, with any features, keys and [exist_ok] flags,
    whether they return or raise: the registry only grows at its end, no key
    is registered twice, and what [get] returned before the run it returns
    after it. *)
Theorem registry_is_append_only (cs : list (call A)) a :
  NoDup (List.map fst (registered a)) ->
  (exists extra, registered (adds cs a) = registered a ++ extra) /\
  NoDup (List.map fst (registered (adds cs a))) /\
  (forall ft key f, get a ft key = Ok f -> get (adds cs a) ft key = Ok f).
Proof.
  intros Hn. split; [apply adds_registered|]. split; [apply adds_nodup, Hn|].
  intros ft key f. unfold get.
  destruct (key_or key ft) as [k|]; [|discriminate].
  destruct (adds_registered cs a) as [extra ->].
  rewrite lookup_app.
  destruct (lookup k (registered a)) as [found|]; [|discriminate].
  auto.
Qed.

(** X4.  What [get] returns is registered under the key asked for, has a true
    truth value, and is an instance of the class asked for.  So a feature
    whose truth value is false is never returned, registered or not. *)
Theorem get_is_sound a ft key f :
  get a ft key = Ok f ->
  (exists k, key_or key ft = Some k /\ In (k, f) (registered a)) /\
  truth f = true /\
  (forall c, ft = Some c -> isinstance f c = true).
Proof.
  unfold get. destruct (key_or key ft) as [k|]; [|discriminate].
  destruct (lookup k (registered a)) as [found|] eqn:El; [|discriminate].
  destruct (truth found) eqn:Et; simpl; [|discriminate].
  destruct ft as [c|].
  - destruct (isinstance found c) eqn:Ei; [|discriminate].
    intros H; inversion H; subst. split; [|split]; auto.
    + exists k. split; auto. apply lookup_some_in. exact El.
    + intros c' Hc. inversion Hc; subst. exact Ei.
  - intros H; inversion H; subst. split; [|split]; auto.
    + exists k. split; auto. apply lookup_some_in. exact El.
    + intros c' Hc. discriminate.
Qed.

(** X5.  A feature whose truth value is false can be registered and cannot be
    found: [add] returns, [get] for its key raises [KeyError], and the key
    is taken, so that another [add] for it raises [KeyError] as well. *)
Theorem false_feature_is_registered_but_not_found a f g key key' ft :
  lookup (key_or_type key (type_ f)) (registered a) = None ->
  truth f = false ->
  key_or key' ft = Some (key_or_type key (type_ f)) ->
  let k := key_or_type key (type_ f) in
  let a' := snd (add a f key false) in
  fst (add a f key false) = Ok tt /\
  get a' ft key' = Raise (KeyError k) /\
  fst (add a' g (Some k) false) = Raise (KeyError k) /\
  fst (add a' f key false) = Raise (KeyError k).
Proof.
  intros Hfree Ht Hk k a'. fold k in Hfree, Hk.
  assert (Hl : lookup k (registered a') = Some f).
  { unfold a'. rewrite add_registered. cbv zeta. fold k. rewrite Hfree.
    rewrite lookup_app, Hfree. simpl.
    rewrite hashable_eqb_refl. reflexivity. }
  assert (Hkk : key_or_type (Some k) (type_ g) = k).
  { unfold key_or_type at 1. destruct (key_truth k) eqn:E; [reflexivity|].
    unfold k, key_or_type in *. destruct key as [k0|]; simpl in *;
      [destruct (key_truth k0) eqn:E0; [congruence|discriminate]
      |discriminate]. }
  split; [|split; [|split]].
  - unfold add. rewrite registered_set_features. fold k. rewrite Hfree.
    reflexivity.
  - unfold get. rewrite Hk, Hl, Ht. reflexivity.
  - unfold add. rewrite registered_set_features, Hkk, Hl. reflexivity.
  - unfold add. rewrite registered_set_features. fold k. rewrite Hl.
    reflexivity.
Qed.


End RegistryProperties.

(* ====================================================================== *)
(** * Properties of [setup] *)
(* ====================================================================== *)

Section SetupProperties.

Import Features Events.

Context {LogRecord : Type}.

Implicit Types (e : env LogRecord) (a : app (service LogRecord)).

(** X7.  [setup] on an application that is not frozen, has its configuration and
    has none of the three classes registered: it returns; each getter then
    returns the object [setup] made for it, in its initial state; the
    handler is on the root logger; the routes are added; and when the
    application has no loop yet, the lifecycle hooks of the three objects
    are registered, in the order listener, publisher, handler. *)
Theorem setup_registers_listener_publisher_handler e bus rest :
  frozen (app_ e) = false ->
  config e = Some (("eventbus", bus) :: rest) ->
  lookup (HType EventListener_) (registered (app_ e)) = None ->
  lookup (HType EventPublisher_) (registered (app_ e)) = None ->
  lookup (HType EventLogHandler_) (registered (app_ e)) = None ->
  let n := next_id e in
  let e' := snd (setup e) in
  fst (setup e) = Ok tt /\
  get_listener (app_ e')
  = Ok (mkFeature n EventListener_ [ServiceFeature; ABC; object_] true
          (Listener (EventListener.mkListener (loop (app_ e)) (Some [])
                       None [] None))) /\
  get_publisher (app_ e')
  = Ok (mkFeature (S n) EventPublisher_ [ServiceFeature; ABC; object_] true
          (Publisher EventPublisher.init)) /\
  get_handler (app_ e')
  = Ok (mkFeature (S (S n)) EventLogHandler_
          [ServiceFeature; ABC; Handler; Filterer; object_] true
          (LogHandler EventLogHandler.init)) /\
  routes e' = true /\
  (List.existsb (Nat.eqb (S (S n))) (root_handlers e) = false ->
   root_handlers e' = root_handlers e ++ [S (S n)]) /\
  on_startup (app_ e')
  = on_startup (app_ e) ++ (if loop (app_ e) then [] else [n; S n; S (S n)]) /\
  on_cleanup (app_ e')
  = on_cleanup (app_ e) ++ (if loop (app_ e) then [] else [n; S n; S (S n)]).
Proof.
  intros Hf Hc Hl Hp Hh n e'. unfold e', n. clear e' n.
  destruct e as [[lp fs fz ons onc] cfg nid rts hs]. simpl in *. subst fz cfg.
  unfold registered in *. simpl in *.
  unfold setup, bindE, EventListener_new, EventPublisher_new,
    EventLogHandler_new, bindE, allocate, on_app, config_eventbus,
    add_routes, addHandler, ServiceFeature_init, append_hook, with_app, add,
    get_listener, get_publisher, get_handler, get, registered, set_features.
  simpl.
  destruct lp; simpl; rewrite ?Hl, ?Hp, ?Hh; simpl;
    rewrite ?lookup_app, ?Hl, ?Hp, ?Hh; simpl;
    rewrite ?lookup_app, ?Hl, ?Hp, ?Hh; simpl;
    rewrite ?lookup_app, ?Hl, ?Hp, ?Hh; simpl;
    (repeat split; try reflexivity;
     try (intros ->; reflexivity);
     try (rewrite <- !app_assoc; reflexivity);
     try (symmetry; apply app_nil_r)).
Qed.

(** X8.  [setup] on an application that already has a listener registered, as
    after a first [setup]: it raises [KeyError] for the class of the
    listener and registers nothing; the getters return what they returned
    before.  The listener it made for the call is left behind: without a
    loop, its lifecycle hooks are in [on_startup] and [on_cleanup]. *)
Theorem setup_again_raises_and_leaves_hooks e bus rest g :
  frozen (app_ e) = false ->
  config e = Some (("eventbus", bus) :: rest) ->
  lookup (HType EventListener_) (registered (app_ e)) = Some g ->
  let e' := snd (setup e) in
  fst (setup e) = Raise (KeyError (HType EventListener_)) /\
  registered (app_ e') = registered (app_ e) /\
  get_listener (app_ e') = get_listener (app_ e) /\
  get_publisher (app_ e') = get_publisher (app_ e) /\
  get_handler (app_ e') = get_handler (app_ e) /\
  routes e' = routes e /\
  root_handlers e' = root_handlers e /\
  on_startup (app_ e')
  = on_startup (app_ e) ++ (if loop (app_ e) then [] else [next_id e]) /\
  on_cleanup (app_ e')
  = on_cleanup (app_ e) ++ (if loop (app_ e) then [] else [next_id e]).
Proof.
  intros Hf Hc Hl e'. unfold e'. clear e'.
  destruct e as [[lp fs fz ons onc] cfg nid rts hs]. simpl in *. subst fz cfg.
  unfold registered in *. simpl in *.
  unfold setup, bindE, EventListener_new, bindE, allocate, on_app,
    config_eventbus, ServiceFeature_init, append_hook, with_app, add,
    get_listener, get_publisher, get_handler, get, registered, set_features.
  simpl.
  destruct lp; simpl; rewrite ?Hl; simpl;
    (repeat split; try reflexivity; try (symmetry; apply app_nil_r);
     try (rewrite Hl; reflexivity)).
Qed.

End SetupProperties.

(** A new application with its configuration, set up once. *)
Lemma setup_registers_listener_publisher_handler_witness :
  let e := Events.mkEnv (LogRecord := nat) Features.new_app
             (Some [("eventbus", "eventbus")]) 0 false [] in
  let e' := snd (Events.setup e) in
  fst (Events.setup e) = Features.Ok tt /\
  Events.get_listener (Events.app_ e')
  = Features.Ok
      (Features.mkFeature 0 Events.EventListener_
         [Events.ServiceFeature; Events.ABC; Events.object_] true
         (Events.Listener
            (EventListener.mkListener false (Some []) None [] None))) /\
  Features.on_startup (Events.app_ e') = [0; 1; 2] /\
  Events.root_handlers e' = [2].
Proof.
  intros e e'.
  destruct (setup_registers_listener_publisher_handler
              e "eventbus" [] eq_refl eq_refl eq_refl eq_refl eq_refl)
    as [H1 [H2 [_ [_ [_ [H6 [H7 _]]]]]]].
  split; [exact H1|]. split; [exact H2|]. split; [exact H7|].
  exact (H6 eq_refl).
Defined.

(** The same application, set up twice. *)
Lemma setup_again_raises_and_leaves_hooks_witness :
  let e := snd (Events.setup
                  (Events.mkEnv (LogRecord := nat) Features.new_app
                     (Some [("eventbus", "eventbus")]) 0 false [])) in
  fst (Events.setup e)
  = Features.Raise (Features.KeyError (Features.HType Events.EventListener_))
  /\ Features.on_startup (Events.app_ (snd (Events.setup e))) = [0; 1; 2; 3].
Proof.
  intros e.
  destruct (setup_again_raises_and_leaves_hooks
              e "eventbus" []
              (Features.mkFeature 0 Events.EventListener_
                 [Events.ServiceFeature; Events.ABC; Events.object_] true
                 (Events.Listener
                    (EventListener.mkListener false (Some []) None [] None)))
              eq_refl eq_refl eq_refl)
    as [H1 [_ [_ [_ [_ [_ [_ [H8 _]]]]]]]].
  split; [exact H1|exact H8].
Defined.

(* ====================================================================== *)
(** * The listener with a broker that works, and when it is cancelled *)
(* ====================================================================== *)

Section ListenerRuns.

Import EventSubscription EventListener.

Implicit Types (self : EventListener.t) (tk : task) (sys : system)
         (tr evs : list event) (s : Sub) (c : option nat).

Lemma exec_app acts1 acts2 sys :
  exec (acts1 ++ acts2) sys
  = (fst (exec acts2 (fst (exec acts1 sys))),
     snd (exec acts1 sys) ++ snd (exec acts2 (fst (exec acts1 sys)))).
Proof.
  revert sys. induction acts1 as [|a acts1 IH]; intros sys.
  - simpl. destruct (exec acts2 sys). reflexivity.
  - rewrite <- app_comm_cons, !exec_cons, IH. simpl.
    rewrite app_assoc. reflexivity.
Qed.

Lemma returns_add n m : returns (n + m) = returns n ++ returns m.
Proof. unfold returns. apply repeat_app. Qed.

(** ** No subscription, no connection *)

(** X9.  A listener nobody subscribed to never starts its loop: along any
    schedule without a [subscribe] call, with [startup] any number of times,
    there is no task, nothing is logged and no connection is asked for. *)
Theorem no_subscription_no_connection acts sys tr :
  List.existsb is_subscribe acts = false ->
  exec acts init_system = (sys, tr) ->
  _task (listener sys) = None /\
  tr = [] /\
  next_conn sys = 0 /\
  _subscriptions (listener sys) = [] /\
  queued (listener sys) = [] /\
  holding (listener sys) = [].
Proof.
  intros Ha.
  assert (G : forall sys0,
             _task (listener sys0) = None ->
             _subscriptions (listener sys0) = [] ->
             queued (listener sys0) = [] ->
             holding (listener sys0) = [] ->
             _task (listener (fst (exec acts sys0))) = None /\
             snd (exec acts sys0) = [] /\
             next_conn (fst (exec acts sys0)) = next_conn sys0 /\
             _subscriptions (listener (fst (exec acts sys0))) = [] /\
             queued (listener (fst (exec acts sys0))) = [] /\
             holding (listener (fst (exec acts sys0))) = []).
  { induction acts as [|a acts IH]; intros sys0 Ht Hs Hq Hh.
    - simpl. auto 10.
    - simpl in Ha. apply orb_false_iff in Ha as [Ha1 Ha2].
      rewrite exec_cons. cbn [fst snd].
      assert (Hstep : _task (listener (fst (step a sys0))) = None /\
                      snd (step a sys0) = [] /\
                      next_conn (fst (step a sys0)) = next_conn sys0 /\
                      _subscriptions (listener (fst (step a sys0))) = [] /\
                      queued (listener (fst (step a sys0))) = [] /\
                      holding (listener (fst (step a sys0))) = []).
      { destruct sys0 as [[lp pre pend subs t0] ns nc]. simpl in *.
        subst t0 subs. unfold queued, holding in *. simpl in *.
        destruct a; simpl in *; try discriminate; auto 10.
        unfold startup, _lazy_listen, Queue.empty; simpl.
        destruct pre as [l|]; simpl in *; subst; simpl;
          [rewrite andb_false_r|]; simpl; auto 10. }
      destruct Hstep as [H1 [H2 [H3 [H4 [H5 H6]]]]].
      destruct (IH Ha2 (fst (step a sys0)) H1 H4 H5 H6)
        as [I1 [I2 [I3 [I4 [I5 I6]]]]].
      rewrite H2, I2, I3, H3. auto 10. }
  intros He. specialize (G init_system eq_refl eq_refl eq_refl eq_refl).
  rewrite He in G. exact G.
Qed.

(** ** A broker that works *)

Lemma exec_returns_S n sys :
  exec (returns (S n)) sys
  = (fst (exec (returns n) (fst (step (Resume Returns) sys))),
     snd (step (Resume Returns) sys)
       ++ snd (exec (returns n) (fst (step (Resume Returns) sys)))).
Proof. apply exec_cons. Qed.

(** One subscription of the active list is declared again: four awaits. *)
Lemma replay_one lp pre pend subs t0 ns nc tk i s :
  List.nth_error subs i = Some s ->
  exec (returns 4)
       (mkSystem
          (mkListener lp pre pend subs
             (Some (set_at tk (AwaitReplay i ExchangeDeclare)))) ns nc)
  = (mkSystem
       (mkListener lp pre pend subs
          (Some (replay_from (mkListener lp pre pend subs t0) (S i) tk)))
       ns nc,
     [EvDeclared Replay (channel tk) s]).
Proof.
  intros Hs. unfold returns. simpl.
  unfold _listen_step, replay_from, set_at, set_task; simpl.
  rewrite !Hs. simpl. rewrite !Hs. simpl. rewrite !Hs. simpl.
  rewrite !Hs. simpl.
  destruct (List.nth_error subs (S i)); reflexivity.
Qed.

Lemma replay_rest lp pre pend subs ns nc tk : forall k i,
  i + k = List.length subs ->
  exec (returns (4 * k))
       (mkSystem
          (mkListener lp pre pend subs
             (Some (replay_from (mkListener lp pre pend subs None) i tk)))
          ns nc)
  = (mkSystem
       (mkListener lp pre pend subs (Some (set_at tk AwaitEnsureOpen)))
       ns nc,
     List.map (EvDeclared Replay (channel tk)) (List.skipn i subs)).
Proof.
  induction k as [|k IH]; intros i Hi.
  - rewrite Nat.add_0_r in Hi. subst i. rewrite skipn_all. simpl.
    unfold replay_from. simpl.
    rewrite (proj2 (nth_error_None subs (List.length subs)) (le_n _)).
    reflexivity.
  - replace (4 * S k) with (4 + 4 * k) by lia.
    rewrite returns_add, exec_app.
    destruct (List.nth_error subs i) as [s|] eqn:Es.
    2:{ apply nth_error_None in Es. lia. }
    assert (Er : replay_from (mkListener lp pre pend subs None) i tk
                 = set_at tk (AwaitReplay i ExchangeDeclare)).
    { unfold replay_from. simpl. rewrite Es. reflexivity. }
    rewrite Er, (replay_one lp pre pend subs None ns nc tk i s Es).
    cbn [fst snd]. rewrite IH by lia.
    cbn [fst snd]. f_equal.
    rewrite (skipn_nth_error _ _ _ Es). reflexivity.
Qed.

(** X10.  With a broker that works, a session that opens replays the whole
    active list.  From the moment the loop awaits the channel of a new
    connection, one resumption for the channel and four for each active
    subscription (all awaits returning) log the connect and declare every
    active subscription on the new channel, in the order of the list; the
    loop then turns to the pending queue, which it has not touched. *)
Theorem new_session_replays_every_active_subscription sys tk :
  _task (listener sys) = Some tk ->
  at_ tk = AwaitChannel ->
  let subs := _subscriptions (listener sys) in
  let r := exec (returns (1 + 4 * List.length subs)) sys in
  snd r = EvConnected (conn tk)
          :: List.map (EvDeclared Replay (conn tk)) subs /\
  _subscriptions (listener (fst r)) = subs /\
  _pending (listener (fst r)) = _pending (listener sys) /\
  suspended_at (listener (fst r)) = Some AwaitEnsureOpen /\
  next_conn (fst r) = next_conn sys.
Proof.
  intros Ht Ha subs r. unfold r, subs. clear r subs.
  destruct sys as [[lp pre pend subs t0] ns nc].
  cbn [listener _task _subscriptions _pending EventListener.next_conn] in *.
  subst t0. destruct tk as [rt cn ch p]. cbn [at_ conn] in *. subst p.
  rewrite returns_add, exec_app.
  assert (E1 : exec (returns 1)
                 (mkSystem
                    (mkListener lp pre pend subs
                       (Some (mkTask rt cn ch AwaitChannel))) ns nc)
               = (mkSystem
                    (mkListener lp pre pend subs
                       (Some (replay_from (mkListener lp pre pend subs None)
                                0 (mkTask rt cn cn AwaitChannel))))
                    ns nc,
                  [EvConnected cn])).
  { reflexivity. }
  rewrite E1. cbn [fst snd].
  rewrite (replay_rest lp pre pend subs ns nc (mkTask rt cn cn AwaitChannel)
             (List.length subs) 0 eq_refl).
  simpl. auto.
Qed.

(** The head of the queue is taken and declared: seven awaits. *)
Lemma drain_one lp pre m s l subs ns nc rt cn ch :
  exec (returns 7)
       (mkSystem
          (mkListener lp pre (Some (Queue.mk m (s :: l))) subs
             (Some (mkTask rt cn ch AwaitEnsureOpen))) ns nc)
  = (mkSystem
       (mkListener lp pre (Some (Queue.mk m l)) (subs ++ [s])
          (Some (mkTask false cn ch AwaitEnsureOpen))) ns nc,
     [EvDequeued s; EvDeclared Drain ch s]).
Proof. reflexivity. Qed.

Lemma drain_rest lp pre m ns nc cn ch : forall l subs rt,
  exec (returns (7 * List.length l))
       (mkSystem
          (mkListener lp pre (Some (Queue.mk m l)) subs
             (Some (mkTask rt cn ch AwaitEnsureOpen))) ns nc)
  = (mkSystem
       (mkListener lp pre (Some (Queue.mk m [])) (subs ++ l)
          (Some (mkTask (match l with [] => rt | _ => false end)
                        cn ch AwaitEnsureOpen))) ns nc,
     List.flat_map (fun s => [EvDequeued s; EvDeclared Drain ch s]) l).
Proof.
  induction l as [|s l IH]; intros subs rt.
  - simpl. rewrite app_nil_r. reflexivity.
  - replace (7 * List.length (s :: l)) with (7 + 7 * List.length l)
      by (simpl; lia).
    rewrite returns_add, exec_app, drain_one. cbn [fst snd].
    rewrite IH. cbn [fst snd]. rewrite <- app_assoc. simpl.
    destruct l; reflexivity.
Qed.

(** X11.  With a broker that works, the pending queue is drained into the active
    list.  From the top of the inner loop, seven resumptions for each queued
    subscription (all awaits returning) take every subscription from the
    queue and declare it on the channel of the session, first in first out;
    afterwards the queue is empty and the active list is the old one
    followed by what was queued, in that order. *)
Theorem queue_is_drained_into_the_active_list sys tk q :
  _task (listener sys) = Some tk ->
  at_ tk = AwaitEnsureOpen ->
  _pending (listener sys) = Some q ->
  let r := exec (returns (7 * List.length (Queue.items q))) sys in
  _subscriptions (listener (fst r))
  = _subscriptions (listener sys) ++ Queue.items q /\
  queued (listener (fst r)) = [] /\
  in_flight (listener (fst r)) = [] /\
  dequeued (snd r) = Queue.items q /\
  declared Drain (channel tk) (snd r) = Queue.items q /\
  suspended_at (listener (fst r)) = Some AwaitEnsureOpen.
Proof.
  intros Ht Ha Hq r. unfold r. clear r.
  destruct sys as [[lp pre pend subs t0] ns nc].
  cbn [listener _task _subscriptions _pending] in *. subst t0 pend.
  destruct tk as [rt cn ch p]. cbn [at_ channel] in *. subst p.
  destruct q as [m l]. cbn [Queue.items].
  rewrite drain_rest. cbn [fst snd listener _subscriptions].
  unfold queued, in_flight, suspended_at. simpl.
  repeat split; auto.
  - clear. induction l as [|s l IH]; simpl; [reflexivity|].
    rewrite IH. reflexivity.
  - clear. induction l as [|s l IH]; simpl; [reflexivity|].
    rewrite chan_eqb_refl, IH. reflexivity.
Qed.

Lemma subscribes_before_startup nc : forall calls l ns,
  List.forallb is_subscribe calls = true ->
  exec calls (mkSystem (mkListener true (Some l) None [] None) ns nc)
  = (mkSystem (mkListener true (Some (l ++ made ns calls)) None [] None)
       (ns + List.length calls) nc,
     List.map EvSubscribed (made ns calls)).
Proof.
  induction calls as [|a calls IH]; intros l ns Hc.
  - simpl. rewrite app_nil_r, Nat.add_0_r. reflexivity.
  - simpl in Hc. apply andb_true_iff in Hc as [Ha Hc].
    destruct a; try discriminate.
    rewrite exec_cons. cbn [step subscribe listener _pending
      _pending_pre_async app_loop _subscriptions _task next_sub
      EventListener.next_conn fst snd].
    unfold _lazy_listen. cbn [app_loop _task _subscriptions _pending
      andb orb fst snd listener].
    rewrite IH by exact Hc. cbn [fst snd made List.map List.length app].
    rewrite <- app_assoc. simpl. rewrite Nat.add_succ_r. reflexivity.
Qed.

Lemma put_all_unbounded_create (l : list Sub) : forall l0,
  put_all (Queue.mk 0 l0) l = Ret (Queue.mk 0 (l0 ++ l)).
Proof.
  induction l as [|s l IH]; intros l0; simpl.
  - rewrite app_nil_r. reflexivity.
  - unfold Queue.put_nowait, Queue.full. simpl. rewrite IH, <- app_assoc.
    reflexivity.
Qed.

(** X12.  With a broker that works, the subscriptions made before [startup]
    become active in the order of the calls.  The application gets its
    loop, any number of [subscribe] calls are made, [startup] runs, and the
    loop is resumed twice for the session and seven times for each
    subscription, every await returning: then the active list is the list
    of the subscriptions made, in the order of the calls, each was declared
    once on the channel of the first connection, and nothing is pending. *)
Theorem subscriptions_made_before_startup_become_active calls :
  List.forallb is_subscribe calls = true ->
  let acts := SetLoop :: calls
                ++ Startup :: returns (2 + 7 * List.length calls) in
  let r := exec acts init_system in
  _subscriptions (listener (fst r)) = made 0 calls /\
  subscribed (snd r) = made 0 calls /\
  declared Drain (Some 0) (snd r) = made 0 calls /\
  holding (listener (fst r)) = [] /\
  queued (listener (fst r)) = [] /\
  in_flight (listener (fst r)) = [].
Proof.
  intros Hc acts r. unfold r, acts. clear r acts.
  rewrite exec_cons. cbn [step fst snd listener init_system init
    _pending_pre_async _pending _subscriptions _task app_loop next_sub
    EventListener.next_conn].
  rewrite exec_app, (subscribes_before_startup 0 calls [] 0 Hc).
  cbn [fst snd app]. rewrite exec_cons.
  cbn [step startup set_pending listener _pending_pre_async _pending
    _subscriptions _task app_loop fst snd next_sub EventListener.next_conn].
  unfold Queue.create. rewrite put_all_unbounded_create.
  cbn [app fst snd listener].
  destruct (made 0 calls) as [|s0 l0] eqn:Emade.
  - (* no subscription: no task *)
    assert (Hn : forall n sys, _task (listener sys) = None ->
                   exec (returns n) sys = (sys, [])).
    { induction n as [|n IH]; intros sys Ht; [reflexivity|].
      rewrite exec_returns_S. destruct sys as [self ns nc]. simpl in *.
      rewrite Ht. simpl. rewrite IH by exact Ht. reflexivity. }
    unfold _lazy_listen. simpl. rewrite Hn by reflexivity. simpl.
    repeat split; reflexivity.
  - unfold _lazy_listen.
    cbn [app_loop _task _subscriptions _pending Queue.empty Queue.items
         andb orb negb set_task fst snd listener].
    rewrite returns_add, exec_app.
    assert (E2 : forall ns q,
               exec (returns 2)
                 (mkSystem
                    (set_task (mkListener true None (Some q) [] None)
                       (Some new_task)) ns 0)
               = (mkSystem
                    (mkListener true None (Some q) []
                       (Some (mkTask false (Some 0) (Some 0)
                                AwaitEnsureOpen))) ns 1,
                  [EvConnected (Some 0)])) by reflexivity.
    rewrite E2. cbn [fst snd].
    assert (Hlen : List.length calls = List.length (s0 :: l0)).
    { rewrite <- Emade. clear - Hc. generalize 0.
      induction calls as [|a calls IH]; intros n; [reflexivity|].
      simpl in Hc. apply andb_true_iff in Hc as [Ha Hc].
      destruct a; try discriminate. simpl. rewrite (IH Hc (S n)). reflexivity. }
    replace (7 * List.length calls) with (7 * List.length (s0 :: l0))
      by (rewrite Hlen; reflexivity).
    rewrite drain_rest. cbn [fst snd listener
      _subscriptions _pending _pending_pre_async _task].
    unfold holding, queued, in_flight. simpl.
    assert (Hs1 : forall l, subscribed (List.map EvSubscribed l) = l)
      by (induction l as [|y l IH]; simpl; congruence).
    assert (Hs2 : forall l, subscribed (List.map EvEnqueued l) = [])
      by (induction l as [|y l IH]; simpl; congruence).
    assert (Hs3 : forall l, subscribed
              (List.flat_map
                 (fun s => [EvDequeued s; EvDeclared Drain (Some 0) s]) l)
              = [])
      by (induction l as [|y l IH]; simpl; congruence).
    assert (Hd1 : forall l, declared Drain (Some 0)
                              (List.map EvSubscribed l) = [])
      by (induction l as [|y l IH]; simpl; congruence).
    assert (Hd2 : forall l, declared Drain (Some 0)
                              (List.map EvEnqueued l) = [])
      by (induction l as [|y l IH]; simpl; congruence).
    assert (Hd3 : forall l, declared Drain (Some 0)
              (List.flat_map
                 (fun s => [EvDequeued s; EvDeclared Drain (Some 0) s]) l)
              = l)
      by (induction l as [|y l IH]; simpl; congruence).
    repeat split; try reflexivity.
    + f_equal. rewrite subscribed_app, Hs1. cbn [subscribed].
      rewrite subscribed_app, Hs2. cbn [subscribed app]. rewrite Hs3.
      apply app_nil_r.
    + rewrite declared_app, Hd1. cbn [declared app].
      rewrite declared_app, Hd2.
      cbn [declared app site_eqb chan_eqb Nat.eqb andb]. rewrite Hd3.
      reflexivity.
Qed.

(** ** Warnings *)

Lemma warnings_app tr1 tr2 :
  warnings (tr1 ++ tr2) = warnings tr1 + warnings tr2.
Proof. unfold warnings. rewrite filter_app, length_app. reflexivity. Qed.

Lemma connects_app tr1 tr2 :
  connects (tr1 ++ tr2) = connects tr1 + connects tr2.
Proof. unfold connects. rewrite filter_app, length_app. reflexivity. Qed.

Lemma on_exception_warns e tk tk' evs :
  on_exception e tk = (tk', evs) ->
  warnings evs + may_warn_task tk' <= (if retrying tk then 0 else 1) /\
  connects evs = 0.
Proof.
  unfold on_exception, finally_, after_finally, set_at, may_warn_task.
  destruct (is_CancelledError e), (retrying tk) eqn:Er, (conn tk);
    intros H; inversion H; subst; clear H; simpl; rewrite ?Er; simpl;
    split; try reflexivity; lia.
Qed.

Lemma may_warn_task_lower tk :
  (if retrying tk then 0 else 1) <= may_warn_task tk.
Proof.
  unfold may_warn_task. destruct (retrying tk), (in_session (at_ tk)); lia.
Qed.

Lemma put_back_quiet self s e self' e' evs :
  put_back self s e = (self', e', evs) ->
  warnings evs = 0 /\ connects evs = 0.
Proof.
  unfold put_back. destruct (_pending self) as [q|].
  - destruct (Queue.put_nowait q s); intros H; inversion H; subst; auto.
  - intros H; inversion H; subst; auto.
Qed.

Ltac case_retrying :=
  repeat match goal with
         | |- context [retrying ?t] => destruct (retrying t)
         end.

Lemma listen_step_warns o self nc tk self' nc' tk' evs :
  _listen_step o self nc tk = (self', nc', tk', evs) ->
  warnings evs + may_warn_task tk' <= may_warn_task tk + connects evs.
Proof.
  pose proof (may_warn_task_lower tk) as Hlow.
  unfold _listen_step.
  destruct (at_ tk) eqn:Hat.
  - (* connect *)
    destruct o as [|e].
    + intros H; inversion H; subst; clear H.
      unfold may_warn_task in *. simpl. rewrite Hat in *. simpl in *.
      case_retrying; simpl; lia.
    + destruct (on_exception e tk) as [tk1 evs1] eqn:Eo.
      intros H; inversion H; subst; clear H.
      destruct (on_exception_warns _ _ _ _ Eo). lia.
  - (* channel *)
    destruct o as [|e].
    + intros H; inversion H; subst; clear H.
      unfold may_warn_task, replay_from, set_at, warnings, connects. simpl.
      destruct (_subscriptions self'); simpl;
        case_retrying; simpl; lia.
    + destruct (on_exception e tk) as [tk1 evs1] eqn:Eo.
      intros H; inversion H; subst; clear H.
      destruct (on_exception_warns _ _ _ _ Eo). lia.
  - (* replay *)
    assert (Hin : may_warn_task tk = 1).
    { unfold may_warn_task. rewrite Hat. destruct (retrying tk); reflexivity. }
    destruct (List.nth_error (_subscriptions self) i) as [sub|].
    2:{ intros H; inversion H; subst. unfold warnings, connects. simpl. lia. }
    destruct o as [|e].
    + destruct (next_stage st); intros H; inversion H; subst; clear H;
        rewrite Hin; unfold may_warn_task, replay_from, set_at,
          warnings, connects; cbn -[List.nth_error];
        try destruct (List.nth_error (_subscriptions self') (S i));
        cbn -[List.nth_error]; case_retrying; simpl; lia.
    + destruct (on_exception e tk) as [tk1 evs1] eqn:Eo.
      intros H; inversion H; subst; clear H.
      destruct (on_exception_warns _ _ _ _ Eo).
      change (EvDeclareFailed Replay (channel tk) sub e :: evs1)
        with ([EvDeclareFailed Replay (channel tk) sub e] ++ evs1).
      rewrite warnings_app, connects_app. unfold warnings at 1. simpl. lia.
  - (* ensure_open *)
    assert (Hin : may_warn_task tk = 1).
    { unfold may_warn_task. rewrite Hat. destruct (retrying tk); reflexivity. }
    destruct o as [|e].
    + destruct (_pending self).
      * intros H; inversion H; subst; clear H.
        rewrite Hin. unfold may_warn_task, warnings, connects. simpl. lia.
      * destruct (on_exception AttributeError _) as [tk1 evs1] eqn:Eo.
        intros H; inversion H; subst; clear H.
        destruct (on_exception_warns _ _ _ _ Eo) as [H1 H2].
        simpl in H1. lia.
    + destruct (is_TimeoutError e).
      * intros H; inversion H; subst; clear H.
        unfold warnings, connects. simpl. lia.
      * destruct (on_exception e tk) as [tk1 evs1] eqn:Eo.
        intros H; inversion H; subst; clear H.
        destruct (on_exception_warns _ _ _ _ Eo). lia.
  - (* pending *)
    assert (Hin : may_warn_task tk = 1).
    { unfold may_warn_task. rewrite Hat. destruct (retrying tk); reflexivity. }
    destruct o as [|e].
    + destruct (_pending self) as [q|]; [destruct (Queue.pop q) as [[s0 q']|]|];
        intros H; inversion H; subst; clear H;
        rewrite ?Hin; unfold may_warn_task, set_at, warnings, connects;
        simpl; case_retrying; simpl; lia.
    + destruct (is_TimeoutError e).
      * intros H; inversion H; subst; clear H.
        rewrite Hin. unfold may_warn_task, set_at, warnings, connects; simpl.
        case_retrying; simpl; lia.
      * destruct (on_exception e tk) as [tk1 evs1] eqn:Eo.
        intros H; inversion H; subst; clear H.
        destruct (on_exception_warns _ _ _ _ Eo). lia.
  - (* ensure_open, with a subscription *)
    assert (Hin : may_warn_task tk = 1).
    { unfold may_warn_task. rewrite Hat. destruct (retrying tk); reflexivity. }
    destruct o as [|e].
    + intros H; inversion H; subst; clear H.
      rewrite Hin. unfold may_warn_task, set_at, warnings, connects; simpl.
      case_retrying; simpl; lia.
    + destruct (put_back self s e) as [[self1 e1] evs0] eqn:Ep.
      destruct (on_exception e1 tk) as [tk1 evs1] eqn:Eo.
      intros H; inversion H; subst; clear H.
      destruct (on_exception_warns _ _ _ _ Eo).
      destruct (put_back_quiet _ _ _ _ _ _ Ep).
      rewrite warnings_app, connects_app. lia.
  - (* declare *)
    assert (Hin : may_warn_task tk = 1).
    { unfold may_warn_task. rewrite Hat. destruct (retrying tk); reflexivity. }
    destruct o as [|e].
    + destruct (next_stage st); intros H; inversion H; subst; clear H;
        rewrite Hin; unfold may_warn_task, set_at, warnings, connects; simpl;
        case_retrying; simpl; lia.
    + destruct (put_back self s e) as [[self1 e1] evs0] eqn:Ep.
      destruct (on_exception e1 tk) as [tk1 evs1] eqn:Eo.
      intros H; inversion H; subst; clear H.
      destruct (on_exception_warns _ _ _ _ Eo).
      destruct (put_back_quiet _ _ _ _ _ _ Ep).
      change (EvDeclareFailed Drain (channel tk) s e :: evs0 ++ evs1)
        with ([EvDeclareFailed Drain (channel tk) s e] ++ evs0 ++ evs1).
      rewrite !warnings_app, !connects_app. unfold warnings at 1. simpl. lia.
  - (* sleep *)
    destruct o as [|e]; intros H; inversion H; subst; clear H;
      unfold may_warn_task, finally_, after_finally, set_at,
        warnings, connects in *; simpl; rewrite Hat;
      destruct (conn tk), (retrying tk); simpl; lia.
  - (* close *)
    intros H; inversion H; subst; clear H.
    unfold may_warn_task, after_finally, set_at, warnings, connects in *.
    simpl. rewrite Hat. destruct k, (retrying tk); simpl; lia.
  - (* finished *)
    intros H; inversion H; subst; clear H.
    unfold warnings, connects. simpl. lia.
Qed.

Lemma resume_warns o sys :
  warnings (snd (step (Resume o) sys))
    + may_warn (listener (fst (step (Resume o) sys)))
  <= may_warn (listener sys) + connects (snd (step (Resume o) sys)).
Proof.
  destruct sys as [self ns nc]. unfold may_warn. simpl.
  destruct (_task self) as [tk|] eqn:Ht.
  - destruct (_listen_step o self nc tk) as [[[self' nc'] tk'] evs] eqn:E.
    simpl. exact (listen_step_warns _ _ _ _ _ _ _ _ E).
  - simpl. rewrite Ht. unfold warnings, connects. simpl. lia.
Qed.

(** X13.  While the loop task runs, it does not repeat its connection warning:
    along any resumptions of the loop, with any outcomes, from any state,
    the warnings logged are at most one more than the sessions opened.
    After a warning the next one comes only after a session was opened and
    found open. *)
Theorem warnings_are_bounded_by_sessions (os : list outcome) sys :
  let tr := snd (exec (resumes os) sys) in
  warnings tr <= 1 + connects tr.
Proof.
  intros tr. unfold tr. clear tr.
  assert (G : forall sys0,
             warnings (snd (exec (resumes os) sys0))
               + may_warn (listener (fst (exec (resumes os) sys0)))
             <= may_warn (listener sys0)
                + connects (snd (exec (resumes os) sys0))).
  { induction os as [|o os IH]; intros sys0.
    - simpl. unfold warnings, connects. simpl. lia.
    - unfold resumes. simpl List.map. fold (resumes os).
      rewrite exec_cons. cbn [fst snd].
      rewrite warnings_app, connects_app.
      pose proof (resume_warns o sys0).
      pose proof (IH (fst (step (Resume o) sys0))). lia. }
  specialize (G sys).
  assert (may_warn (listener sys) <= 1).
  { unfold may_warn, may_warn_task.
    destruct (_task (listener sys)) as [tk|]; [|lia].
    destruct (retrying tk), (in_session (at_ tk)); lia. }
  lia.
Qed.

(** ** Cancellation *)

(** X14.  Cancelling the loop task, at any point of any run (with [startup] run
    at most once).  Delivered at any await but the [protocol.close()] of the
    [finally] clause, the [CancelledError] ends the loop: after at most one
    more resumption (that [protocol.close()], whatever its outcome) the
    coroutine is finished.  No subscription is lost: one that was being
    declared is back at the tail of the queue, and the pre-start list, the
    rest of the queue and the active list are as they were.  The next
    [subscribe] call starts a new loop, which begins by connecting.
    Delivered while the loop awaits [protocol.close()] on its way to
    reconnect, the [CancelledError] is swallowed by [except Exception: pass]
    and the loop connects again. *)
Theorem cancellation_ends_the_loop_and_loses_nothing
        acts sys tr tk o x r ty cb :
  startup_once acts ->
  exec acts init_system = (sys, tr) ->
  _task (listener sys) = Some tk ->
  app_loop (listener sys) = true ->
  let cancel := step (Resume (Raises CancelledError)) sys in
  (cancellable (at_ tk) = true ->
   let sys2 := fst (step (Resume o) (fst cancel)) in
   suspended_at (listener sys2) = Some Finished /\
   in_flight (listener sys2) = [] /\
   holding (listener sys2) = holding (listener sys) /\
   queued (listener sys2)
   = queued (listener sys) ++ in_flight (listener sys) /\
   _subscriptions (listener sys2) = _subscriptions (listener sys) /\
   (_pending (listener sys) <> None ->
    suspended_at (listener (fst (step (Subscribe x r ty cb) sys2)))
    = Some AwaitConnect)) /\
  (at_ tk = AwaitClose Reconnect ->
   suspended_at (listener (fst cancel)) = Some AwaitConnect /\
   snd cancel = []).
Proof.
  intros Hs He Ht Hl cancel. unfold cancel. clear cancel.
  pose proof (inv_reachable acts sys tr Hs He) as HI.
  pose proof (inv_task _ _ HI tk Ht) as [_ [_ Hok]].
  pose proof (inv_unbounded _ _ HI) as Hub.
  destruct sys as [[lp pre pend subs t0] ns nc].
  cbn [listener _task app_loop _pending _subscriptions] in *. subst t0 lp.
  destruct tk as [rt cn ch p]. cbn [at_ conn channel] in *.
  split; [|intros ->; split; reflexivity].
  intros Hc. unfold suspended_at, in_flight, holding, queued.
  destruct pend as [[m l]|].
  - pose proof (Hub _ eq_refl) as Hm. simpl in Hm. subst m.
    destruct p; try discriminate; clear Hc;
      try match goal with
          | H : _ /\ _ /\ ?i < _ |- _ =>
              destruct H as [_ [_ Hi]];
              destruct (List.nth_error subs i) eqn:En;
              [|apply nth_error_None in En; lia]
          end;
      destruct cn; cbn -[List.nth_error]; rewrite ?En;
      cbn -[List.nth_error]; rewrite ?En; cbn -[List.nth_error];
      (repeat split; try reflexivity; try (symmetry; apply app_nil_r);
       intros _; unfold _lazy_listen; simpl;
       destruct subs; try reflexivity; destruct l; reflexivity).
  - destruct p; try discriminate; clear Hc;
      try (simpl in Hok; congruence);
      try match goal with
          | H : _ /\ _ /\ ?i < _ |- _ =>
              destruct H as [_ [_ Hi]];
              destruct (List.nth_error subs i) eqn:En;
              [|apply nth_error_None in En; lia]
          end;
      destruct cn; cbn -[List.nth_error]; rewrite ?En;
      cbn -[List.nth_error]; rewrite ?En; cbn -[List.nth_error];
      (repeat split; try reflexivity; try congruence).
Qed.

End ListenerRuns.

(* ====================================================================== *)
(** * The publisher over runs of calls *)
(* ====================================================================== *)

Section PublisherRuns.

Import EventPublisher.
Local Open Scope pub_scope.

Implicit Types (s : state) (self : EventPublisher.t) (w : world).

(** X15.  [_close], and so [shutdown], in any state and whatever the broker
    does: it returns, the publisher is left without a session, and at most one
    await is consumed.  The transport is closed when there was a protocol
    and a transport and [protocol.close()] returned; when [protocol.close()]
    raises, the exception is swallowed and the transport is not closed. *)
Theorem close_returns_and_resets s :
  let r := _close s in
  fst r = Ret tt /\
  fst (snd r) = init /\
  next_conn (snd (snd r)) = next_conn (snd s) /\
  (oracle (snd (snd r)) = oracle (snd s) \/
   exists o, oracle (snd s) = o :: oracle (snd (snd r))) /\
  match _protocol (fst s), _transport (fst s), oracle (snd s) with
  | Some p, Some c, ([] | Returns :: _) =>
      open_ (snd (snd r))
      = List.filter (fun x => negb (Nat.eqb x c)) (open_ (snd s)) /\
      closed (trace (snd (snd r))) = closed (trace (snd s)) ++ [c]
  | _, _, _ =>
      open_ (snd (snd r)) = open_ (snd s) /\
      closed (trace (snd (snd r))) = closed (trace (snd s))
  end.
Proof.
  destruct s as [[t p c] [os n op tr]].
  unfold _close, bind, try_except, get_self, await, emit, transport_close,
    _reset, put_self, raise, ret. simpl.
  destruct p as [p|]; simpl.
  - destruct os as [|[|e] os]; simpl; destruct t as [t|]; simpl;
      rewrite ?closed_app; simpl; rewrite ?app_nil_r;
      repeat split; eauto.
  - destruct t, os as [|[|e] os]; simpl; repeat split; eauto.
Qed.

(** ** The session across calls *)

Lemma fresh_connection n (op : list nat) :
  Forall (fun c => c < n) op /\ NoDup op ->
  Forall (fun c => c < S n) (op ++ [n]) /\ NoDup (op ++ [n]).
Proof.
  intros [Hb Hn]. split.
  - apply Forall_app. split.
    + eapply Forall_impl; [|exact Hb]. simpl. lia.
    + repeat constructor.
  - apply NoDup_app; [exact Hn|repeat constructor; simpl; tauto|].
    intros x Hx [<-|[]]. rewrite Forall_forall in Hb.
    specialize (Hb _ Hx). lia.
Qed.

Lemma closed_connection n (op : list nat) f :
  Forall (fun c => c < n) op /\ NoDup op ->
  Forall (fun c => c < n) (List.filter f op) /\ NoDup (List.filter f op).
Proof.
  intros [Hb Hn]. split.
  - rewrite Forall_forall in *. intros x Hx. apply filter_In in Hx as [Hx _].
    auto.
  - apply NoDup_filter. exact Hn.
Qed.

Ltac solve_world :=
  unfold world_ok in *; simpl in *;
  repeat first [ assumption
               | apply fresh_connection
               | apply closed_connection ].

Ltac solve_session :=
  split;
  [ solve_world
  | unfold session_ok; simpl; repeat split; auto;
    try (apply in_or_app; right; left; reflexivity);
    try (apply in_or_app; left; assumption) ].

Lemma close_keeps s :
  world_ok (snd s) ->
  world_ok (snd (snd (_close s))) /\ session_ok (snd (_close s)).
Proof.
  destruct s as [[t p c] [os n op tr]]. intros Hw.
  unfold _close, bind, try_except, get_self, await, emit, transport_close,
    _reset, put_self, raise, ret. simpl.
  destruct p as [p|]; simpl;
    [destruct os as [|[|e] os]; simpl; destruct t as [t|]; simpl|];
    solve_session.
Qed.

Lemma ensure_channel_keeps s :
  world_ok (snd s) -> session_ok s ->
  world_ok (snd (snd (_ensure_channel s))) /\
  session_ok (snd (_ensure_channel s)).
Proof.
  destruct s as [[t p c] [os n op tr]]. intros Hw Hs.
  unfold session_ok in Hs. simpl in Hs.
  unfold _ensure_channel, _close, connect, connected, bind, try_except,
    get_self, await, emit, transport_close, _reset, put_self, raise, ret.
  simpl.
  destruct t as [t|], p as [p|]; try contradiction.
  - destruct Hs as [-> [Hin [-> | ->]]]; simpl.
    + destruct os as [|[|e1] [|[|e2] [|[|e3] [|[|e4] os]]]]; simpl;
        try destruct (is_AioamqpException e3); simpl;
        try destruct (is_AioamqpException e4); simpl;
        solve_session.
    + destruct os as [|[|e1] [|[|e2] os]]; simpl;
        try destruct (is_AioamqpException e1); simpl;
        solve_session.
  - destruct c; try contradiction.
    destruct os as [|[|e1] [|[|e2] [|[|e3] [|[|e4] os]]]]; simpl;
      try destruct (is_AioamqpException e3); simpl;
      solve_session.
Qed.

Lemma send_keeps x r m ty s :
  world_ok (snd s) -> session_ok s ->
  world_ok (snd (snd (send x r m ty s))) /\ session_ok (snd (send x r m ty s)).
Proof.
  intros Hw Hs.
  destruct (send_keeps_session x r m ty s) as [H1 [H2 _]].
  cbv zeta in H1, H2.
  assert (Hn : next_conn (snd (snd (send x r m ty s))) = next_conn (snd s)).
  { unfold send, bind, lift, get_self, emit, await, raise.
    destruct (Json.encode (Json.dumps m)); simpl; auto.
    destruct (_channel (fst s)); simpl; auto.
    destruct (oracle (snd s)) as [|[|e1] [|[|e2] rest]]; reflexivity. }
  split.
  - unfold world_ok in *. rewrite H2, Hn. exact Hw.
  - unfold session_ok in *. rewrite H1, H2. exact Hs.
Qed.

Lemma publish_unfold x r m ty s :
  publish x r m ty s
  = match _ensure_channel s with
    | (Ret _, s1) => send x r m ty s1
    | (Exc _, s1) =>
        match _ensure_channel s1 with
        | (Ret _, s2) => send x r m ty s2
        | (Exc e, s2) => (Exc e, s2)
        end
    end.
Proof.
  unfold publish, bind, try_except.
  destruct (_ensure_channel s) as [[[]|e1] s1]; [reflexivity|].
  destruct (_ensure_channel s1) as [[[]|e2] s2]; reflexivity.
Qed.

Lemma perform_keeps c s :
  world_ok (snd s) -> session_ok s ->
  world_ok (snd (snd (perform c s))) /\ session_ok (snd (perform c s)).
Proof.
  intros Hw Hs. destruct c as [rq|]; simpl.
  - rewrite publish_unfold.
    destruct (ensure_channel_keeps s Hw Hs) as [Hw1 Hs1].
    destruct (_ensure_channel s) as [[[]|e1] s1]; simpl in *.
    + apply send_keeps; assumption.
    + destruct (ensure_channel_keeps s1 Hw1 Hs1) as [Hw2 Hs2].
      destruct (_ensure_channel s1) as [[[]|e2] s2]; simpl in *.
      * apply send_keeps; assumption.
      * auto.
  - apply close_keeps. exact Hw.
Qed.

(** X16.  Along any run of [publish] and [shutdown] calls, with any messages and
    whatever the broker does (any await may raise any exception): the
    publisher has no session at all, or the transport and the protocol of
    one connection, with no channel or the channel of that same connection;
    and the connection it holds is one whose transport it has not closed. *)
Theorem publisher_fields_fit_together (cs : list call) s :
  world_ok (snd s) -> session_ok s ->
  world_ok (snd (snd (run cs s))) /\ session_ok (snd (run cs s)).
Proof.
  revert s. induction cs as [|c cs IH]; intros s Hw Hs; simpl; auto.
  destruct (perform_keeps c s Hw Hs) as [Hw1 Hs1].
  destruct (perform c s) as [r s1]. simpl in *.
  specialize (IH s1 Hw1 Hs1).
  destruct (run cs s1) as [rs s2]. simpl in *. exact IH.
Qed.

(** ** What is sent *)

(** Serialization never fails: [json.dumps] writes ASCII only. *)
Lemma encode_dumps m : Json.encode (Json.dumps m) = Ret (payload m).
Proof. apply encode_ascii, dumps_ascii. Qed.

Lemma payload_is_ascii m :
  Forall (fun b => (Byte.to_N b < 128)%N) (payload m).
Proof.
  unfold payload. pose proof (dumps_ascii m) as H.
  induction H as [|c l Hc Hl IH]; simpl; constructor; auto.
  rewrite to_N_byte_of; lia.
Qed.

Lemma send_sends x r m ty s :
  exists l,
    published (trace (snd (snd (send x r m ty s))))
    = published (trace (snd s)) ++ l /\
    (l = [] \/ l = [payload m]) /\
    (fst (send x r m ty s) = Ret tt -> l = [payload m]).
Proof.
  unfold send, bind, lift, get_self, emit, await, raise.
  rewrite encode_dumps. simpl.
  destruct (_channel (fst s)) as [c|]; simpl.
  - destruct (oracle (snd s)) as [|[|e1] [|[|e2] rest]]; simpl;
      rewrite ?payloads_app; simpl; rewrite ?app_nil_r.
    all: try (exists [payload m]; rewrite <- ?app_assoc; simpl;
              repeat split; auto; fail).
    all: exists []; rewrite ?app_nil_r; repeat split; auto;
      intros H; discriminate.
  - exists []. rewrite app_nil_r. repeat split; auto. intros H; discriminate.
Qed.

(** X17.  One [publish] call hands at most one payload to the broker, also when
    it connects twice: what it adds to the payloads sent is nothing, or the
    bytes of [json.dumps(message)], which are ASCII for every message; and
    when it returns, it has sent them. *)
Theorem publish_sends_at_most_once x r m ty s :
  let s' := snd (publish x r m ty s) in
  Forall (fun b => (Byte.to_N b < 128)%N) (payload m) /\
  exists l,
    published (trace (snd s')) = published (trace (snd s)) ++ l /\
    (l = [] \/ l = [payload m]) /\
    (fst (publish x r m ty s) = Ret tt -> l = [payload m]).
Proof.
  intros s'. unfold s'. clear s'. split; [apply payload_is_ascii|].
  rewrite publish_unfold.
  pose proof (keeps_ensure_channel s) as K1.
  destruct (_ensure_channel s) as [[[]|e1] s1]; simpl in K1.
  - rewrite <- K1. apply send_sends.
  - pose proof (keeps_ensure_channel s1) as K2.
    destruct (_ensure_channel s1) as [[[]|e2] s2]; simpl in K2.
    + rewrite <- K1, <- K2. apply send_sends.
    + exists []. simpl. rewrite K2, K1, app_nil_r.
      repeat split; auto. intros H; discriminate.
Qed.

(** ** A broker that works *)

Lemma first_publish rq n op tr :
  perform (Publish rq) (init, mkWorld [] n op tr)
  = (Ret tt,
     (connected_to n,
      mkWorld [] (S n) (op ++ [n])
        (tr ++ [EvEnsureChannel; EvConnect n; EvChannel n;
                EvExchangeDeclare n (r_exchange rq) (r_exchange_type rq);
                EvBasicPublish n (r_exchange rq) (r_routing rq)
                               (payload (r_message rq))]))).
Proof.
  simpl. unfold publish, send, bind, try_except, lift.
  rewrite encode_dumps. simpl. rewrite <- !app_assoc. reflexivity.
Qed.

Lemma next_publish rq c n op tr :
  perform (Publish rq) (connected_to c, mkWorld [] n op tr)
  = (Ret tt,
     (connected_to c,
      mkWorld [] n op
        (tr ++ [EvEnsureChannel;
                EvExchangeDeclare c (r_exchange rq) (r_exchange_type rq);
                EvBasicPublish c (r_exchange rq) (r_routing rq)
                               (payload (r_message rq))]))).
Proof.
  simpl. unfold publish, send, bind, try_except, lift.
  rewrite encode_dumps. simpl. rewrite <- !app_assoc. reflexivity.
Qed.

Lemma next_publishes c n op : forall rqs tr,
  let r := run (List.map Publish rqs) (connected_to c, mkWorld [] n op tr) in
  fst r = List.map (fun _ => Ret tt) rqs /\
  fst (snd r) = connected_to c /\
  open_ (snd (snd r)) = op /\
  next_conn (snd (snd r)) = n /\
  published (trace (snd (snd r)))
  = published tr ++ List.map (fun rq => payload (r_message rq)) rqs.
Proof.
  induction rqs as [|rq rqs IH]; intros tr; simpl.
  - rewrite app_nil_r. auto.
  - pose proof (next_publish rq c n op tr) as E. simpl in E. rewrite E.
    match goal with
    | |- context [run _ (_, mkWorld [] n op ?t)] =>
        specialize (IH t); cbv zeta in IH;
        destruct (run (List.map Publish rqs)
                    (connected_to c, mkWorld [] n op t))
          as [rs s2]
    end.
    simpl in *. destruct IH as [I1 [I2 [I3 [I4 I5]]]].
    rewrite I1, I5, payloads_app. simpl. rewrite <- app_assoc.
    repeat split; auto.
Qed.

(** X18.  With a broker that works (every await returns), a publisher without a
    session serves any number of [publish] calls over one connection: every
    call returns, the connection opened by the first call is the only one
    opened and is still open, and the broker is handed the payloads of the
    messages in the order of the calls. *)
Theorem working_broker_one_connection (rqs : list request) n op tr :
  rqs <> [] ->
  let r := run (List.map Publish rqs) (init, mkWorld [] n op tr) in
  fst r = List.map (fun _ => Ret tt) rqs /\
  fst (snd r) = connected_to n /\
  open_ (snd (snd r)) = op ++ [n] /\
  next_conn (snd (snd r)) = S n /\
  published (trace (snd (snd r)))
  = published tr ++ List.map (fun rq => payload (r_message rq)) rqs.
Proof.
  destruct rqs as [|rq rqs]; [congruence|]. intros _ r. unfold r. clear r.
  cbn [List.map run].
  rewrite first_publish.
  match goal with
  | |- context [run _ (_, mkWorld [] (S n) (op ++ [n]) ?t)] =>
      pose proof (next_publishes n (S n) (op ++ [n]) rqs t) as H;
      cbv zeta in H;
      destruct (run (List.map Publish rqs)
                  (connected_to n, mkWorld [] (S n) (op ++ [n]) t))
        as [rs s2]
  end.
  simpl in *. destruct H as [I1 [I2 [I3 [I4 I5]]]].
  rewrite I1, I5, payloads_app. simpl. rewrite <- app_assoc.
  repeat split; auto.
Qed.

End PublisherRuns.

(* ====================================================================== *)
(** * The log handler with a publisher that works *)
(* ====================================================================== *)

Section LogHandlerRuns.

Import EventLogHandler.

Context {LogRecord : Type}.

Implicit Types (self : EventLogHandler.t LogRecord) (r : LogRecord).

Lemma handler_exec_app (acts1 acts2 : list (action LogRecord)) self :
  exec (acts1 ++ acts2) self
  = (fst (exec acts2 (fst (exec acts1 self))),
     snd (exec acts1 self) ++ snd (exec acts2 (fst (exec acts1 self)))).
Proof.
  revert self. induction acts1 as [|a acts1 IH]; intros self; simpl.
  - destruct (exec acts2 self). reflexivity.
  - destruct (step a self) as [self1 e1]. rewrite IH.
    destruct (exec acts1 self1) as [self2 e2]. simpl.
    rewrite app_assoc. reflexivity.
Qed.

Lemma emits_are_queued (rs : list LogRecord) : forall l tk,
  exec (List.map Emit rs) (mkHandler (Some (Queue.mk 0 l)) tk)
  = (mkHandler (Some (Queue.mk 0 (l ++ rs))) tk, []).
Proof.
  induction rs as [|r rs IH]; intros l tk; simpl.
  - rewrite app_nil_r. reflexivity.
  - unfold emit, emit_body, Queue.put_nowait, Queue.full. simpl.
    rewrite IH, <- app_assoc. reflexivity.
Qed.

Lemma records_are_published m : forall (l : list LogRecord),
  exec (List.repeat (Resume Returns) (2 * List.length l))
       (mkHandler (Some (Queue.mk m l)) (Some (mkTask None AwaitGet)))
  = (mkHandler (Some (Queue.mk m [])) (Some (mkTask None AwaitGet)),
     List.flat_map (fun r => [EvDequeued r; EvPublished r]) l).
Proof.
  induction l as [|r l IH]; [reflexivity|].
  replace (2 * List.length (r :: l)) with (2 + 2 * List.length l)
    by (simpl; lia).
  rewrite repeat_app, handler_exec_app.
  change (exec (List.repeat (Resume Returns) 2)
            (mkHandler (Some (Queue.mk m (r :: l)))
               (Some (mkTask None AwaitGet))))
    with (mkHandler (Some (Queue.mk m l)) (Some (mkTask None AwaitGet)),
          [EvDequeued r; EvPublished r]).
  cbn [fst snd]. rewrite IH. reflexivity.
Qed.


End LogHandlerRuns.

(* ====================================================================== *)
(** * The properties at concrete inputs *)
(* ====================================================================== *)

(** A publisher registered under a name, and found under that name as an
    instance of its base class. *)
Lemma get_returns_what_add_registered_witness :
  let a := RegistryScenario.one in
  let f := RegistryScenario.publisher in
  let key := Some (Features.HStr "publisher") in
  fst (Features.add a f key false) = Features.Ok tt /\
  Features.get (snd (Features.add a f key false)) (Some 2) key
  = Features.Ok f.
Proof.
  intros a f key.
  apply (get_returns_what_add_registered a f key false key (Some 2));
    reflexivity.
Defined.

(** A second listener for an application that has one. *)
Lemma add_keeps_the_first_registration_witness :
  let a := RegistryScenario.one in
  let f := Features.mkFeature 3 5 [2; 1; 0] true 0 in
  Features.registered (snd (Features.add a f None false))
  = Features.registered a /\
  Features.lookup (Features.HType 5)
    (Features.registered (snd (Features.add a f None false)))
  = Some RegistryScenario.listener /\
  fst (Features.add a f None false)
  = Features.Raise (Features.KeyError (Features.HType 5)).
Proof.
  intros a f.
  apply (add_keeps_the_first_registration a f RegistryScenario.listener
           None false).
  reflexivity.
Defined.

(** Three more calls on that application, one of them for the class that
    is taken. *)
Lemma registry_is_append_only_witness :
  let a := RegistryScenario.one in
  let cs := [Features.mkCall RegistryScenario.publisher None false;
             Features.mkCall RegistryScenario.listener None false;
             Features.mkCall RegistryScenario.nothing None true] in
  (exists extra,
      Features.registered (Features.adds cs a)
      = Features.registered a ++ extra) /\
  NoDup (List.map fst (Features.registered (Features.adds cs a))) /\
  (forall ft key f,
      Features.get a ft key = Features.Ok f ->
      Features.get (Features.adds cs a) ft key = Features.Ok f).
Proof.
  intros a cs. apply (registry_is_append_only cs a).
  vm_compute. repeat constructor. simpl. tauto.
Defined.

Lemma get_is_sound_witness :
  let a := RegistryScenario.one in
  let f := RegistryScenario.listener in
  (exists k, Features.key_or None (Some 5) = Some k /\
             In (k, f) (Features.registered a)) /\
  Features.truth f = true /\
  (forall c, Some 5 = Some c -> Features.isinstance f c = true).
Proof.
  intros a f. apply (get_is_sound a (Some 5) None f). reflexivity.
Defined.

(** An object whose truth value is false, registered under its class. *)
Lemma false_feature_is_registered_but_not_found_witness :
  let a := RegistryScenario.one in
  let f := RegistryScenario.nothing in
  let a' := snd (Features.add a f None false) in
  fst (Features.add a f None false) = Features.Ok tt /\
  Features.get a' (Some 8) None
  = Features.Raise (Features.KeyError (Features.HType 8)) /\
  fst (Features.add a' RegistryScenario.publisher
         (Some (Features.HType 8)) false)
  = Features.Raise (Features.KeyError (Features.HType 8)) /\
  fst (Features.add a' f None false)
  = Features.Raise (Features.KeyError (Features.HType 8)).
Proof.
  intros a f a'.
  apply (false_feature_is_registered_but_not_found
           a f RegistryScenario.publisher None None (Some 8));
    reflexivity.
Defined.

(** A listener that is started and resumed, and never subscribed to. *)
Lemma no_subscription_no_connection_witness :
  let acts := [EventListener.SetLoop; EventListener.Startup;
               Scenario.ok; Scenario.ok] in
  let r := EventListener.exec acts EventListener.init_system in
  EventListener._task (EventListener.listener (fst r)) = None /\
  snd r = [] /\
  EventListener.next_conn (fst r) = 0 /\
  EventListener._subscriptions (EventListener.listener (fst r)) = [] /\
  EventListener.queued (EventListener.listener (fst r)) = [] /\
  EventListener.holding (EventListener.listener (fst r)) = [].
Proof.
  intros acts r.
  apply (no_subscription_no_connection acts (fst r) (snd r)).
  - reflexivity.
  - vm_compute. reflexivity.
Defined.

(** The second session of the scenario, with one active subscription. *)
Lemma new_session_replays_every_active_subscription_witness :
  let sys := fst (EventListener.exec Scenario.until_reconnect
                    EventListener.init_system) in
  let r := EventListener.exec (returns 5) sys in
  snd r = [EventListener.EvConnected (Some 1);
           EventListener.EvDeclared EventListener.Replay (Some 1)
             Scenario.sub0] /\
  suspended_at (EventListener.listener (fst r))
  = Some EventListener.AwaitEnsureOpen.
Proof.
  intros sys r.
  destruct (new_session_replays_every_active_subscription
              sys (EventListener.mkTask true (Some 1) (Some 0)
                     EventListener.AwaitChannel))
    as [H1 [_ [_ [H4 _]]]]; [vm_compute; reflexivity|reflexivity|].
  split; [exact H1|exact H4].
Defined.

(** Two subscriptions made before [startup], and a session that is open. *)
Lemma queue_is_drained_into_the_active_list_witness :
  let sys := fst (EventListener.exec
                    [EventListener.SetLoop; Scenario.call; Scenario.call;
                     EventListener.Startup; Scenario.ok; Scenario.ok]
                    EventListener.init_system) in
  let r := EventListener.exec (returns 14) sys in
  EventListener._subscriptions (EventListener.listener (fst r))
  = [Scenario.sub0; Scenario.sub1] /\
  EventListener.queued (EventListener.listener (fst r)) = [] /\
  EventListener.dequeued (snd r) = [Scenario.sub0; Scenario.sub1].
Proof.
  intros sys r.
  destruct (queue_is_drained_into_the_active_list
              sys (EventListener.mkTask false (Some 0) (Some 0)
                     EventListener.AwaitEnsureOpen)
              (Queue.mk 0 [Scenario.sub0; Scenario.sub1]))
    as [H1 [H2 [_ [H4 _]]]];
    [vm_compute; reflexivity|reflexivity|vm_compute; reflexivity|].
  split; [exact H1|]. split; [exact H2|exact H4].
Defined.

(** Two subscriptions, then [startup], then sixteen resumptions. *)
Lemma subscriptions_made_before_startup_become_active_witness :
  let calls := [Scenario.call; Scenario.call] in
  let acts := EventListener.SetLoop :: calls
                ++ EventListener.Startup :: returns 16 in
  let r := EventListener.exec acts EventListener.init_system in
  EventListener._subscriptions (EventListener.listener (fst r))
  = [Scenario.sub0; Scenario.sub1] /\
  EventListener.queued (EventListener.listener (fst r)) = [].
Proof.
  intros calls acts r.
  destruct (subscriptions_made_before_startup_become_active calls eq_refl)
    as [H1 [_ [_ [_ [H5 _]]]]].
  split; [exact H1|exact H5].
Defined.

(** The loop is cancelled while it declares the first subscription. *)
Lemma cancellation_ends_the_loop_and_loses_nothing_witness :
  let sys := fst (EventListener.exec Scenario.until_dequeue
                    EventListener.init_system) in
  let cancel := EventListener.step
                  (EventListener.Resume (Raises CancelledError)) sys in
  let sys2 := fst (EventListener.step Scenario.ok (fst cancel)) in
  suspended_at (EventListener.listener sys2)
  = Some EventListener.Finished /\
  EventListener.queued (EventListener.listener sys2) = [Scenario.sub0] /\
  suspended_at
    (EventListener.listener (fst (EventListener.step Scenario.call sys2)))
  = Some EventListener.AwaitConnect.
Proof.
  intros sys cancel sys2.
  destruct (cancellation_ends_the_loop_and_loses_nothing
              Scenario.until_dequeue sys
              (snd (EventListener.exec Scenario.until_dequeue
                      EventListener.init_system))
              (EventListener.mkTask false (Some 0) (Some 0)
                 (EventListener.AwaitEnsureOpen2 Scenario.sub0))
              Returns "brewblox" "controller.#" "topic" None)
    as [H _].
  - unfold EventListener.startup_once. vm_compute. lia.
  - vm_compute. reflexivity.
  - vm_compute. reflexivity.
  - reflexivity.
  - destruct (H eq_refl) as [H1 [_ [_ [H4 [_ H6]]]]].
    split; [exact H1|]. split; [exact H4|].
    apply H6. vm_compute. discriminate.
Defined.

(** A publisher whose first channel fails, shut down and used again. *)
Lemma publisher_fields_fit_together_witness :
  let s := (EventPublisher.init,
            EventPublisher.fresh_world
              [Returns; Raises (AioamqpException "channel")]) in
  let cs := [Publish PublisherScenario.first; Shutdown;
             Publish PublisherScenario.second] in
  world_ok (snd (snd (run cs s))) /\ session_ok (snd (run cs s)).
Proof.
  intros s cs. apply (publisher_fields_fit_together cs s).
  - split; constructor.
  - exact I.
Defined.

(** Two [publish] calls on a new publisher. *)
Lemma working_broker_one_connection_witness :
  let rqs := [PublisherScenario.first; PublisherScenario.second] in
  let r := run (List.map Publish rqs)
               (EventPublisher.init, EventPublisher.mkWorld [] 0 [] []) in
  fst r = [Ret tt; Ret tt] /\
  fst (snd r) = connected_to 0 /\
  EventPublisher.open_ (snd (snd r)) = [0] /\
  EventPublisher.next_conn (snd (snd r)) = 1 /\
  EventPublisher.published (EventPublisher.trace (snd (snd r)))
  = [payload (r_message PublisherScenario.first);
     payload (r_message PublisherScenario.second)].
Proof.
  intros rqs r.
  apply (working_broker_one_connection rqs 0 [] []). discriminate.
Defined.
